(** * WealthWatch financial simulation engine

    A shallow embedding of the numerical core of the server:
    - [calculatePayoff] and [compareStrategies]
      (providers/IFinancialProvider.ts),
    - [calculateHealthScore] and [forecastCashFlow]
      (services/financialHealth.ts),
    - the deterministic projection and the Monte Carlo bands of the
      investment-growth handler (routes/projections.ts).

    JavaScript numbers are modelled as exact rationals ([Q]): every
    arithmetic operation of the source is kept, but carried out without
    binary rounding.  Equality of amounts is therefore [Qeq] ([==]). *)

From Stdlib Require Import QArith Qround Qminmax Qabs Lqa Lia.
From Stdlib Require Import List String Ascii ZArith Bool Arith DecimalString.
From Stdlib Require Import Sorting.Sorted Sorting.Permutation.
Import ListNotations.

Open Scope Q_scope.

(** ** JavaScript primitives *)

Module JS.

(** [a > b] and [a <= b] on numbers. *)
Definition gtb (a b : Q) : bool := negb (Qle_bool a b).
Definition leb (a b : Q) : bool := Qle_bool a b.
Definition ltb (a b : Q) : bool := negb (Qle_bool b a).
Definition geb (a b : Q) : bool := Qle_bool b a.

(** A read [o[k]!] need not yield a number: a missing property reads as
    [undefined] and an inherited one as an object.  Every comparison of such
    a value with a number is [false]; [None] stands for it. *)
Definition gt_num (o : option Q) (c : Q) : bool :=
  match o with Some v => gtb v c | None => false end.
Definition le_num (o : option Q) (c : Q) : bool :=
  match o with Some v => leb v c | None => false end.

(** [Math.round]: nearest integer, halves towards +infinity. *)
Definition round (x : Q) : Z := Qfloor (x + (1 # 2)).

(** [Math.round(x * 100) / 100]. *)
Definition round_cents (x : Q) : Q := inject_Z (round (x * 100)) / 100.

(** [Array.prototype.sort(cmp)]: a stable sort; [cmp a b <= 0] keeps [a]
    in front of [b]. *)
Section Sort.
Context {A : Type} (cmp : A -> A -> Q).

Fixpoint insert (x : A) (l : list A) : list A :=
  match l with
  | [] => [x]
  | y :: ys => if leb (cmp x y) 0 then x :: y :: ys else y :: insert x ys
  end.

Fixpoint sort (l : list A) : list A :=
  match l with
  | [] => []
  | x :: xs => insert x (sort xs)
  end.
End Sort.

(** [Array.prototype.join]. *)
Definition join (sep : string) (l : list string) : string := String.concat sep l.

End JS.

(** ** A JavaScript object used as a dictionary

    [Record<string, number>]: keys are kept in insertion order, which is the
    order [Object.values] enumerates them in; an assignment to an existing
    key keeps its position.  (JavaScript lists integer-like keys first; the
    one use of the order here is the sum of [Object.values], which over exact
    rationals does not depend on it.) *)

Module Dict.

Definition t := list (string * Q).

Definition empty : t := [].

(** The one key such an object does not store.  [o["__proto__"] = n] with a
    number [n] runs the setter inherited from [Object.prototype], which
    ignores it, and [o["__proto__"]] reads back [Object.prototype], which is
    not a number. *)
Definition proto : string := "__proto__".

Fixpoint lookup (b : t) (k : string) : option Q :=
  match b with
  | [] => None
  | (k', v) :: r => if String.eqb k' k then Some v else lookup r k
  end.

Fixpoint store (b : t) (k : string) (v : Q) : t :=
  match b with
  | [] => [(k, v)]
  | (k', v') :: r =>
      if String.eqb k' k then (k', v) :: r else (k', v') :: store r k v
  end.

(** [b[k]], when it is a number. *)
Definition get (b : t) (k : string) : option Q :=
  if String.eqb k proto then None else lookup b k.

(** [b[k] = v]. *)
Definition set (b : t) (k : string) (v : Q) : t :=
  if String.eqb k proto then b else store b k v.

Definition values (b : t) : list Q := map snd b.
Definition keys (b : t) : list string := map fst b.

End Dict.

(** ** Debt payoff simulator (providers/IFinancialProvider.ts) *)

Record DebtInput := mkDebt {
  id : string;
  name : string;
  balance : Q;
  rate : Q;       (* annual interest rate as percentage *)
  minimum : Q     (* minimum monthly payment *)
}.

Record DebtEntry := mkEntry {
  e_id : string;
  e_name : string;
  e_balance : Q;
  e_payment : Q;
  e_interest : Q;
  e_principal : Q
}.

Record PayoffMonth := mkMonth {
  month : nat;
  debts : list DebtEntry;
  totalBalance : Q;
  totalPayment : Q;
  totalInterest : Q
}.

Record PayoffOrderEntry := mkPayoff {
  p_id : string;
  p_name : string;
  payoffMonth : nat
}.

Inductive Strategy := avalanche | snowball.

Record PayoffResult := mkResult {
  strategy : Strategy;
  months : nat;
  totalPaid : Q;
  r_totalInterest : Q;
  schedule : list PayoffMonth;
  debtPayoffOrder : list PayoffOrderEntry
}.

(** The comparator handed to [sort]. *)
Definition strategy_cmp (s : Strategy) (a b : DebtInput) : Q :=
  match s with
  | avalanche => rate b - rate a
  | snowball => balance a - balance b
  end.

Definition sort_debts (s : Strategy) (ds : list DebtInput) : list DebtInput :=
  JS.sort (strategy_cmp s) ds.

(** [for (const d of sorted) balances[d.id] = d.balance]. *)
Definition init_balances (sorted : list DebtInput) : Dict.t :=
  fold_left (fun b d => Dict.set b (id d) (balance d)) sorted Dict.empty.

Definition sumQ (l : list Q) : Q := fold_left Qplus l 0.

Definition maxMonths : nat := 360.

(** The variables the [while] loop updates. *)
Record LoopState := mkState {
  st_balances : Dict.t;
  st_schedule : list PayoffMonth;
  st_payoffOrder : list PayoffOrderEntry;
  st_totalInterestPaid : Q;
  st_totalPaid : Q;
  st_month : nat
}.

Definition unpaid (b : Dict.t) (d : DebtInput) : bool :=
  JS.gt_num (Dict.get b (id d)) 0.01.

Definition paid (b : Dict.t) (d : DebtInput) : bool :=
  JS.le_num (Dict.get b (id d)) 0.01.

Definition remaining_of (sorted : list DebtInput) (b : Dict.t) : list DebtInput :=
  filter (unpaid b) sorted.

Definition freedMinimums (sorted : list DebtInput) (b : Dict.t) : Q :=
  fold_left (fun s d => s + minimum d) (filter (paid b) sorted) 0.

(** First pass: minimum payment and interest of one remaining debt.  The
    balance read is the one at the start of the month; a missing key cannot
    occur for a debt of [remaining] and reads as 0 here. *)
Definition bal_of (b : Dict.t) (k : string) : Q :=
  match Dict.get b k with Some v => v | None => 0 end.

Definition first_pass_entry (b : Dict.t) (d : DebtInput) : DebtEntry :=
  let bal := bal_of b (id d) in
  let monthlyRate := rate d / 100 / 12 in
  let interest := bal * monthlyRate in
  let minPayment := Qmin (minimum d) (bal + interest) in
  mkEntry (id d) (name d) bal minPayment interest (minPayment - interest).

Definition first_pass (b : Dict.t) (remaining : list DebtInput) : list DebtEntry :=
  map (first_pass_entry b) remaining.

(** [entry.payment += maxExtra; entry.principal += maxExtra] on the first
    entry of [monthDebts] whose id is [k] (the object [find] returns). *)
Fixpoint add_extra (k : string) (maxExtra : Q) (es : list DebtEntry) : list DebtEntry :=
  match es with
  | [] => []
  | e :: r =>
      if String.eqb (e_id e) k
      then mkEntry (e_id e) (e_name e) (e_balance e)
             (e_payment e + maxExtra) (e_interest e) (e_principal e + maxExtra) :: r
      else e :: add_extra k maxExtra r
  end.

Definition find_entry (k : string) (es : list DebtEntry) : option DebtEntry :=
  find (fun m => String.eqb (e_id m) k) es.

(** Second pass: the extra budget goes to the first debt of [sorted] that
    still has a balance; the loop stops at that debt.  The budget left over
    is not read again, so only the entries are returned. *)
Fixpoint second_pass (sorted : list DebtInput) (b : Dict.t) (extraBudget : Q)
    (es : list DebtEntry) : list DebtEntry :=
  match sorted with
  | [] => es
  | d :: rest =>
      if JS.le_num (Dict.get b (id d)) 0.01 || JS.leb extraBudget 0
      then second_pass rest b extraBudget es
      else
        match find_entry (id d) es with
        | None => second_pass rest b extraBudget es
        | Some entry =>
            let maxExtra :=
              Qmin extraBudget
                   (e_balance entry + e_interest entry - e_payment entry + 0.01) in
            if JS.gtb maxExtra 0 then add_extra (id d) maxExtra es else es
        end
  end.

(** What the third loop accumulates. *)
Record Applied := mkApplied {
  ap_balances : Dict.t;
  ap_entries : list DebtEntry;
  ap_payment : Q;
  ap_interest : Q;
  ap_payoffOrder : list PayoffOrderEntry
}.

Definition in_payoffOrder (k : string) (po : list PayoffOrderEntry) : bool :=
  existsb (fun p => String.eqb (p_id p) k) po.

(** Apply payments to balances, one entry at a time. *)
Fixpoint apply_payments (m : nat) (es : list DebtEntry) (acc : Applied) : Applied :=
  match es with
  | [] => acc
  | entry :: r =>
      let nb := Qmax 0 (e_balance entry + e_interest entry - e_payment entry) in
      let b' := Dict.set (ap_balances acc) (e_id entry) nb in
      let entry' := mkEntry (e_id entry) (e_name entry) (bal_of b' (e_id entry))
                      (e_payment entry) (e_interest entry) (e_principal entry) in
      let po := ap_payoffOrder acc in
      let po' :=
        if JS.le_num (Dict.get b' (e_id entry)) 0.01
           && negb (in_payoffOrder (e_id entry) po)
        then po ++ [mkPayoff (e_id entry) (e_name entry) m]
        else po in
      apply_payments m r
        (mkApplied b' (ap_entries acc ++ [entry'])
           (ap_payment acc + e_payment entry)
           (ap_interest acc + e_interest entry) po')
  end.

(** One iteration of the loop body, after the [break] test. *)
Definition step (sorted : list DebtInput) (extraMonthly : Q) (st : LoopState) : LoopState :=
  let b := st_balances st in
  let remaining := remaining_of sorted b in
  let m := S (st_month st) in
  let extraBudget := extraMonthly + freedMinimums sorted b in
  let monthDebts := second_pass sorted b extraBudget (first_pass b remaining) in
  let ap := apply_payments m monthDebts
              (mkApplied b [] 0 0 (st_payoffOrder st)) in
  mkState (ap_balances ap)
    (st_schedule st ++
       [mkMonth m (ap_entries ap) (sumQ (Dict.values (ap_balances ap)))
          (ap_payment ap) (ap_interest ap)])
    (ap_payoffOrder ap)
    (st_totalInterestPaid st + ap_interest ap)
    (st_totalPaid st + ap_payment ap)
    m.

(** [while (month < maxMonths) { ...; if (remaining.length === 0) break; ... }].
    The recursion is on [fuel]; started at [maxMonths] it is never used up
    before the loop test fails or the [break] is taken ([loop_exit]). *)
Fixpoint loop (fuel : nat) (sorted : list DebtInput) (extraMonthly : Q)
    (st : LoopState) : LoopState :=
  match fuel with
  | O => st
  | S fuel' =>
      if (st_month st <? maxMonths)%nat
      then
        match remaining_of sorted (st_balances st) with
        | [] => st
        | _ :: _ => loop fuel' sorted extraMonthly (step sorted extraMonthly st)
        end
      else st
  end.

Definition init_state (sorted : list DebtInput) : LoopState :=
  mkState (init_balances sorted) [] [] 0 0 0.

Definition calculatePayoff (ds : list DebtInput) (s : Strategy) (extraMonthly : Q)
  : PayoffResult :=
  let sorted := sort_debts s ds in
  let st := loop maxMonths sorted extraMonthly (init_state sorted) in
  mkResult s (st_month st) (st_totalPaid st) (st_totalInterestPaid st)
    (st_schedule st) (st_payoffOrder st).

Record Comparison := mkComparison {
  c_avalanche : PayoffResult;
  c_snowball : PayoffResult;
  interestSaved : Q;
  monthsSaved : Z
}.

Definition compareStrategies (ds : list DebtInput) (extraMonthly : Q) : Comparison :=
  let a := calculatePayoff ds avalanche extraMonthly in
  let s := calculatePayoff ds snowball extraMonthly in
  mkComparison a s (r_totalInterest s - r_totalInterest a)
    (Z.of_nat (months s) - Z.of_nat (months a)).

(** Caller-side preconditions on a debt. *)
Definition valid_debt (d : DebtInput) : Prop :=
  0 <= balance d /\ 0 <= rate d /\ rate d <= 100 /\ 0 <= minimum d.

(** ** Number formatting *)

Module Fmt.

Definition digits_of_N (n : N) : string := NilZero.string_of_uint (N.to_uint n).

(** [String(z)] for an integer. *)
Definition string_of_Z (z : Z) : string :=
  if (z <? 0)%Z then ("-" ++ digits_of_N (Z.abs_N z))%string
  else digits_of_N (Z.to_N z).

Fixpoint zeros (n : nat) : string :=
  match n with O => ""%string | S k => ("0" ++ zeros k)%string end.

(** [x.toFixed(f)] for a finite [x] below 1e21: the magnitude is rounded to
    [f] decimals, halves up, and the sign is put in front. *)
Definition toFixed (x : Q) (f : nat) : string :=
  let neg := JS.ltb x 0 in
  let ax := if neg then - x else x in
  let n := Z.to_N (Qfloor (ax * inject_Z (10 ^ Z.of_nat f) + (1 # 2))) in
  let m := digits_of_N n in
  let m' :=
    match f with
    | O => m
    | S _ =>
        let k := String.length m in
        let m1 := if (k <=? f)%nat then (zeros (f + 1 - k) ++ m)%string else m in
        let k1 := String.length m1 in
        (substring 0 (k1 - f) m1 ++ "." ++ substring (k1 - f) f m1)%string
    end in
  ((if neg then "-" else "") ++ m')%string.

End Fmt.

(** ** Financial health score (services/financialHealth.ts) *)

(** A division whose result is a finite number; with a zero divisor
    JavaScript yields [NaN] or an infinity, modelled as [None]. *)
Definition finite_div (a b : Q) : option Q :=
  if Qeq_bool b 0 then None else Some (a / b).

Definition obind {A B} (o : option A) (f : A -> option B) : option B :=
  match o with Some a => f a | None => None end.

Notation "x <- c1 ;; c2" := (obind c1 (fun x => c2))
  (at level 61, c1 at next level, right associativity).

Record HealthScoreInput := mkHealthInput {
  monthlyIncome : Q;
  monthlyExpenses : Q;
  totalDebt : Q;
  totalAssets : Q;
  totalInvestments : Q;
  emergencyFundBalance : Q;   (* savings accounts *)
  creditUtilization : Q       (* percentage *)
}.

Record Component := mkComponent {
  score : Q;
  value : Q;
  label : string
}.

Record Components := mkComponents {
  c_savingsRate : Component;
  c_debtToIncome : Component;
  c_emergencyFund : Component;
  c_investmentRate : Component;
  c_creditUtilization : Component
}.

Record HealthScoreResult := mkHealthResult {
  overallScore : Z;
  grade : string;
  components : Components;
  recommendations : list string
}.

Definition push_if (c : bool) (s : string) (l : list string) : list string :=
  if c then l ++ [s] else l.

Open Scope string_scope.

Definition calculateHealthScore (input : HealthScoreInput) : option HealthScoreResult :=
  let monthlyIncome := monthlyIncome input in
  let monthlyExpenses := monthlyExpenses input in
  let totalDebt := totalDebt input in
  let totalInvestments := totalInvestments input in
  let emergencyFundBalance := emergencyFundBalance input in
  let creditUtilization := creditUtilization input in
  (* 1. Savings Rate (20 points) *)
  savingsRate <-
    (if JS.gtb monthlyIncome 0
     then q <- finite_div (monthlyIncome - monthlyExpenses) monthlyIncome ;;
          Some (q * 100)
     else Some 0) ;;
  let savingsScore := Qmin 20 (Qmax 0 savingsRate) in
  (* 2. Debt-to-Income (20 points) *)
  dti <-
    (if JS.gtb monthlyIncome 0
     then q <- finite_div totalDebt (monthlyIncome * 12) ;; Some (q * 100)
     else Some 100) ;;
  let dtiScore : Q :=
    if JS.leb dti 0 then 20 else if JS.leb dti 20 then 18
    else if JS.leb dti 36 then 14 else if JS.leb dti 50 then 8 else 2 in
  (* 3. Emergency Fund (20 points) *)
  emergencyMonths <-
    (if JS.gtb monthlyExpenses 0
     then finite_div emergencyFundBalance monthlyExpenses
     else Some 0) ;;
  let emergencyScore : Q :=
    if JS.geb emergencyMonths 6 then 20 else if JS.geb emergencyMonths 3 then 14
    else if JS.geb emergencyMonths 1 then 8 else 2 in
  (* 4. Investment Rate (20 points) *)
  investmentRate <-
    (if JS.gtb monthlyIncome 0
     then q <- finite_div totalInvestments (monthlyIncome * 12) ;; Some (q * 100)
     else Some 0) ;;
  let investmentScore : Q :=
    Qmin 20 (if JS.geb investmentRate 100 then 20
             else if JS.geb investmentRate 50 then 16
             else if JS.geb investmentRate 25 then 12
             else if JS.geb investmentRate 10 then 8 else 4) in
  (* 5. Credit Utilization (20 points) *)
  let utilizationScore : Q :=
    if JS.leb creditUtilization 10 then 20
    else if JS.leb creditUtilization 30 then 16
    else if JS.leb creditUtilization 50 then 10
    else if JS.leb creditUtilization 75 then 5 else 1 in
  let overallScore :=
    JS.round (savingsScore + dtiScore + emergencyScore + investmentScore
              + utilizationScore) in
  let grade :=
    if (overallScore >=? 90)%Z then "A" else if (overallScore >=? 80)%Z then "B"
    else if (overallScore >=? 65)%Z then "C"
    else if (overallScore >=? 50)%Z then "D" else "F" in
  let r0 : list string := [] in
  let r1 := push_if (JS.ltb savingsRate 20)
    ("Increase savings rate from " ++ Fmt.toFixed savingsRate 1
       ++ "% to at least 20% of income") r0 in
  let r2 := push_if (JS.gtb dti 36)
    ("Reduce debt-to-income ratio from " ++ Fmt.toFixed dti 1
       ++ "% — target under 36%") r1 in
  let r3 := push_if (JS.ltb emergencyMonths 3)
    ("Build emergency fund to at least 3 months of expenses ("
       ++ Fmt.string_of_Z (JS.round (monthlyExpenses * 3 - emergencyFundBalance))
       ++ " more needed)") r2 in
  let r4 := push_if (JS.ltb emergencyMonths 6 && JS.geb emergencyMonths 3)
    ("Grow emergency fund from " ++ Fmt.toFixed emergencyMonths 1
       ++ " to 6 months of expenses") r3 in
  let r5 := push_if (JS.gtb creditUtilization 30)
    ("Lower credit utilization from " ++ Fmt.toFixed creditUtilization 0
       ++ "% to under 30%") r4 in
  let r6 := push_if (Nat.eqb (List.length r5) 0)
    "Excellent financial health! Consider increasing investment contributions." r5 in
  Some (mkHealthResult overallScore grade
    (mkComponents
       (mkComponent (inject_Z (JS.round savingsScore)) savingsRate
          (Fmt.toFixed savingsRate 1 ++ "% savings rate"))
       (mkComponent dtiScore dti (Fmt.toFixed dti 1 ++ "% DTI ratio"))
       (mkComponent emergencyScore emergencyMonths
          (Fmt.toFixed emergencyMonths 1 ++ " months coverage"))
       (mkComponent investmentScore investmentRate
          (Fmt.toFixed investmentRate 1 ++ "% invested"))
       (mkComponent utilizationScore creditUtilization
          (Fmt.toFixed creditUtilization 0 ++ "% utilization")))
    r6).

Close Scope string_scope.

(** ** Cash-flow forecast (services/financialHealth.ts) *)

(** The local calendar date of a JavaScript [Date]. *)
Module Calendar.

Record Date := mkDate { year : Z; monthOfYear : Z; day : Z }.

Definition is_leap (y : Z) : bool :=
  ((y mod 4 =? 0) && negb (y mod 100 =? 0) || (y mod 400 =? 0))%Z.

Definition days_in_month (y m : Z) : Z :=
  if (m =? 2)%Z then (if is_leap y then 29 else 28)%Z
  else if ((m =? 4) || (m =? 6) || (m =? 9) || (m =? 11))%Z then 30%Z
  else 31%Z.

Definition next_day (d : Date) : Date :=
  if (day d <? days_in_month (year d) (monthOfYear d))%Z
  then mkDate (year d) (monthOfYear d) (day d + 1)
  else if (monthOfYear d <? 12)%Z
       then mkDate (year d) (monthOfYear d + 1) 1
       else mkDate (year d + 1) 1 1.

(** [date.setDate(date.getDate() + n)]: the date [n] days later. *)
Fixpoint add_days (n : nat) (d : Date) : Date :=
  match n with
  | O => d
  | S k => next_day (add_days k d)
  end.

(** [date.getDate()]. *)
Definition getDate (d : Date) : Z := day d.

End Calendar.

Record RecurringFlow := mkFlow {
  amount : Q;
  dayOfMonth : Q;
  description : string
}.

Record CashFlowForecast := mkForecast {
  date : string;
  projectedBalance : Q;
  income : Q;
  expenses : Q;
  f_label : option string   (* [undefined] when no flow matched *)
}.

Section Forecast.

(** [new Date()], as a local calendar date, and the text
    [toISOString().split('T')[0]] gives for a date of the forecast (the UTC
    date of that instant, which depends on the time of day and the zone). *)
Variable today : Calendar.Date.
Variable isoDate : Calendar.Date -> string.

(** [inc.dayOfMonth === dayOfMonth]. *)
Definition on_day (dom : Z) (f : RecurringFlow) : bool :=
  Qeq_bool (dayOfMonth f) (inject_Z dom).

(** The loop over [recurringIncome]: [dayIncome] and [labels]. *)
Definition income_pass (dom : Z) (flows : list RecurringFlow)
    (acc : Q * list string) : Q * list string :=
  fold_left (fun '(dayIncome, labels) inc =>
               if on_day dom inc
               then (dayIncome + amount inc,
                     labels ++ [("+" ++ description inc)%string])
               else (dayIncome, labels))
            flows acc.

(** The loop over [recurringExpenses]: [dayExpense] and [labels]. *)
Definition expense_pass (dom : Z) (flows : list RecurringFlow)
    (acc : Q * list string) : Q * list string :=
  fold_left (fun '(dayExpense, labels) exp =>
               if on_day dom exp
               then (dayExpense + Qabs (amount exp),
                     labels ++ [("-" ++ description exp)%string])
               else (dayExpense, labels))
            flows acc.

(** The body of the [for] loop for day offset [d]; returns the new running
    balance and the record pushed. *)
Definition forecast_day (recurringIncome recurringExpenses : list RecurringFlow)
    (d : nat) (balance : Q) : Q * CashFlowForecast :=
  let date := Calendar.add_days d today in
  let dayOfMonth := Calendar.getDate date in
  let '(dayIncome, labels) := income_pass dayOfMonth recurringIncome (0, []) in
  let '(dayExpense, labels) := expense_pass dayOfMonth recurringExpenses (0, labels) in
  let balance := balance + dayIncome - dayExpense in
  (balance,
   mkForecast (isoDate date) (JS.round_cents balance) dayIncome dayExpense
     (if (0 <? List.length labels)%nat then Some (JS.join ", " labels) else None)).

(** [for (let d = 0; d < days; d++)], with [n] iterations left. *)
Fixpoint forecast_loop (recurringIncome recurringExpenses : list RecurringFlow)
    (n d : nat) (balance : Q) (forecast : list CashFlowForecast)
  : list CashFlowForecast :=
  match n with
  | O => forecast
  | S n' =>
      let '(balance', rec) :=
        forecast_day recurringIncome recurringExpenses d balance in
      forecast_loop recurringIncome recurringExpenses n' (S d) balance'
        (forecast ++ [rec])
  end.

Definition forecastCashFlow (currentBalance : Q)
    (recurringIncome recurringExpenses : list RecurringFlow) (days : nat)
  : list CashFlowForecast :=
  forecast_loop recurringIncome recurringExpenses days 0 currentBalance [].

(** *** What the forecast should be, day by day *)

Definition dom_of (d : nat) : Z := Calendar.getDate (Calendar.add_days d today).

Definition matching (flows : list RecurringFlow) (d : nat) : list RecurringFlow :=
  filter (on_day (dom_of d)) flows.

Definition day_income (inc : list RecurringFlow) (d : nat) : Q :=
  sumQ (map amount (matching inc d)).

Definition day_expense (exp : list RecurringFlow) (d : nat) : Q :=
  sumQ (map (fun f => Qabs (amount f)) (matching exp d)).

(** The running balance before day [d]. *)
Fixpoint running (cur : Q) (inc exp : list RecurringFlow) (d : nat) : Q :=
  match d with
  | O => cur
  | S k => running cur inc exp k + day_income inc k - day_expense exp k
  end.

Definition day_labels (inc exp : list RecurringFlow) (d : nat) : list string :=
  map (fun f => ("+" ++ description f)%string) (matching inc d) ++
  map (fun f => ("-" ++ description f)%string) (matching exp d).

End Forecast.

(** ** Investment growth (routes/projections.ts, investment-growth handler) *)

Record GrowthProjectionEntry := mkGrowth {
  g_year : nat;
  g_balance : Q;
  contributions : Q;
  growth : Q
}.

(** [for (let m = 0; m < 12; m++)] of the deterministic projection, with [n]
    iterations left; the state is [(balance, totalContributions)]. *)
Fixpoint growth_months (n : nat) (monthlyRate monthlyAdd : Q) (st : Q * Q) : Q * Q :=
  match n with
  | O => st
  | S n' =>
      let '(balance, totalContributions) := st in
      growth_months n' monthlyRate monthlyAdd
        (balance * (1 + monthlyRate) + monthlyAdd, totalContributions + monthlyAdd)
  end.

(** [for (let year = 1; year <= years; year++)], with [n] iterations left. *)
Fixpoint growth_years (n : nat) (year : nat) (monthlyRate monthlyAdd : Q)
    (st : Q * Q) (projection : list GrowthProjectionEntry)
  : list GrowthProjectionEntry :=
  match n with
  | O => projection
  | S n' =>
      let '(balance, totalContributions) :=
        growth_months 12 monthlyRate monthlyAdd st in
      growth_years n' (S year) monthlyRate monthlyAdd (balance, totalContributions)
        (projection ++
           [mkGrowth year (JS.round_cents balance)
              (JS.round_cents totalContributions)
              (JS.round_cents (balance - totalContributions))])
  end.

Definition project (years : nat) (annualReturnPct monthlyAdd currentBalance : Q)
  : list GrowthProjectionEntry :=
  let rate := annualReturnPct / 100 in
  let monthlyRate := rate / 12 in
  growth_years years 1 monthlyRate monthlyAdd (currentBalance, currentBalance) [].

(** *** Monte Carlo bands *)

(** The handler does not round [years]: [for (let year = 1; year <= years;
    year++)] runs [year_iterations years] times and [for (let y = 0; y <
    years; y++)] runs [band_iterations years] times, one more when [years] is
    not an integer. *)
Definition year_iterations (years : Q) : nat := Z.to_nat (Qfloor years).
Definition band_iterations (years : Q) : nat := Z.to_nat (Qceiling years).

(** [Math.random()] is modelled by the sequence of its results; the state
    threaded through the simulation is the number of draws made so far. *)
Definition Random := nat -> Q.

(** A percentile is [undefined] ([None]) when it is read from a year the
    trials did not reach. *)
Record Band := mkBand { low : option Q; mid : option Q; high : option Q }.

Record MonteCarloYearEntry := mkMonteCarlo {
  mc_year : nat;
  conservative : Band;
  moderate : Band;
  aggressive : Band
}.

(** [values.sort((a, b) => a - b)] on an array that may hold [undefined]:
    [sort] leaves the comparator out of it and puts every [undefined] after
    the sorted numbers. *)
Definition defined (values : list (option Q)) : list Q :=
  flat_map (fun o => match o with Some v => [v] | None => [] end) values.

Definition undefineds (values : list (option Q)) : list (option Q) :=
  filter (fun o => match o with Some _ => false | None => true end) values.

Definition sort_values (values : list (option Q)) : list (option Q) :=
  map Some (JS.sort (fun a b => a - b) (defined values)) ++ undefineds values.

Section MonteCarlo.

Variable random : Random.
Variable years : Q.
Variable currentBalance monthlyAdd : Q.

(** The twelve months of one simulated year. *)
Fixpoint sim_months (n : nat) (avgReturn stdDev : Q) (bal : Q) (draws : nat)
  : Q * nat :=
  match n with
  | O => (bal, draws)
  | S n' =>
      let randomReturn := avgReturn + stdDev * (random draws * 2 - 1) in
      sim_months n' avgReturn stdDev (bal * (1 + randomReturn / 12) + monthlyAdd)
        (S draws)
  end.

(** [for (let year = 1; year <= years; year++)], with [n] iterations left. *)
Fixpoint sim_years (n : nat) (avgReturn stdDev : Q) (bal : Q)
    (results : list Q) (draws : nat) : list Q * nat :=
  match n with
  | O => (results, draws)
  | S n' =>
      let '(bal', draws') := sim_months 12 avgReturn stdDev bal draws in
      sim_years n' avgReturn stdDev bal' (results ++ [JS.round_cents bal']) draws'
  end.

Definition runSimulation (avgReturn stdDev : Q) (draws : nat) : list Q * nat :=
  sim_years (year_iterations years) avgReturn stdDev currentBalance [] draws.

Record Runs := mkRuns {
  conservativeRuns : list (list Q);
  moderateRuns : list (list Q);
  aggressiveRuns : list (list Q)
}.

(** [for (let i = 0; i < 50; i++)], with [n] iterations left. *)
Fixpoint collect_runs (n : nat) (rs : Runs) (draws : nat) : Runs * nat :=
  match n with
  | O => (rs, draws)
  | S n' =>
      let '(c, d1) := runSimulation 0.05 0.08 draws in
      let '(m, d2) := runSimulation 0.07 0.12 d1 in
      let '(a, d3) := runSimulation 0.10 0.18 d2 in
      collect_runs n'
        (mkRuns (conservativeRuns rs ++ [c]) (moderateRuns rs ++ [m])
           (aggressiveRuns rs ++ [a])) d3
  end.

(** [r[yearIdx]!] and [values[idx]!]: a read past the end is [undefined]. *)
Definition getPercentile (runs : list (list Q)) (yearIdx : nat) (pct : Q)
  : option Q :=
  let values := sort_values (map (fun r => nth_error r yearIdx) runs) in
  let idx := Z.to_nat (Qfloor (inject_Z (Z.of_nat (List.length values)) * pct)) in
  match nth_error values idx with
  | Some v => v
  | None => None
  end.

Definition band (runs : list (list Q)) (y : nat) : Band :=
  mkBand (getPercentile runs y 0.1) (getPercentile runs y 0.5)
    (getPercentile runs y 0.9).

(** [for (let y = 0; y < years; y++)], with [n] iterations left. *)
Fixpoint mc_years (n : nat) (y : nat) (rs : Runs)
    (monteCarlo : list MonteCarloYearEntry) : list MonteCarloYearEntry :=
  match n with
  | O => monteCarlo
  | S n' =>
      mc_years n' (S y) rs
        (monteCarlo ++
           [mkMonteCarlo (y + 1) (band (conservativeRuns rs) y)
              (band (moderateRuns rs) y) (band (aggressiveRuns rs) y)])
  end.

Definition monteCarlo : list MonteCarloYearEntry :=
  let '(rs, _) := collect_runs 50 (mkRuns [] [] []) 0 in
  mc_years (band_iterations years) 0 rs [].

End MonteCarlo.

(** ** Numbers that need not be finite

    Request fields reach the handlers through [Number(...)] and
    [parseInt(...)], which can yield [NaN] and the two infinities beside
    finite numbers. *)

Module Num.

Inductive t := NaN | PInf | NInf | Fin (q : Q).

(** Truthiness: [NaN] and zero are falsy. *)
Definition truthy (x : t) : bool :=
  match x with
  | NaN => false
  | Fin q => negb (Qeq_bool q 0)
  | _ => true
  end.

(** [x || d]. *)
Definition or_else (x d : t) : t := if truthy x then x else d.

(** [Math.max(a, b)] and [Math.min(a, b)]: [NaN] as soon as one argument
    is. *)
Definition max (a b : t) : t :=
  match a, b with
  | NaN, _ | _, NaN => NaN
  | PInf, _ | _, PInf => PInf
  | NInf, x | x, NInf => x
  | Fin x, Fin y => Fin (Qmax x y)
  end.

Definition min (a b : t) : t :=
  match a, b with
  | NaN, _ | _, NaN => NaN
  | NInf, _ | _, NInf => NInf
  | PInf, x | x, PInf => x
  | Fin x, Fin y => Fin (Qmin x y)
  end.

Definition isFinite (x : t) : bool :=
  match x with Fin _ => true | _ => false end.

Definition isNaN (x : t) : bool :=
  match x with NaN => true | _ => false end.

(** [a < b] and [a >= b]; every comparison with [NaN] is [false]. *)
Definition ltb (a b : t) : bool :=
  match a, b with
  | NaN, _ | _, NaN => false
  | _, NInf | PInf, _ => false
  | NInf, _ | _, PInf => true
  | Fin x, Fin y => JS.ltb x y
  end.

Definition geb (a b : t) : bool :=
  match a, b with
  | NaN, _ | _, NaN => false
  | PInf, _ | _, NInf => true
  | NInf, _ | _, PInf => false
  | Fin x, Fin y => JS.geb x y
  end.

(** [a + b]. *)
Definition add (a b : t) : t :=
  match a, b with
  | NaN, _ | _, NaN => NaN
  | PInf, NInf | NInf, PInf => NaN
  | PInf, _ | _, PInf => PInf
  | NInf, _ | _, NInf => NInf
  | Fin x, Fin y => Fin (x + y)
  end.

(** The rational a finite number stands for. *)
Definition to_Q (x : t) : option Q :=
  match x with Fin q => Some q | _ => None end.

End Num.

(** ** Request handling (routes/projections.ts) *)

Definition MAX_EXTRA_MONTHLY : Q := 100000.

(** [Math.min(Math.max(0, Number(extraMonthly) || 0), MAX_EXTRA_MONTHLY)];
    the argument is the value of [Number(extraMonthly)]. *)
Definition safeExtra (extraMonthly : Num.t) : Num.t :=
  Num.min (Num.max (Num.Fin 0) (Num.or_else extraMonthly (Num.Fin 0)))
    (Num.Fin MAX_EXTRA_MONTHLY).

(** An element of [customDebts] after the conversions the handler applies to
    its fields: [String(d.id || '')], [String(d.name || 'Unknown')],
    [Number(d.balance)], [Number(d.rate)] and [Number(d.minimum)]. *)
Record CustomDebt := mkCustom {
  cd_id : string;
  cd_name : string;
  cd_balance : Num.t;
  cd_rate : Num.t;
  cd_minimum : Num.t
}.

(** The sanitized debt; its amounts are still JavaScript numbers. *)
Record SanitizedDebt := mkSanitized {
  sd_id : string;
  sd_name : string;
  sd_balance : Num.t;
  sd_rate : Num.t;
  sd_minimum : Num.t
}.

(** The callback of [customDebts.map]. *)
Definition sanitize (d : CustomDebt) : SanitizedDebt :=
  mkSanitized
    (cd_id d)
    (String.substring 0 200 (cd_name d))
    (Num.max (Num.Fin 0) (Num.or_else (cd_balance d) (Num.Fin 0)))
    (Num.max (Num.Fin 0)
       (Num.min (Num.Fin 100) (Num.or_else (cd_rate d) (Num.Fin 0))))
    (Num.max (Num.Fin 0) (Num.or_else (cd_minimum d) (Num.Fin 0))).

(** The debt [calculatePayoff] is given, when its amounts are finite. *)
Definition to_DebtInput (d : SanitizedDebt) : option DebtInput :=
  match Num.to_Q (sd_balance d), Num.to_Q (sd_rate d), Num.to_Q (sd_minimum d) with
  | Some b, Some r, Some m => Some (mkDebt (sd_id d) (sd_name d) b r m)
  | _, _, _ => None
  end.

(** [schedule.filter((s, i) => i < 12 || i % 3 === 0 || i === schedule.length - 1)].
    (On the empty schedule the callback is never called, so the truncated
    subtraction is not observed.) *)
Definition condense {A : Type} (schedule : list A) : list A :=
  map snd
    (filter (fun '(i, _) =>
               (i <? 12)%nat || (i mod 3 =? 0)%nat ||
               (i =? List.length schedule - 1)%nat)
            (combine (seq 0 (List.length schedule)) schedule)).

(** *** Parameters of the investment-growth handler *)

(** [Math.min(Math.max(1, Number(rawYears) || 30), 50)]. *)
Definition years_param (rawYears : Num.t) : Num.t :=
  Num.min (Num.max (Num.Fin 1) (Num.or_else rawYears (Num.Fin 30))) (Num.Fin 50).

(** [annualReturnPct]; [None] is an [annualReturn] that is [undefined],
    [Some v] carries [Number(annualReturn)]. *)
Definition annualReturn_param (annualReturn : option Num.t) : Num.t :=
  let annualReturnPct :=
    match annualReturn with Some v => v | None => Num.Fin 7 end in
  let annualReturnPct :=
    if negb (Num.isFinite annualReturnPct) then Num.Fin 7 else annualReturnPct in
  Num.min (Num.max annualReturnPct (Num.Fin (-50))) (Num.Fin 100).

(** [x != null ? Math.min(Math.max(0, Number(x) || 0), cap) : undefined];
    [None] is a field that is [null] or [undefined]. *)
Definition capped_param (cap : Q) (x : option Num.t) : option Num.t :=
  match x with
  | Some v =>
      Some (Num.min (Num.max (Num.Fin 0) (Num.or_else v (Num.Fin 0))) (Num.Fin cap))
  | None => None
  end.

(** The two columns of a stored investment the handler reads. *)
Record Investment := mkInvestment {
  inv_currentValue : Num.t;
  inv_monthlyContribution : Num.t
}.

(** [Math.min(investments.reduce((s, i) => s + field(i), 0), cap)]. *)
Definition stored_total (field : Investment -> Num.t) (cap : Q)
    (investments : list Investment) : Num.t :=
  Num.min (fold_left (fun s i => Num.add s (field i)) investments (Num.Fin 0))
    (Num.Fin cap).

(** The [projection] of the handler.  A field the request does not carry
    ([None]) is taken from the stored investments.  The result is [None]
    when one of the numbers the loop would run on is not finite. *)
Definition investment_growth_projection (rawYears : Num.t)
    (annualReturn initialBalance monthlyContribution : option Num.t)
    (investments : list Investment)
  : option (list GrowthProjectionEntry) :=
  let years := years_param rawYears in
  let annualReturnPct := annualReturn_param annualReturn in
  let currentBalance :=
    match capped_param 1000000000 initialBalance with
    | Some v => v
    | None => stored_total inv_currentValue 1000000000 investments
    end in
  let monthlyAdd :=
    match capped_param 1000000 monthlyContribution with
    | Some v => v
    | None => stored_total inv_monthlyContribution 1000000 investments
    end in
  match Num.to_Q years, Num.to_Q annualReturnPct,
        Num.to_Q currentBalance, Num.to_Q monthlyAdd with
  | Some years, Some annualReturnPct, Some currentBalance, Some monthlyAdd =>
      Some (project (year_iterations years) annualReturnPct monthlyAdd
              currentBalance)
  | _, _, _, _ => None
  end.

(** ** Cash-flow forecast request (routes/dashboard.ts) *)

(** [Math.min(Math.max(1, parseInt(req.query.days) || 90), 365)]; the
    argument is the value of [parseInt(...)]. *)
Definition days_param (parsed : Num.t) : Num.t :=
  Num.min (Num.max (Num.Fin 1) (Num.or_else parsed (Num.Fin 90))) (Num.Fin 365).

(** The number of times [for (let d = 0; d < days; d++)] runs; it does not
    come to an end when [days] is [+Infinity]. *)
Definition day_iterations (days : Num.t) : option nat :=
  match days with
  | Num.NaN | Num.NInf => Some 0%nat
  | Num.PInf => None
  | Num.Fin q => Some (Z.to_nat (Qceiling q))
  end.

(** [forecast.some(f => f.projectedBalance < 500)]. *)
Definition lowBalanceAlert (forecast : list CashFlowForecast) : bool :=
  existsb (fun f => JS.ltb (projectedBalance f) 500) forecast.

(** [Math.min(...values)]: [+Infinity] when there are no values. *)
Definition math_min (values : list Q) : Num.t :=
  fold_left (fun m v => Num.min m (Num.Fin v)) values Num.PInf.

Definition minimumProjectedBalance (forecast : list CashFlowForecast) : Num.t :=
  math_min (map projectedBalance forecast).

Record ForecastResponse := mkForecastResponse {
  fr_forecast : list CashFlowForecast;
  fr_lowBalanceAlert : bool;
  fr_minimumProjectedBalance : Num.t
}.

(** The forecast part of the response, from the parsed [days] and the
    balance and recurring flows the handler has gathered. *)
Definition cash_flow_forecast (today : Calendar.Date)
    (isoDate : Calendar.Date -> string) (parsed : Num.t) (currentBalance : Q)
    (recurringIncome recurringExpenses : list RecurringFlow)
  : option ForecastResponse :=
  match day_iterations (days_param parsed) with
  | Some days =>
      let forecast :=
        forecastCashFlow today isoDate currentBalance recurringIncome
          recurringExpenses days in
      Some (mkForecastResponse forecast (lowBalanceAlert forecast)
              (minimumProjectedBalance forecast))
  | None => None
  end.

(** ** CSV import (providers/IFinancialProvider.ts)

    The text of a file is a sequence of UTF-16 code units.  ([for (const
    char of line)] walks code points, joining the two halves of a surrogate
    pair; as neither half is a quote or a comma and the pieces are appended
    again in order, walking code units gives the same fields.) *)

Module Str.

Definition t := list N.

Definition quote : N := 34.
Definition dollar : N := 36.
Definition comma : N := 44.
Definition newline : N := 10.

(** The white space and line terminators [String.prototype.trim] removes. *)
Definition is_space (c : N) : bool :=
  existsb (N.eqb c)
    [9; 10; 11; 12; 13; 32; 160; 5760; 8232; 8233; 8239; 8287; 12288; 65279]%N
  || ((8192 <=? c)%N && (c <=? 8202)%N).

Fixpoint trim_start (s : t) : t :=
  match s with
  | [] => []
  | c :: r => if is_space c then trim_start r else s
  end.

Definition trim_end (s : t) : t := rev (trim_start (rev s)).

Definition trim (s : t) : t := trim_end (trim_start s).

(** [s.split(sep)] for a separator of one code unit: the empty string
    splits into one empty piece. *)
Fixpoint split (sep : N) (s : t) : list t :=
  match s with
  | [] => [[]]
  | c :: r =>
      if (c =? sep)%N then [] :: split sep r
      else match split sep r with
           | piece :: pieces => (c :: piece) :: pieces
           | [] => [[c]]
           end
  end.

(** [a === b] on strings. *)
Fixpoint eqb (a b : t) : bool :=
  match a, b with
  | [], [] => true
  | x :: a', y :: b' => (x =? y)%N && eqb a' b'
  | _, _ => false
  end.

(** The code units of an ASCII literal. *)
Fixpoint of_string (s : string) : t :=
  match s with
  | EmptyString => []
  | String c r => N_of_ascii c :: of_string r
  end.

End Str.

(** The state of the loop over the characters of a line. *)
Record LineState := mkLine {
  ls_result : list Str.t;
  ls_current : Str.t;
  ls_inQuotes : bool
}.

(** The body of [for (const char of line)]. *)
Definition parse_char (st : LineState) (char : N) : LineState :=
  if (char =? Str.quote)%N then
    mkLine (ls_result st) (ls_current st) (negb (ls_inQuotes st))
  else if (char =? Str.comma)%N && negb (ls_inQuotes st) then
    mkLine (ls_result st ++ [Str.trim (ls_current st)]) [] (ls_inQuotes st)
  else
    mkLine (ls_result st) (ls_current st ++ [char]) (ls_inQuotes st).

(** The callback of [lines.map]. *)
Definition parse_line (line : Str.t) : list Str.t :=
  let st := fold_left parse_char line (mkLine [] [] false) in
  ls_result st ++ [Str.trim (ls_current st)].

Definition parseCSV (content : Str.t) : list (list Str.t) :=
  let lines := Str.split Str.newline (Str.trim content) in
  map parse_line lines.

Record CSVMapping := mkMapping {
  dateColumn : Str.t;
  descriptionColumn : Str.t;
  amountColumn : Str.t;
  categoryColumn : option Str.t;
  dateFormat : option Str.t
}.

Inductive TransactionType := ty_income | ty_expense | ty_transfer.

(** A cell read as [row[i]!] is [undefined] when the row is too short, so
    [date], [description] and [category] are optional at run time. *)
Record ProviderTransaction := mkTransaction {
  pt_date : option Str.t;
  pt_description : option Str.t;
  pt_amount : Num.t;
  pt_category : option Str.t;
  pt_type : TransactionType
}.

(** What the function can throw: its own error, and the [TypeError] of a
    method call on [undefined]. *)
Inductive Thrown := RequiredColumnsNotFound | TypeError.

(** [headers.indexOf(x)], counting from [i]. *)
Fixpoint indexOf_from (headers : list Str.t) (x : Str.t) (i : Z) : Z :=
  match headers with
  | [] => -1
  | h :: r => if Str.eqb h x then i else indexOf_from r x (i + 1)
  end.

Definition indexOf (headers : list Str.t) (x : Str.t) : Z :=
  indexOf_from headers x 0.

(** [row[i]]. *)
Definition at_index (row : list Str.t) (i : Z) : option Str.t :=
  if (i <? 0)%Z then None else nth_error row (Z.to_nat i).

(** Truthiness of a possibly missing string: [undefined] and the empty
    string are falsy. *)
Definition truthy_str (s : option Str.t) : bool :=
  match s with
  | Some (_ :: _) => true
  | _ => false
  end.

(** [cell.replace(/[$,]/g, '')]. *)
Definition strip_currency (cell : Str.t) : Str.t :=
  filter (fun c => negb ((c =? Str.dollar)%N || (c =? Str.comma)%N)) cell.

(** [rows.map(f)] for a callback that may throw. *)
Fixpoint map_throwing {A B : Type} (f : A -> Thrown + B) (rows : list A)
  : Thrown + list B :=
  match rows with
  | [] => inr []
  | row :: rest =>
      match f row with
      | inl e => inl e
      | inr t =>
          match map_throwing f rest with
          | inl e => inl e
          | inr ts => inr (t :: ts)
          end
      end
  end.

Section CSVImport.

(** [parseFloat], which the engine provides. *)
Variable parseFloat : Str.t -> Num.t.

(** The callback of [rows.map]. *)
Definition map_row (dateIdx descIdx amountIdx catIdx : Z) (row : list Str.t)
  : Thrown + ProviderTransaction :=
  match at_index row amountIdx with
  | None => inl TypeError
  | Some cell =>
      let amount := parseFloat (strip_currency cell) in
      inr (mkTransaction
             (at_index row dateIdx)
             (at_index row descIdx)
             amount
             (if (catIdx >=? 0)%Z then at_index row catIdx else None)
             (if Num.geb amount (Num.Fin 0) then ty_income else ty_expense))
  end.

Definition mapCSVToTransactions (rows : list (list Str.t))
    (headers : list Str.t) (mapping : CSVMapping)
  : Thrown + list ProviderTransaction :=
  let dateIdx := indexOf headers (dateColumn mapping) in
  let descIdx := indexOf headers (descriptionColumn mapping) in
  let amountIdx := indexOf headers (amountColumn mapping) in
  let catIdx :=
    match categoryColumn mapping with
    | Some col => if truthy_str (Some col) then indexOf headers col else (-1)%Z
    | None => (-1)%Z
    end in
  if (dateIdx =? -1)%Z || (descIdx =? -1)%Z || (amountIdx =? -1)%Z then
    inl RequiredColumnsNotFound
  else
    match map_throwing (map_row dateIdx descIdx amountIdx catIdx) rows with
    | inl e => inl e
    | inr ts =>
        inr (filter (fun t => negb (Num.isNaN (pt_amount t)) &&
                              truthy_str (pt_description t)) ts)
    end.

End CSVImport.

(** ** Recurring flows (routes/dashboard.ts, cash-flow-forecast handler) *)

(** What the handler reads of a recurring transaction: the decrypted
    description, the amount, [new Date(t.date).getDate()] and the type. *)
Record RecentTransaction := mkRecent {
  rt_description : string;
  rt_amount : Q;
  rt_day : Z;
  rt_type : string
}.

Record RecurringGroup := mkGroup {
  rg_amounts : list Q;
  rg_days : list Z;
  rg_type : string;
  rg_rawDesc : string
}.

(** [Map<string, ...>]: entries in insertion order.  The groups are objects
    held by the map, so a [push] on a group read with [get] is an update of
    the entry. *)
Module RecurringMap.

Definition t := list (string * RecurringGroup).

Fixpoint has (m : t) (k : string) : bool :=
  match m with
  | [] => false
  | (k', _) :: r => String.eqb k' k || has r k
  end.

Fixpoint set (m : t) (k : string) (g : RecurringGroup) : t :=
  match m with
  | [] => [(k, g)]
  | (k', g') :: r =>
      if String.eqb k' k then (k', g) :: r else (k', g') :: set r k g
  end.

Fixpoint update (m : t) (k : string) (f : RecurringGroup -> RecurringGroup) : t :=
  match m with
  | [] => []
  | (k', g) :: r =>
      if String.eqb k' k then (k', f g) :: r else (k', g) :: update r k f
  end.

End RecurringMap.

(** The body of [for (const t of recentTransactions)]. *)
Definition group_step (recurringMap : RecurringMap.t) (t : RecentTransaction)
  : RecurringMap.t :=
  let key := rt_description t in
  let recurringMap :=
    if negb (RecurringMap.has recurringMap key)
    then RecurringMap.set recurringMap key (mkGroup [] [] (rt_type t) key)
    else recurringMap in
  RecurringMap.update recurringMap key
    (fun entry =>
       mkGroup (rg_amounts entry ++ [rt_amount t]) (rg_days entry ++ [rt_day t])
         (rg_type entry) (rg_rawDesc entry)).

(** [for (const [, data] of recurringMap)]; the averages divide by the
    number of amounts and of days. *)
Fixpoint recurring_loop (groups : list RecurringGroup)
    (recurringIncome recurringExpenses : list RecurringFlow)
  : option (list RecurringFlow * list RecurringFlow) :=
  match groups with
  | [] => Some (recurringIncome, recurringExpenses)
  | data :: rest =>
      avgAmount <- finite_div (sumQ (rg_amounts data))
                     (inject_Z (Z.of_nat (List.length (rg_amounts data)))) ;;
      avg <- finite_div (inject_Z (fold_left Z.add (rg_days data) 0%Z))
               (inject_Z (Z.of_nat (List.length (rg_days data)))) ;;
      let avgDay := inject_Z (JS.round avg) in
      if String.eqb (rg_type data) "income" then
        recurring_loop rest
          (recurringIncome ++ [mkFlow avgAmount avgDay (rg_rawDesc data)])
          recurringExpenses
      else
        recurring_loop rest recurringIncome
          (recurringExpenses ++ [mkFlow avgAmount avgDay (rg_rawDesc data)])
  end.

Definition recurring_flows (recentTransactions : list RecentTransaction)
  : option (list RecurringFlow * list RecurringFlow) :=
  let recurringMap := fold_left group_step recentTransactions [] in
  recurring_loop (map snd recurringMap) [] [].
(** * Predicates and closed forms used in the statements *)

(** ** Payoff order bookkeeping *)

(** A month in which the working balance of debt [k] is at most 0.01 after
    payments. *)
Definition reached (pm : PayoffMonth) (k : string) : Prop :=
  exists e, In e (debts pm) /\ e_id e = k /\ e_balance e <= 0.01.

Definition entry_reached (es : list DebtEntry) (k : string) : Prop :=
  exists e, In e es /\ e_id e = k /\ e_balance e <= 0.01.

(** What the third loop guarantees about the payoff order, relative to the
    order [po0] it started the month with. *)
Record applied_ok (m : nat) (po0 : list PayoffOrderEntry) (acc : Applied) : Prop := {
  ok_nodup : NoDup (map p_id (ap_payoffOrder acc));
  ok_prefix : exists new, ap_payoffOrder acc = po0 ++ new /\
                Forall (fun p => payoffMonth p = m /\
                                 entry_reached (ap_entries acc) (p_id p)) new;
  ok_recorded : forall k, entry_reached (ap_entries acc) k ->
                In k (map p_id (ap_payoffOrder acc))
}.

(** The loop invariant behind the shape of [schedule] and [debtPayoffOrder]. *)
Record payoff_inv (st : LoopState) : Prop := {
  pi_months : map month (st_schedule st) = seq 1 (st_month st);
  pi_nodup : NoDup (map p_id (st_payoffOrder st));
  pi_sorted : StronglySorted le (map payoffMonth (st_payoffOrder st));
  pi_le : Forall (fun p => (payoffMonth p <= st_month st)%nat) (st_payoffOrder st);
  pi_first : forall p, In p (st_payoffOrder st) ->
      exists pm, In pm (st_schedule st) /\ month pm = payoffMonth p /\
        reached pm (p_id p) /\
        forall pm', In pm' (st_schedule st) ->
          (month pm' < payoffMonth p)%nat -> ~ reached pm' (p_id p);
  pi_recorded : forall pm k, In pm (st_schedule st) -> reached pm k ->
      In k (map p_id (st_payoffOrder st))
}.

(** ** The month's entries in closed form *)

(** The entry [find] returns, after [entry.payment += maxExtra]. *)
Definition with_extra (extraBudget : Q) (e : DebtEntry) : DebtEntry :=
  let maxExtra :=
    Qmin extraBudget (e_balance e + e_interest e - e_payment e + 0.01) in
  if JS.gtb maxExtra 0
  then mkEntry (e_id e) (e_name e) (e_balance e) (e_payment e + maxExtra)
         (e_interest e) (e_principal e + maxExtra)
  else e.

Definition give (extraBudget : Q) (e : DebtEntry) : DebtEntry :=
  if JS.leb extraBudget 0 then e else with_extra extraBudget e.

Definition extra_to_head (extraBudget : Q) (es : list DebtEntry) : list DebtEntry :=
  match es with
  | [] => []
  | e :: r => give extraBudget e :: r
  end.

(** ** The third loop in closed form *)

Definition settle_bal (e : DebtEntry) : Q :=
  Qmax 0 (e_balance e + e_interest e - e_payment e).

Definition settle (e : DebtEntry) : DebtEntry :=
  mkEntry (e_id e) (e_name e) (settle_bal e) (e_payment e) (e_interest e)
    (e_principal e).

Definition settle_balances (es : list DebtEntry) (b : Dict.t) : Dict.t :=
  fold_left (fun b e => Dict.set b (e_id e) (settle_bal e)) es b.

(** The entries of a month before the balances are updated. *)
Definition month_entries (sorted : list DebtInput) (extraMonthly : Q) (b : Dict.t)
  : list DebtEntry :=
  extra_to_head (extraMonthly + freedMinimums sorted b)
    (first_pass b (remaining_of sorted b)).

Ltac name_minmax f spec a b :=
  let x := fresh "m" in
  let H := fresh "Hm" in
  pose proof (spec a b) as H;
  set (x := f a b) in *; clearbody x;
  destruct H as [[? ?]|[? ?]].

(** Case analysis on every [Qmin] and [Qmax] of the goal and context. *)
Ltac split_minmax :=
  repeat match goal with
  | |- context [Qmin ?a ?b] => name_minmax Qmin Q.min_spec a b
  | |- context [Qmax ?a ?b] => name_minmax Qmax Q.max_spec a b
  | _ : context [Qmin ?a ?b] |- _ => name_minmax Qmin Q.min_spec a b
  | _ : context [Qmax ?a ?b] |- _ => name_minmax Qmax Q.max_spec a b
  end.

Definition conserves (e : DebtEntry) : Prop :=
  e_payment e == e_interest e + e_principal e.

(** An entry of a month, before the balances are updated, for a valid debt
    that still has a balance. *)
Record entry_pre (e : DebtEntry) : Prop := {
  pre_balance : 0.01 < e_balance e;
  pre_interest : 0 <= e_interest e;
  pre_payment : 0 <= e_payment e;
  pre_cap : e_payment e <= e_balance e + e_interest e + 0.01
}.

(** ** Non-negative amounts *)

Definition entry_nonneg (e : DebtEntry) : Prop :=
  0 <= e_balance e /\ 0 <= e_payment e /\ 0 <= e_interest e /\
  e_principal e == e_payment e - e_interest e.

Definition month_nonneg (pm : PayoffMonth) : Prop :=
  0 <= totalBalance pm /\ 0 <= totalPayment pm /\ 0 <= totalInterest pm /\
  Forall entry_nonneg (debts pm).

Definition values_nonneg (b : Dict.t) : Prop :=
  Forall (fun v => 0 <= v) (Dict.values b).

Record nonneg_inv (st : LoopState) : Prop := {
  nn_balances : values_nonneg (st_balances st);
  nn_paid : 0 <= st_totalPaid st;
  nn_interest : 0 <= st_totalInterestPaid st;
  nn_schedule : Forall month_nonneg (st_schedule st)
}.

(** ** Conservation of each month *)

Definition month_conserves (pm : PayoffMonth) : Prop :=
  totalPayment pm == totalInterest pm + sumQ (map e_principal (debts pm)).

(** What one month adds to the sum of the working balances. *)
Definition delta (es : list DebtEntry) : Q :=
  sumQ (map (fun e => settle_bal e - e_balance e) es).

Definition tight (e : DebtEntry) : Prop :=
  e_payment e <= e_balance e + e_interest e.

(** Month over month: each [totalBalance] is the previous one plus the
    month's interest minus the month's payments, up to the 0.01 the second
    pass may overpay. *)
Definition balance_moves (prev : Q) (pm : PayoffMonth) : Prop :=
  prev + totalInterest pm - totalPayment pm <= totalBalance pm /\
  totalBalance pm <= prev + totalInterest pm - totalPayment pm + 0.01.

Fixpoint balance_chain (prev : Q) (sched : list PayoffMonth) : Prop :=
  match sched with
  | [] => True
  | pm :: r => balance_moves prev pm /\ balance_chain (totalBalance pm) r
  end.

Definition last_total (start : Q) (sched : list PayoffMonth) : Q :=
  match rev sched with
  | [] => start
  | pm :: _ => totalBalance pm
  end.

Record chain_inv (start : Q) (st : LoopState) : Prop := {
  ch_chain : balance_chain start (st_schedule st);
  ch_last : last_total start (st_schedule st) == sumQ (Dict.values (st_balances st))
}.

Definition balance_never_grows (sched : list PayoffMonth) : Prop :=
  forall i pm pm', nth_error sched i = Some pm ->
    nth_error sched (S i) = Some pm' -> totalBalance pm' <= totalBalance pm.

(** The first month, as C2 states it: no slack above the sum of the input
    balances plus the month's interest minus its payments. *)
Definition first_month_within (ds : list DebtInput) (sched : list PayoffMonth) : Prop :=
  forall pm, nth_error sched 0 = Some pm ->
    totalBalance pm <= sumQ (map balance ds) + totalInterest pm - totalPayment pm.

Definition principal_never_negative (sched : list PayoffMonth) : Prop :=
  forall pm e, In pm sched -> In e (debts pm) -> 0 <= e_principal e.

(** ** A larger extra payment never hurts

    Two runs over the same sorted list, the second with the larger extra
    payment, are compared month by month. *)

Definition bal_rel (o1 o2 : option Q) : Prop :=
  match o1, o2 with
  | Some v1, Some v2 => v2 <= v1 \/ v2 <= 0.01
  | None, None => True
  | _, _ => False
  end.

(** Every working balance of the second run is at most that of the first,
    or already paid off. *)
Definition dominated (b1 b2 : Dict.t) : Prop :=
  forall k, bal_rel (Dict.get b1 k) (Dict.get b2 k).

Definition entry_for (first : bool) (E : Q) (b : Dict.t) (d : DebtInput) : DebtEntry :=
  if first then give E (first_pass_entry b d) else first_pass_entry b d.

(** The entries of a month, built in one pass over [sorted]; [first] tells
    whether the debt that receives the extra budget is still to come. *)
Fixpoint entries_from (first : bool) (E : Q) (b : Dict.t) (l : list DebtInput)
  : list DebtEntry :=
  match l with
  | [] => []
  | d :: r =>
      if unpaid b d
      then entry_for first E b d :: entries_from false E b r
      else entries_from first E b r
  end.

(** The two runs side by side: balances dominated, and the second run is
    not ahead in months or in interest paid. *)
Record lockstep (s1 s2 : LoopState) : Prop := {
  ls_balances : dominated (st_balances s1) (st_balances s2);
  ls_month : st_month s2 = st_month s1;
  ls_interest : st_totalInterestPaid s2 <= st_totalInterestPaid s1
}.

(** ** The two strategies at zero extra payment *)

Definition same_lookup (b1 b2 : Dict.t) : Prop :=
  forall k, Dict.get b1 k = Dict.get b2 k.

(** ** The forecast, day by day *)

Definition label_of (labels : list string) : option string :=
  match labels with
  | [] => None
  | _ :: _ => Some (JS.join ", " labels)
  end.

(** The record of day [d] in terms of the flows that match that day. *)
Definition day_record (today : Calendar.Date) (isoDate : Calendar.Date -> string)
    (cur : Q) (inc exp : list RecurringFlow) (d : nat) : CashFlowForecast :=
  mkForecast (isoDate (Calendar.add_days d today))
    (JS.round_cents (running today cur inc exp d + day_income today inc d
                     - day_expense today exp d))
    (day_income today inc d) (day_expense today exp d)
    (label_of (day_labels today inc exp d)).

(** ** Compound growth *)

(** [n] applications of [balance = balance * (1 + monthlyRate) + contribution]. *)
Definition compound (n : nat) (monthlyRate monthlyAdd initial : Q) : Q :=
  Nat.iter n (fun balance => balance * (1 + monthlyRate) + monthlyAdd) initial.

Definition year_entry (year : nat) (st : Q * Q) : GrowthProjectionEntry :=
  mkGrowth year (JS.round_cents (fst st)) (JS.round_cents (snd st))
    (JS.round_cents (fst st - snd st)).

(** ** Percentile bands *)

(** The three percentiles are numbers and in order. *)
Definition ordered (b : Band) : Prop :=
  match low b, mid b, high b with
  | Some l, Some m, Some h => l <= m /\ m <= h
  | _, _, _ => False
  end.

(** The band read from a year no trial reached. *)
Definition undefined_band : Band := mkBand None None None.

Definition entry_ordered (e : MonteCarloYearEntry) : Prop :=
  ordered (conservative e) /\ ordered (moderate e) /\ ordered (aggressive e).

(** ** Further predicates on payoff results *)

(** The order a strategy asks for. *)
Definition strategy_le (s : Strategy) (a b : DebtInput) : Prop :=
  match s with
  | avalanche => rate b <= rate a
  | snowball => balance a <= balance b
  end.

(** No entry after the first of a month is paid more than the minimum of
    the debt it belongs to. *)
Definition tail_at_minimum (ds : list DebtInput) (pm : PayoffMonth) : Prop :=
  Forall (fun e => exists d, In d ds /\ id d = e_id e /\ name d = e_name e /\
                             e_payment e <= minimum d)
         (tl (debts pm)).

(** Relative to the balances [b0] the run started with: a key is untouched,
    or it holds a number that, once at most 0.01, is in the payoff order. *)
Definition payoffs_recorded (b0 b : Dict.t) (po : list PayoffOrderEntry) : Prop :=
  forall k,
    Dict.get b k = Dict.get b0 k \/
    exists v, Dict.get b k = Some v /\ (v <= 0.01 -> In k (map p_id po)).

(** ** Health score *)

Definition excellent_message : string :=
  "Excellent financial health! Consider increasing investment contributions.".

(** ** Calendar dates *)

Definition valid_date (d : Calendar.Date) : Prop :=
  (1 <= Calendar.monthOfYear d <= 12 /\
   1 <= Calendar.day d <= Calendar.days_in_month (Calendar.year d) (Calendar.monthOfYear d))%Z.

(** A [dayOfMonth] that some day of some month has: an integer from 1 to
    31. *)
Definition calendar_day (f : RecurringFlow) : bool :=
  existsb (fun k => Qeq_bool (dayOfMonth f) (inject_Z (Z.of_nat k))) (seq 1 31).

(** ** Monte Carlo without spread *)

(** A band whose three percentiles coincide. *)
Definition flat_band (v : Q) : Band := mkBand (Some v) (Some v) (Some v).

(** One month of a trial when every draw is [h]. *)
Definition sim_step (h add avg std : Q) (bal : Q) : Q :=
  bal * (1 + (avg + std * (h * 2 - 1)) / 12) + add.


(** ** Condensed schedules *)

(** The test of the filter callback at index [i] of a schedule of [n]
    months. *)
Definition keep_at (n i : nat) : bool :=
  (i <? 12)%nat || (i mod 3 =? 0)%nat || (i =? n - 1)%nat.

(** The elements of [l], numbered from [s], whose index passes [keep]. *)
Definition filter_from {A : Type} (keep : nat -> bool) (s : nat) (l : list A)
  : list A :=
  map snd (filter (fun '(i, _) => keep i) (combine (seq s (List.length l)) l)).

(** The month numbers a condensed schedule of [n] months shows. *)
Definition shown_month (n m : nat) : bool :=
  (m <=? 12)%nat || (m mod 3 =? 1)%nat || (m =? n)%nat.

(** ** Writing CSV

    The writer [parseCSV] is the inverse of: a field that holds a comma is
    put between quotes, the fields of a row are joined by commas and the
    rows by line feeds. *)

Definition write_field (f : Str.t) : Str.t :=
  if existsb (N.eqb Str.comma) f then Str.quote :: f ++ [Str.quote] else f.

Fixpoint join_with (sep : N) (pieces : list Str.t) : Str.t :=
  match pieces with
  | [] => []
  | [p] => p
  | p :: rest => p ++ sep :: join_with sep rest
  end.

Definition write_row (row : list Str.t) : Str.t :=
  join_with Str.comma (map write_field row).

Definition write_csv (rows : list (list Str.t)) : Str.t :=
  join_with Str.newline (map write_row rows).

(** A field the writer can carry: trimmed, with no quote and no line feed. *)
Definition plain_field (f : Str.t) : Prop :=
  Str.trim f = f /\ ~ In Str.quote f /\ ~ In Str.newline f.

(** A row with at least one field that is not a blank line. *)
Definition plain_row (row : list Str.t) : Prop :=
  row <> [] /\ row <> [[]] /\ Forall plain_field row.

(** A string that does not begin with white space, and one that does not
    end with it. *)
Definition starts_ok (s : Str.t) : bool :=
  match s with
  | [] => true
  | c :: _ => negb (Str.is_space c)
  end.

Definition ends_ok (s : Str.t) : bool := starts_ok (rev s).

(** The fields pushed so far are trimmed and, like [current], hold only
    characters that satisfy [P]. *)
Definition line_good (P : N -> Prop) (st : LineState) : Prop :=
  (forall c, In c (ls_current st) -> P c) /\
  Forall (fun f => Str.trim f = f /\ forall c, In c f -> P c) (ls_result st).

(** ** Recurring groups *)

(** A group as the grouping loop leaves it: filed under its own
    description, with one day per amount, at least one of each, and all its
    days satisfying [P]. *)
Definition group_ok (P : Z -> Prop) (e : string * RecurringGroup) : Prop :=
  rg_rawDesc (snd e) = fst e /\
  rg_days (snd e) <> [] /\
  List.length (rg_amounts (snd e)) = List.length (rg_days (snd e)) /\
  Forall P (rg_days (snd e)).

(** ** Stored amounts *)

(** A stored number that is finite and not negative. *)
Definition stored_ok (x : Num.t) : Prop := exists v, x = Num.Fin v /\ 0 <= v.

Definition entry_not_negative (e : GrowthProjectionEntry) : Prop :=
  0 <= g_balance e /\ 0 <= contributions e.

(** * Proofs *)

(** ** Dictionary laws *)

Lemma dict_get_proto (b : Dict.t) : Dict.get b Dict.proto = None.
Proof. reflexivity. Qed.

Lemma dict_set_proto (b : Dict.t) (v : Q) : Dict.set b Dict.proto v = b.
Proof. reflexivity. Qed.

Lemma dict_get_lookup (b : Dict.t) (k : string) :
  k <> Dict.proto -> Dict.get b k = Dict.lookup b k.
Proof.
  intros Hk. unfold Dict.get. now destruct (String.eqb_spec k Dict.proto).
Qed.

Lemma dict_set_store (b : Dict.t) (k : string) (v : Q) :
  k <> Dict.proto -> Dict.set b k v = Dict.store b k v.
Proof.
  intros Hk. unfold Dict.set. now destruct (String.eqb_spec k Dict.proto).
Qed.

(** A key that reads as a number is not the key that is never stored. *)
Lemma dict_get_some (b : Dict.t) (k : string) (v : Q) :
  Dict.get b k = Some v -> k <> Dict.proto.
Proof. intros H ->. discriminate. Qed.

Lemma lookup_store_eq (b : Dict.t) (k : string) (v : Q) :
  Dict.lookup (Dict.store b k v) k = Some v.
Proof.
  induction b as [|[k' v'] r IH]; simpl.
  - now rewrite String.eqb_refl.
  - destruct (String.eqb k' k) eqn:E; simpl; rewrite E; auto.
Qed.

Lemma lookup_store_ne (b : Dict.t) (k k' : string) (v : Q) :
  k <> k' -> Dict.lookup (Dict.store b k v) k' = Dict.lookup b k'.
Proof.
  intros Hne. induction b as [|[k0 v0] r IH]; simpl.
  - destruct (String.eqb_spec k k'); congruence.
  - destruct (String.eqb_spec k0 k) as [->|Hk]; simpl.
    + destruct (String.eqb_spec k k'); congruence.
    + now rewrite IH.
Qed.

Lemma dict_get_set_eq (b : Dict.t) (k : string) (v : Q) :
  k <> Dict.proto -> Dict.get (Dict.set b k v) k = Some v.
Proof.
  intros Hk. rewrite dict_get_lookup, dict_set_store by exact Hk.
  apply lookup_store_eq.
Qed.

Lemma dict_get_set_ne (b : Dict.t) (k k' : string) (v : Q) :
  k <> k' -> Dict.get (Dict.set b k v) k' = Dict.get b k'.
Proof.
  intros Hne. unfold Dict.get, Dict.set.
  destruct (String.eqb k' Dict.proto); [reflexivity|].
  destruct (String.eqb k Dict.proto); [reflexivity|].
  now apply lookup_store_ne.
Qed.

Lemma dict_get_set (b : Dict.t) (k k' : string) (v : Q) :
  k <> Dict.proto ->
  Dict.get (Dict.set b k v) k' = if String.eqb k k' then Some v else Dict.get b k'.
Proof.
  intros Hk. destruct (String.eqb_spec k k') as [<-|Hne].
  - now apply dict_get_set_eq.
  - now apply dict_get_set_ne.
Qed.

(** The same law for any key: an assignment to the key that is never
    stored changes nothing. *)
Lemma dict_get_set_any (b : Dict.t) (k k' : string) (v : Q) :
  Dict.get (Dict.set b k v) k' =
  if String.eqb k k' && negb (String.eqb k Dict.proto) then Some v
  else Dict.get b k'.
Proof.
  destruct (String.eqb_spec k Dict.proto) as [->|Hk].
  - rewrite dict_set_proto, andb_false_r. reflexivity.
  - rewrite andb_true_r. now apply dict_get_set.
Qed.

(** ** Shape of the loop *)

Lemma loop_S (n : nat) sorted extra st :
  loop (S n) sorted extra st =
  if (st_month st <? maxMonths)%nat
  then
    match remaining_of sorted (st_balances st) with
    | [] => st
    | _ :: _ => loop n sorted extra (step sorted extra st)
    end
  else st.
Proof. reflexivity. Qed.

Lemma step_month sorted extra st :
  st_month (step sorted extra st) = S (st_month st).
Proof. reflexivity. Qed.

Lemma loop_month_bound (n : nat) sorted extra st :
  (st_month (loop n sorted extra st) <= st_month st + n)%nat.
Proof.
  revert st. induction n as [|n IH]; intros st.
  - simpl. lia.
  - rewrite loop_S.
    destruct (st_month st <? maxMonths)%nat; [|lia].
    destruct (remaining_of sorted (st_balances st)).
    + lia.
    + specialize (IH (step sorted extra st)). rewrite step_month in IH. lia.
Qed.

Lemma loop_month_ge (n : nat) sorted extra st :
  (st_month st <= st_month (loop n sorted extra st))%nat.
Proof.
  revert st. induction n as [|n IH]; intros st.
  - simpl. lia.
  - rewrite loop_S.
    destruct (st_month st <? maxMonths)%nat; [|lia].
    destruct (remaining_of sorted (st_balances st)).
    + lia.
    + specialize (IH (step sorted extra st)). rewrite step_month in IH. lia.
Qed.

(** A property that holds initially and is kept by every iteration holds
    when the loop exits. *)
Lemma loop_invariant (P : LoopState -> Prop) sorted extra :
  (forall st, P st -> remaining_of sorted (st_balances st) <> [] ->
              P (step sorted extra st)) ->
  forall n st, P st -> P (loop n sorted extra st).
Proof.
  intros Hstep n. induction n as [|n IH]; intros st HP.
  - exact HP.
  - rewrite loop_S.
    destruct (st_month st <? maxMonths)%nat; [|exact HP].
    destruct (remaining_of sorted (st_balances st)) eqn:E.
    + exact HP.
    + apply IH, Hstep; [exact HP | rewrite E; discriminate].
Qed.

(** The loop only appends to the schedule. *)
Lemma loop_schedule_prefix (n : nat) sorted extra st :
  exists rest, st_schedule (loop n sorted extra st) = st_schedule st ++ rest.
Proof.
  revert st. induction n as [|n IH]; intros st.
  - exists []. simpl. now rewrite app_nil_r.
  - rewrite loop_S.
    destruct (st_month st <? maxMonths)%nat;
      [|exists []; now rewrite app_nil_r].
    destruct (remaining_of sorted (st_balances st)).
    + exists []. now rewrite app_nil_r.
    + destruct (IH (step sorted extra st)) as [rest Hr].
      rewrite Hr. simpl. rewrite <- app_assoc. eauto.
Qed.

(** The loop test keeps [month] within the cap. *)
Lemma loop_month_cap (n : nat) sorted extra st :
  (st_month st <= maxMonths)%nat ->
  (st_month (loop n sorted extra st) <= maxMonths)%nat.
Proof.
  revert st. induction n as [|n IH]; intros st Hle.
  - exact Hle.
  - rewrite loop_S.
    destruct (Nat.ltb_spec (st_month st) maxMonths) as [Hlt|_]; [|exact Hle].
    destruct (remaining_of sorted (st_balances st)); [exact Hle|].
    apply IH. rewrite step_month. lia.
Qed.

(** With enough fuel the recursion stops where the [while] loop does: the
    loop test fails or no debt remains. *)
Lemma loop_exit (n : nat) sorted extra st :
  (maxMonths <= st_month st + n)%nat ->
  (st_month (loop n sorted extra st) <? maxMonths)%nat = false \/
  remaining_of sorted (st_balances (loop n sorted extra st)) = [].
Proof.
  revert st. induction n as [|n IH]; intros st Hfuel.
  - left. simpl. apply Nat.ltb_ge. lia.
  - rewrite loop_S.
    destruct (st_month st <? maxMonths)%nat eqn:Hg; [|now left].
    destruct (remaining_of sorted (st_balances st)) eqn:Hr; [now right|].
    apply IH. rewrite step_month. lia.
Qed.

(** *** Invariants of [apply_payments] *)

Lemma apply_payments_app m es1 es2 acc :
  apply_payments m (es1 ++ es2) acc = apply_payments m es2 (apply_payments m es1 acc).
Proof.
  revert acc. induction es1 as [|e r IH]; intros acc; simpl; auto.
Qed.

Lemma apply_payments_invariant (P : Applied -> Prop) m :
  (forall acc e, P acc -> P (apply_payments m [e] acc)) ->
  forall es acc, P acc -> P (apply_payments m es acc).
Proof.
  intros Hone es. induction es as [|e r IH]; intros acc HP.
  - exact HP.
  - change (e :: r) with ([e] ++ r). rewrite apply_payments_app.
    apply IH, Hone, HP.
Qed.

(** ** The second pass reaches the head of [monthDebts] *)

Lemma gtb_negb_leb a b : JS.gtb a b = negb (JS.leb a b).
Proof. reflexivity. Qed.

Lemma gtb_true a b : JS.gtb a b = true <-> b < a.
Proof.
  unfold JS.gtb. rewrite negb_true_iff. split; intros H.
  - apply Qnot_le_lt. intros Hle. apply Qle_bool_iff in Hle. congruence.
  - destruct (Qle_bool a b) eqn:E; auto. apply Qle_bool_iff in E. lra.
Qed.

Lemma gtb_false a b : JS.gtb a b = false <-> a <= b.
Proof.
  unfold JS.gtb. rewrite negb_false_iff. apply Qle_bool_iff.
Qed.

Lemma leb_true a b : JS.leb a b = true <-> a <= b.
Proof. apply Qle_bool_iff. Qed.

Lemma leb_false a b : JS.leb a b = false <-> b < a.
Proof.
  rewrite <- gtb_true, gtb_negb_leb, negb_true_iff. tauto.
Qed.

Lemma unpaid_some b d :
  unpaid b d = true -> exists v, Dict.get b (id d) = Some v /\ 0.01 < v.
Proof.
  unfold unpaid. destruct (Dict.get b (id d)) as [v|]; simpl; [|discriminate].
  intros H. exists v. split; auto. now apply gtb_true.
Qed.

Lemma unpaid_not_paid b d : unpaid b d = true -> paid b d = false.
Proof.
  unfold unpaid, paid. destruct (Dict.get b (id d)); simpl; auto.
  rewrite gtb_negb_leb, negb_true_iff. auto.
Qed.

Lemma second_pass_no_budget sorted b extraBudget es :
  JS.leb extraBudget 0 = true -> second_pass sorted b extraBudget es = es.
Proof.
  intros HE. induction sorted as [|d rest IH]; simpl; auto.
  rewrite HE, orb_true_r. exact IH.
Qed.

Lemma find_entry_none k es (b : Dict.t) :
  Forall (fun e => JS.gt_num (Dict.get b (e_id e)) 0.01 = true) es ->
  JS.gt_num (Dict.get b k) 0.01 = false ->
  find_entry k es = None.
Proof.
  intros Hall Hk. induction Hall as [|e r He _ IH]; simpl; auto.
  destruct (String.eqb_spec (e_id e) k) as [<-|_]; [congruence|exact IH].
Qed.

Lemma first_pass_unpaid b l :
  Forall (fun e => JS.gt_num (Dict.get b (e_id e)) 0.01 = true)
         (first_pass b (remaining_of l b)).
Proof.
  unfold first_pass, remaining_of. rewrite Forall_map, Forall_forall.
  intros d Hin. apply filter_In in Hin. simpl. apply Hin.
Qed.

(** The second pass changes the head of [monthDebts] and nothing else: the
    first debt of [sorted] with a balance is the first one of [remaining]. *)
Lemma second_pass_head sorted b extraBudget :
  second_pass sorted b extraBudget (first_pass b (remaining_of sorted b)) =
  extra_to_head extraBudget (first_pass b (remaining_of sorted b)).
Proof.
  destruct (JS.leb extraBudget 0) eqn:HE.
  { rewrite second_pass_no_budget by exact HE.
    destruct (first_pass b (remaining_of sorted b)); simpl; auto.
    unfold give. now rewrite HE. }
  induction sorted as [|d rest IH]; [reflexivity|].
  unfold remaining_of in *. simpl filter. simpl second_pass.
  rewrite HE, orb_false_r.
  change (JS.le_num (Dict.get b (id d)) 0.01) with (paid b d).
  destruct (unpaid b d) eqn:Hu.
  - rewrite (unpaid_not_paid _ _ Hu).
    simpl first_pass. unfold find_entry. simpl find.
    rewrite String.eqb_refl. simpl add_extra. rewrite String.eqb_refl.
    unfold extra_to_head, give, with_extra. rewrite HE.
    destruct (JS.gtb _ 0); reflexivity.
  - destruct (paid b d); [exact IH|].
    rewrite find_entry_none with (b := b).
    + exact IH.
    + apply (first_pass_unpaid b rest).
    + exact Hu.
Qed.

(** ** The ids of a month's entries *)

Lemma give_id E e : e_id (give E e) = e_id e.
Proof.
  unfold give, with_extra. destruct (JS.leb E 0); auto.
  destruct (JS.gtb _ 0); reflexivity.
Qed.

Lemma give_balance E e : e_balance (give E e) = e_balance e.
Proof.
  unfold give, with_extra. destruct (JS.leb E 0); auto.
  destruct (JS.gtb _ 0); reflexivity.
Qed.

Lemma give_interest E e : e_interest (give E e) = e_interest e.
Proof.
  unfold give, with_extra. destruct (JS.leb E 0); auto.
  destruct (JS.gtb _ 0); reflexivity.
Qed.

Lemma month_entries_ids sorted extra b :
  map e_id (month_entries sorted extra b) = map id (remaining_of sorted b).
Proof.
  unfold month_entries, first_pass.
  destruct (remaining_of sorted b) as [|d r]; simpl; auto.
  rewrite give_id, map_map. reflexivity.
Qed.

Lemma unpaid_not_proto b d : unpaid b d = true -> id d <> Dict.proto.
Proof.
  intros Hu. destruct (unpaid_some _ _ Hu) as [v [Hget _]].
  now apply dict_get_some in Hget.
Qed.

(** Every entry of a month belongs to a debt the balances object holds. *)
Lemma month_entries_not_proto sorted extra b :
  Forall (fun e => e_id e <> Dict.proto) (month_entries sorted extra b).
Proof.
  apply Forall_forall. intros e Hin. apply (in_map e_id) in Hin.
  rewrite month_entries_ids in Hin. apply in_map_iff in Hin.
  destruct Hin as (d & <- & Hd). apply filter_In in Hd.
  now apply unpaid_not_proto with (b := b).
Qed.

(** ** Sums *)

Lemma fold_left_Qplus (l : list Q) (a : Q) :
  fold_left Qplus l a == a + sumQ l.
Proof.
  unfold sumQ. revert a. induction l as [|x l IH]; intros a; simpl.
  - ring.
  - rewrite (IH (a + x)), (IH (0 + x)). ring.
Qed.

Lemma sumQ_nil : sumQ [] == 0.
Proof. reflexivity. Qed.

Lemma sumQ_cons (x : Q) (l : list Q) : sumQ (x :: l) == x + sumQ l.
Proof.
  unfold sumQ at 1. simpl. rewrite fold_left_Qplus. ring.
Qed.

Lemma sumQ_app (l1 l2 : list Q) : sumQ (l1 ++ l2) == sumQ l1 + sumQ l2.
Proof.
  induction l1 as [|x l IH]; simpl.
  - rewrite sumQ_nil. ring.
  - rewrite !sumQ_cons, IH. ring.
Qed.

Lemma sumQ_nonneg (l : list Q) : Forall (fun x => 0 <= x) l -> 0 <= sumQ l.
Proof.
  induction 1 as [|x l Hx _ IH].
  - rewrite sumQ_nil. lra.
  - rewrite sumQ_cons. lra.
Qed.

Lemma sumQ_perm (l1 l2 : list Q) : Permutation l1 l2 -> sumQ l1 == sumQ l2.
Proof.
  induction 1.
  - reflexivity.
  - rewrite !sumQ_cons. lra.
  - rewrite !sumQ_cons. lra.
  - lra.
Qed.

Lemma fold_left_minimum (l : list DebtInput) (a : Q) :
  fold_left (fun s d => s + minimum d) l a == a + sumQ (map minimum l).
Proof.
  revert a. induction l as [|d l IH]; intros a; simpl.
  - rewrite sumQ_nil. ring.
  - rewrite IH, sumQ_cons. ring.
Qed.

Lemma freedMinimums_sum sorted b :
  freedMinimums sorted b == sumQ (map minimum (filter (paid b) sorted)).
Proof.
  unfold freedMinimums. rewrite fold_left_minimum. ring.
Qed.

(** ** The third loop in closed form *)

Lemma apply_payments_entries m es acc :
  Forall (fun e => e_id e <> Dict.proto) es ->
  ap_entries (apply_payments m es acc) = ap_entries acc ++ map settle es.
Proof.
  intros Hall. revert acc. induction Hall as [|e r He _ IH]; intros acc; simpl.
  - now rewrite app_nil_r.
  - rewrite IH. simpl. unfold bal_of. rewrite dict_get_set_eq by exact He.
    now rewrite <- app_assoc.
Qed.

Lemma apply_payments_balances m es acc :
  ap_balances (apply_payments m es acc) = settle_balances es (ap_balances acc).
Proof.
  revert acc. induction es as [|e r IH]; intros acc; simpl; auto.
Qed.

Lemma apply_payments_payment m es acc :
  ap_payment (apply_payments m es acc) =
  fold_left Qplus (map e_payment es) (ap_payment acc).
Proof.
  revert acc. induction es as [|e r IH]; intros acc; simpl; auto.
Qed.

Lemma apply_payments_interest m es acc :
  ap_interest (apply_payments m es acc) =
  fold_left Qplus (map e_interest es) (ap_interest acc).
Proof.
  revert acc. induction es as [|e r IH]; intros acc; simpl; auto.
Qed.

Lemma step_balances sorted extra st :
  st_balances (step sorted extra st) =
  settle_balances (month_entries sorted extra (st_balances st)) (st_balances st).
Proof.
  unfold step. simpl. rewrite apply_payments_balances, second_pass_head. reflexivity.
Qed.

Lemma step_schedule sorted extra st :
  st_schedule (step sorted extra st) =
  st_schedule st ++
  [mkMonth (S (st_month st))
     (map settle (month_entries sorted extra (st_balances st)))
     (sumQ (Dict.values (st_balances (step sorted extra st))))
     (sumQ (map e_payment (month_entries sorted extra (st_balances st))))
     (sumQ (map e_interest (month_entries sorted extra (st_balances st))))].
Proof.
  unfold step. simpl. rewrite second_pass_head.
  fold (month_entries sorted extra (st_balances st)).
  rewrite apply_payments_entries by apply month_entries_not_proto.
  rewrite apply_payments_payment, apply_payments_interest,
    apply_payments_balances.
  reflexivity.
Qed.

Lemma step_totalInterest sorted extra st :
  st_totalInterestPaid (step sorted extra st) =
  st_totalInterestPaid st +
  sumQ (map e_interest (month_entries sorted extra (st_balances st))).
Proof.
  unfold step. simpl. rewrite apply_payments_interest, second_pass_head.
  reflexivity.
Qed.

Lemma step_totalPaid sorted extra st :
  st_totalPaid (step sorted extra st) =
  st_totalPaid st +
  sumQ (map e_payment (month_entries sorted extra (st_balances st))).
Proof.
  unfold step. simpl. rewrite apply_payments_payment, second_pass_head.
  reflexivity.
Qed.

(** ** Facts about one entry *)

Lemma monthlyRate_eq (r : Q) : r / 100 / 12 == r * (1 # 1200).
Proof. field. Qed.

Lemma monthlyRate_nonneg (r : Q) : 0 <= r -> 0 <= r / 100 / 12.
Proof. intros H. rewrite monthlyRate_eq. lra. Qed.

Lemma first_pass_entry_conserves b d : conserves (first_pass_entry b d).
Proof.
  unfold conserves, first_pass_entry.
  cbn [e_payment e_interest e_principal]. ring.
Qed.

Lemma with_extra_conserves E e : conserves e -> conserves (with_extra E e).
Proof.
  unfold conserves, with_extra. intros H.
  destruct (JS.gtb _ 0); [|exact H].
  cbn [e_payment e_interest e_principal]. lra.
Qed.

Lemma give_conserves E e : conserves e -> conserves (give E e).
Proof.
  unfold give. intros H. destruct (JS.leb E 0); auto using with_extra_conserves.
Qed.

Lemma month_entries_conserve sorted extra b :
  Forall conserves (month_entries sorted extra b).
Proof.
  unfold month_entries, first_pass.
  destruct (remaining_of sorted b) as [|d r]; simpl; constructor.
  - apply give_conserves, first_pass_entry_conserves.
  - rewrite Forall_map, Forall_forall. intros; apply first_pass_entry_conserves.
Qed.

Lemma conserves_sum (es : list DebtEntry) :
  Forall conserves es ->
  sumQ (map e_payment es) ==
  sumQ (map e_interest es) + sumQ (map e_principal es).
Proof.
  induction 1 as [|e r He _ IH]; cbn [map].
  - rewrite !sumQ_nil. ring.
  - unfold conserves in He. rewrite !sumQ_cons, IH, He. ring.
Qed.

Lemma map_settle_payment es : map e_payment (map settle es) = map e_payment es.
Proof. rewrite map_map. reflexivity. Qed.

Lemma map_settle_interest es : map e_interest (map settle es) = map e_interest es.
Proof. rewrite map_map. reflexivity. Qed.

Lemma map_settle_principal es : map e_principal (map settle es) = map e_principal es.
Proof. rewrite map_map. reflexivity. Qed.

Lemma first_pass_entry_pre b d :
  valid_debt d -> unpaid b d = true -> entry_pre (first_pass_entry b d).
Proof.
  intros (Hb & Hr0 & Hr1 & Hm) Hu.
  destruct (unpaid_some _ _ Hu) as [v [Hget Hv]].
  pose proof (monthlyRate_nonneg _ Hr0) as Hmr.
  unfold first_pass_entry, bal_of. rewrite Hget.
  set (mr := rate d / 100 / 12) in *.
  assert (0 <= v * mr) by (apply Qmult_le_0_compat; lra).
  constructor; cbn [e_balance e_interest e_payment]; auto; split_minmax; lra.
Qed.

Lemma first_pass_entry_tight b d :
  e_payment (first_pass_entry b d) <=
  e_balance (first_pass_entry b d) + e_interest (first_pass_entry b d).
Proof.
  unfold first_pass_entry. cbn [e_balance e_interest e_payment].
  split_minmax; lra.
Qed.

Lemma with_extra_pre E e : entry_pre e -> entry_pre (with_extra E e).
Proof.
  intros [Hb Hi Hp Hc]. unfold with_extra.
  destruct (JS.gtb _ 0) eqn:Hg; [|constructor; auto].
  apply gtb_true in Hg.
  constructor; cbn [e_balance e_interest e_payment]; auto.
  - lra.
  - revert Hg. split_minmax; intros; lra.
Qed.

Lemma give_pre E e : entry_pre e -> entry_pre (give E e).
Proof.
  unfold give. intros H. destruct (JS.leb E 0); auto using with_extra_pre.
Qed.

Lemma month_entries_pre sorted extra b :
  Forall valid_debt sorted -> Forall entry_pre (month_entries sorted extra b).
Proof.
  intros Hv. unfold month_entries.
  assert (Hall : Forall entry_pre (first_pass b (remaining_of sorted b))).
  { unfold first_pass, remaining_of. rewrite Forall_map, Forall_forall.
    intros d Hin. apply filter_In in Hin. destruct Hin as [Hin Hu].
    rewrite Forall_forall in Hv. apply first_pass_entry_pre; auto. }
  destruct (first_pass b (remaining_of sorted b)); simpl; auto.
  inversion Hall; subst. constructor; auto using give_pre.
Qed.

(** ** Sorting *)

Lemma insert_perm {A} (cmp : A -> A -> Q) (x : A) (l : list A) :
  Permutation (JS.insert cmp x l) (x :: l).
Proof.
  induction l as [|y ys IH]; simpl; auto.
  destruct (JS.leb (cmp x y) 0); auto.
  rewrite IH. apply perm_swap.
Qed.

Lemma sort_perm {A} (cmp : A -> A -> Q) (l : list A) :
  Permutation (JS.sort cmp l) l.
Proof.
  induction l as [|x xs IH]; simpl; auto.
  rewrite insert_perm. now constructor.
Qed.

Lemma sort_debts_valid s ds :
  Forall valid_debt ds -> Forall valid_debt (sort_debts s ds).
Proof.
  apply Permutation_Forall. symmetry. apply sort_perm.
Qed.

(** ** Non-negative amounts *)

Lemma set_values_nonneg b k v :
  values_nonneg b -> 0 <= v -> values_nonneg (Dict.set b k v).
Proof.
  unfold values_nonneg, Dict.values, Dict.set. intros Hb Hv.
  destruct (String.eqb k Dict.proto); [exact Hb|].
  induction b as [|[k' v'] r IH]; simpl.
  - constructor; auto.
  - inversion Hb; subst. destruct (String.eqb k' k); simpl; constructor; auto.
Qed.

Lemma settle_bal_nonneg e : 0 <= settle_bal e.
Proof. unfold settle_bal. split_minmax; lra. Qed.

Lemma settle_balances_nonneg es b :
  values_nonneg b -> values_nonneg (settle_balances es b).
Proof.
  unfold settle_balances. revert b.
  induction es as [|e r IH]; intros b Hb; simpl; auto.
  apply IH, set_values_nonneg; auto using settle_bal_nonneg.
Qed.

Lemma init_balances_nonneg sorted :
  Forall valid_debt sorted -> values_nonneg (init_balances sorted).
Proof.
  unfold init_balances. intros Hv.
  assert (Hgen : forall b, values_nonneg b ->
            values_nonneg (fold_left (fun b d => Dict.set b (id d) (balance d)) sorted b)).
  { induction Hv as [|d r Hd _ IH]; intros b Hb; simpl; auto.
    apply IH, set_values_nonneg; auto. apply Hd. }
  apply Hgen. constructor.
Qed.

Lemma settle_nonneg e : entry_pre e -> conserves e -> entry_nonneg (settle e).
Proof.
  intros [Hb Hi Hp Hc] Hcons. unfold conserves in Hcons.
  unfold entry_nonneg, settle.
  cbn [e_balance e_payment e_interest e_principal].
  repeat split; auto using settle_bal_nonneg. lra.
Qed.

Lemma entries_payment_nonneg es :
  Forall entry_pre es -> 0 <= sumQ (map e_payment es).
Proof.
  intros H. apply sumQ_nonneg. rewrite Forall_map.
  eapply Forall_impl; [|exact H]. intros e He. apply He.
Qed.

Lemma entries_interest_nonneg es :
  Forall entry_pre es -> 0 <= sumQ (map e_interest es).
Proof.
  intros H. apply sumQ_nonneg. rewrite Forall_map.
  eapply Forall_impl; [|exact H]. intros e He. apply He.
Qed.

Lemma nonneg_inv_step sorted extra st :
  Forall valid_debt sorted -> nonneg_inv st -> nonneg_inv (step sorted extra st).
Proof.
  intros Hv [Hb Hp Hi Hs].
  pose proof (month_entries_pre sorted extra (st_balances st) Hv) as Hpre.
  pose proof (month_entries_conserve sorted extra (st_balances st)) as Hcons.
  pose proof (entries_payment_nonneg _ Hpre) as Hpay.
  pose proof (entries_interest_nonneg _ Hpre) as Hint.
  assert (Hb' : values_nonneg (st_balances (step sorted extra st))).
  { rewrite step_balances. now apply settle_balances_nonneg. }
  constructor.
  - exact Hb'.
  - rewrite step_totalPaid. lra.
  - rewrite step_totalInterest. lra.
  - rewrite step_schedule. apply Forall_app. split; auto.
    constructor; auto. unfold month_nonneg.
    cbn [totalBalance totalPayment totalInterest debts].
    repeat split; auto.
    + now apply sumQ_nonneg.
    + rewrite Forall_map, Forall_forall. rewrite Forall_forall in Hpre, Hcons.
      intros e Hin. apply settle_nonneg; auto.
Qed.

Lemma nonneg_inv_init sorted :
  Forall valid_debt sorted -> nonneg_inv (init_state sorted).
Proof.
  intros Hv. constructor; simpl; auto using init_balances_nonneg; lra.
Qed.

(** ** Conservation of each month *)

Lemma conserve_step sorted extra st :
  Forall month_conserves (st_schedule st) ->
  Forall month_conserves (st_schedule (step sorted extra st)).
Proof.
  intros H. rewrite step_schedule. apply Forall_app. split; auto.
  constructor; auto. unfold month_conserves.
  cbn [totalPayment totalInterest debts].
  rewrite map_settle_principal.
  apply conserves_sum, month_entries_conserve.
Qed.

(** ** How the total balance moves in a month *)

Lemma sum_values_set b k v old :
  Dict.get b k = Some old ->
  sumQ (Dict.values (Dict.set b k v)) == sumQ (Dict.values b) - old + v.
Proof.
  intros Hget. pose proof (dict_get_some _ _ _ Hget) as Hk.
  rewrite dict_get_lookup in Hget by exact Hk.
  rewrite dict_set_store by exact Hk. revert Hget.
  unfold Dict.values. induction b as [|[k' v'] r IH]; simpl; [discriminate|].
  destruct (String.eqb k' k); simpl.
  - intros [= ->]. rewrite !sumQ_cons. ring.
  - intros H. rewrite !sumQ_cons, (IH H). ring.
Qed.

Lemma set_fresh b k v :
  k <> Dict.proto ->
  ~ In k (Dict.keys b) -> Dict.set b k v = b ++ [(k, v)].
Proof.
  intros Hk. rewrite dict_set_store by exact Hk.
  unfold Dict.keys. induction b as [|[k' v'] r IH]; simpl; auto.
  intros Hn. destruct (String.eqb_spec k' k) as [->|_].
  - exfalso. auto.
  - f_equal. apply IH. auto.
Qed.

Lemma init_balances_distinct sorted :
  NoDup (map id sorted) -> ~ In Dict.proto (map id sorted) ->
  init_balances sorted = map (fun d => (id d, balance d)) sorted.
Proof.
  unfold init_balances, Dict.empty. intros Hnd Hnp.
  assert (Hgen : forall b,
            (forall d, In d sorted -> ~ In (id d) (Dict.keys b)) ->
            fold_left (fun b d => Dict.set b (id d) (balance d)) sorted b =
            b ++ map (fun d => (id d, balance d)) sorted).
  { induction sorted as [|d r IH]; intros b Hfresh; simpl.
    - now rewrite app_nil_r.
    - inversion Hnd as [|x l Hx Hnd']; subst.
      rewrite set_fresh;
        [|intros E; apply Hnp; left; exact E|apply Hfresh; left; reflexivity].
      rewrite IH; auto.
      + now rewrite <- app_assoc.
      + intros E. apply Hnp. now right.
      + intros d' Hin. unfold Dict.keys. rewrite map_app, in_app_iff. simpl.
        intros [Hk|[Hk|[]]].
        * apply (Hfresh d'); [right; exact Hin | exact Hk].
        * apply Hx. rewrite Hk. now apply in_map. }
  apply (Hgen []). intros d _ [].
Qed.

Lemma remaining_ids_distinct (sorted : list DebtInput) (b : Dict.t) :
  NoDup (map id sorted) -> NoDup (map id (remaining_of sorted b)).
Proof.
  unfold remaining_of. intros Hnd.
  induction sorted as [|d r IH]; cbn [filter map] in *; [constructor|].
  inversion Hnd as [|k ks Hfresh Hrest]; subst.
  destruct (unpaid b d); cbn [map]; [|now apply IH].
  constructor; [|now apply IH].
  rewrite in_map_iff. intros (d' & Hk & Hin).
  apply Hfresh. rewrite <- Hk. apply in_map.
  apply filter_In in Hin. apply Hin.
Qed.

Lemma settle_balances_sum es b :
  NoDup (map e_id es) ->
  Forall (fun e => Dict.get b (e_id e) = Some (e_balance e)) es ->
  sumQ (Dict.values (settle_balances es b)) == sumQ (Dict.values b) + delta es.
Proof.
  unfold settle_balances, delta. revert b.
  induction es as [|e r IH]; intros b Hnd Hget; simpl.
  - rewrite sumQ_nil. ring.
  - inversion Hnd as [|x l Hx Hnd']; subst. inversion Hget as [|x l He Hr]; subst.
    rewrite IH; auto.
    + rewrite (sum_values_set _ _ _ _ He), sumQ_cons. ring.
    + rewrite Forall_forall in *. intros e' Hin.
      rewrite dict_get_set_ne; auto.
      intros Heq. apply Hx. rewrite Heq. now apply in_map.
Qed.

Lemma delta_tight es :
  Forall tight es ->
  delta es == sumQ (map e_interest es) - sumQ (map e_payment es).
Proof.
  unfold delta. induction 1 as [|e r He _ IH]; cbn [map].
  - rewrite !sumQ_nil. ring.
  - rewrite !sumQ_cons, IH. unfold settle_bal, tight in *.
    split_minmax; lra.
Qed.

Lemma give_cap E e :
  tight e -> e_payment (give E e) <= e_balance (give E e) + e_interest (give E e) + 0.01.
Proof.
  unfold tight, give, with_extra. intros H.
  destruct (JS.leb E 0); [lra|].
  destruct (JS.gtb _ 0) eqn:Hg; cbn [e_payment e_balance e_interest]; [|lra].
  split_minmax; lra.
Qed.

Lemma month_entries_delta sorted extra b :
  let es := month_entries sorted extra b in
  sumQ (map e_interest es) - sumQ (map e_payment es) <= delta es /\
  delta es <= sumQ (map e_interest es) - sumQ (map e_payment es) + 0.01.
Proof.
  unfold month_entries, first_pass.
  destruct (remaining_of sorted b) as [|d r]; cbn [map extra_to_head].
  - unfold delta. cbn [map]. rewrite !sumQ_nil. lra.
  - assert (Ht : Forall tight (map (first_pass_entry b) r)).
    { rewrite Forall_map, Forall_forall. intros; apply first_pass_entry_tight. }
    pose proof (delta_tight _ Ht) as Hd.
    pose proof (give_cap (extra + freedMinimums sorted b) _
                  (first_pass_entry_tight b d)) as Hc.
    unfold delta in *. cbn [map]. rewrite !sumQ_cons, Hd.
    unfold settle_bal. split_minmax; lra.
Qed.

Lemma month_entries_lookup sorted extra b :
  Forall (fun e => Dict.get b (e_id e) = Some (e_balance e))
         (month_entries sorted extra b).
Proof.
  assert (Hfp : forall d, In d (remaining_of sorted b) ->
            Dict.get b (id d) = Some (e_balance (first_pass_entry b d))).
  { intros d Hin. apply filter_In in Hin. destruct Hin as [_ Hu].
    destruct (unpaid_some _ _ Hu) as [v [Hget _]].
    unfold first_pass_entry, bal_of. rewrite Hget. reflexivity. }
  unfold month_entries, first_pass.
  destruct (remaining_of sorted b) as [|d r]; cbn [map extra_to_head]; constructor.
  - rewrite give_id, give_balance. apply Hfp. now left.
  - rewrite Forall_map, Forall_forall. intros d' Hin. apply Hfp. now right.
Qed.

Lemma step_total_balance sorted extra st :
  NoDup (map id sorted) ->
  let es := month_entries sorted extra (st_balances st) in
  let before := sumQ (Dict.values (st_balances st)) in
  let after := sumQ (Dict.values (st_balances (step sorted extra st))) in
  before + sumQ (map e_interest es) - sumQ (map e_payment es) <= after /\
  after <= before + sumQ (map e_interest es) - sumQ (map e_payment es) + 0.01.
Proof.
  intros Hnd es before after.
  assert (Hsum : after == before + delta es).
  { unfold after. rewrite step_balances. apply settle_balances_sum.
    - unfold es. rewrite month_entries_ids. now apply remaining_ids_distinct.
    - apply month_entries_lookup. }
  destruct (month_entries_delta sorted extra (st_balances st)) as [H1 H2].
  fold es in H1, H2. lra.
Qed.

Lemma last_total_app start sched pm :
  last_total start (sched ++ [pm]) = totalBalance pm.
Proof. unfold last_total. rewrite rev_app_distr. reflexivity. Qed.

Lemma last_total_cons start pm sched :
  last_total start (pm :: sched) = last_total (totalBalance pm) sched.
Proof.
  unfold last_total. simpl. destruct (rev sched) eqn:E; simpl; auto.
Qed.

Lemma balance_moves_compat p q pm :
  p == q -> balance_moves p pm -> balance_moves q pm.
Proof. unfold balance_moves. intros Heq [H1 H2]. split; lra. Qed.

Lemma balance_chain_snoc start sched pm :
  balance_chain start sched ->
  balance_moves (last_total start sched) pm ->
  balance_chain start (sched ++ [pm]).
Proof.
  revert start. induction sched as [|x r IH]; intros start Hc Hm; simpl in *.
  - auto.
  - destruct Hc as [Hx Hc]. split; auto. apply IH; auto.
    now rewrite last_total_cons in Hm.
Qed.

Lemma chain_inv_step start sorted extra st :
  NoDup (map id sorted) -> chain_inv start st ->
  chain_inv start (step sorted extra st).
Proof.
  intros Hnd [Hc Hl].
  pose proof (step_total_balance sorted extra st Hnd) as Hb. cbv zeta in Hb.
  constructor.
  - rewrite step_schedule. apply balance_chain_snoc; auto.
    apply balance_moves_compat with (p := sumQ (Dict.values (st_balances st))).
    + now symmetry.
    + unfold balance_moves. cbn [totalBalance totalPayment totalInterest]. exact Hb.
  - rewrite step_schedule, last_total_app. reflexivity.
Qed.

Lemma chain_inv_init ds s :
  NoDup (map id ds) -> ~ In Dict.proto (map id ds) ->
  chain_inv (sumQ (map balance ds)) (init_state (sort_debts s ds)).
Proof.
  intros Hnd Hnp.
  assert (Hp : Permutation (sort_debts s ds) ds) by apply sort_perm.
  constructor; simpl; auto.
  unfold last_total. simpl. rewrite init_balances_distinct.
  - unfold Dict.values. rewrite map_map. simpl.
    apply sumQ_perm. apply Permutation_map. now symmetry.
  - eapply Permutation_NoDup; [|exact Hnd].
    apply Permutation_map. now symmetry.
  - intros Hin. apply Hnp. eapply Permutation_in; [|exact Hin].
    now apply Permutation_map.
Qed.

(** ** Payoff order bookkeeping *)

Lemma in_payoffOrder_true k po :
  in_payoffOrder k po = true <-> In k (map p_id po).
Proof.
  unfold in_payoffOrder. rewrite existsb_exists, in_map_iff. split.
  - intros [p [Hin He]]. apply String.eqb_eq in He. eauto.
  - intros [p [He Hin]]. exists p. split; auto. now apply String.eqb_eq.
Qed.

Lemma in_payoffOrder_false k po :
  in_payoffOrder k po = false <-> ~ In k (map p_id po).
Proof.
  rewrite <- in_payoffOrder_true. destruct (in_payoffOrder k po); split; congruence.
Qed.

Lemma entry_reached_app_l es es' k :
  entry_reached es k -> entry_reached (es ++ es') k.
Proof.
  intros [e [Hin H]]. exists e. split; auto. apply in_or_app; auto.
Qed.

Lemma applied_ok_one m po0 acc e :
  e_id e <> Dict.proto ->
  applied_ok m po0 acc -> applied_ok m po0 (apply_payments m [e] acc).
Proof.
  intros Hk [Hnd [new [Hpo Hnew]] Hrec]. simpl.
  set (nb := Qmax 0 (e_balance e + e_interest e - e_payment e)).
  unfold bal_of. rewrite dict_get_set_eq by exact Hk. simpl JS.le_num.
  assert (Hnew' : Forall (fun p => payoffMonth p = m /\
            entry_reached (ap_entries acc ++
              [mkEntry (e_id e) (e_name e) nb (e_payment e) (e_interest e)
                 (e_principal e)]) (p_id p)) new).
  { eapply Forall_impl; [|exact Hnew]. intros p [H1 H2]. split; auto.
    now apply entry_reached_app_l. }
  destruct (JS.leb nb 0.01) eqn:Hle; simpl andb.
  - assert (Hself : entry_reached (ap_entries acc ++
              [mkEntry (e_id e) (e_name e) nb (e_payment e) (e_interest e)
                 (e_principal e)]) (e_id e)).
    { eexists. split; [apply in_or_app; right; left; reflexivity|].
      simpl. split; auto. now apply Qle_bool_iff. }
    destruct (in_payoffOrder (e_id e) (ap_payoffOrder acc)) eqn:Hin; simpl.
    + constructor; simpl; auto.
      * exists new. split; auto.
      * intros k [e' [Hin' [Hid Hb]]]. apply in_app_or in Hin'.
        destruct Hin' as [Hin'|[<-|[]]].
        -- apply Hrec. exists e'. auto.
        -- simpl in Hid. subst k. now apply in_payoffOrder_true.
    + apply in_payoffOrder_false in Hin.
      constructor; simpl.
      * rewrite map_app. simpl.
        apply NoDup_rev in Hnd. rewrite <- rev_involutive.
        apply NoDup_rev. rewrite rev_app_distr. simpl.
        constructor; auto. now rewrite <- in_rev.
      * exists (new ++ [mkPayoff (e_id e) (e_name e) m]).
        rewrite Hpo, app_assoc. split; auto.
        apply Forall_app. split; auto.
      * intros k [e' [Hin' [Hid Hb]]]. rewrite map_app. apply in_or_app.
        apply in_app_or in Hin'. destruct Hin' as [Hin'|[<-|[]]].
        -- left. apply Hrec. exists e'. auto.
        -- right. simpl in *. auto.
  - constructor; simpl; auto.
    + exists new. split; auto.
    + intros k [e' [Hin' [Hid Hb]]]. apply in_app_or in Hin'.
      destruct Hin' as [Hin'|[<-|[]]].
      * apply Hrec. exists e'. auto.
      * simpl in Hb. apply Qle_bool_iff in Hb. unfold JS.leb in Hle. congruence.
Qed.

Lemma applied_ok_all m po0 es acc :
  Forall (fun e => e_id e <> Dict.proto) es ->
  applied_ok m po0 acc -> applied_ok m po0 (apply_payments m es acc).
Proof.
  intros Hall. revert acc. induction Hall as [|e r He _ IH]; intros acc H.
  - exact H.
  - change (e :: r) with ([e] ++ r). rewrite apply_payments_app.
    now apply IH, applied_ok_one.
Qed.

Lemma applied_ok_init m b po0 :
  NoDup (map p_id po0) -> applied_ok m po0 (mkApplied b [] 0 0 po0).
Proof.
  intros Hnd. constructor; simpl; auto.
  - exists []. rewrite app_nil_r. auto.
  - intros k [e [[] _]].
Qed.

Lemma StronglySorted_app_const (l new : list nat) (m : nat) :
  StronglySorted le l -> Forall (fun x => (x <= m)%nat) l ->
  Forall (fun y => y = m) new -> StronglySorted le (l ++ new).
Proof.
  intros Hs Hle Hnew. induction Hs as [|x l Hs IH Hx]; simpl.
  - induction Hnew as [|y new Hy Hnew IHn]; constructor; auto.
    subst y. eapply Forall_impl; [|exact Hnew]. cbv beta; intros; lia.
  - inversion Hle; subst. constructor; auto.
    apply Forall_app. split; auto.
    eapply Forall_impl; [|exact Hnew]. cbv beta; intros; lia.
Qed.

Lemma payoff_inv_init sorted : payoff_inv (init_state sorted).
Proof.
  constructor; simpl; auto; try constructor; intros; contradiction.
Qed.

Lemma schedule_month_le st pm :
  map month (st_schedule st) = seq 1 (st_month st) ->
  In pm (st_schedule st) -> (1 <= month pm <= st_month st)%nat.
Proof.
  intros Hm Hin. apply (in_map month) in Hin. rewrite Hm in Hin.
  apply in_seq in Hin. lia.
Qed.

Lemma payoff_inv_step sorted extra st :
  payoff_inv st -> payoff_inv (step sorted extra st).
Proof.
  intros [Hm Hnd Hs Hle Hfirst Hrec].
  unfold step.
  set (b := st_balances st).
  set (m := S (st_month st)).
  rewrite second_pass_head. fold (month_entries sorted extra b).
  set (es := month_entries sorted extra b).
  pose proof (applied_ok_all m (st_payoffOrder st) es _
                (month_entries_not_proto sorted extra b)
                (applied_ok_init m b _ Hnd)) as [And [new [Apo Anew]] Arec].
  set (ap := apply_payments m es _) in *.
  constructor; simpl.
  - rewrite map_app, Hm.
    change (1%nat :: seq 2 (st_month st)) with (seq 1 (S (st_month st))).
    now rewrite seq_S.
  - exact And.
  - rewrite Apo, map_app. apply StronglySorted_app_const with (m := m); auto.
    + rewrite Forall_map. eapply Forall_impl; [|exact Hle]. simpl. intros; unfold m; lia.
    + rewrite Forall_map. eapply Forall_impl; [|exact Anew]. simpl. tauto.
  - rewrite Apo. apply Forall_app. split.
    + eapply Forall_impl; [|exact Hle]. simpl. intros; unfold m; lia.
    + eapply Forall_impl; [|exact Anew]. simpl. intros p [-> _]. lia.
  - intros p Hin. rewrite Apo in Hin. apply in_app_or in Hin.
    rewrite Forall_forall in Hle, Anew.
    destruct Hin as [Hin|Hin].
    + destruct (Hfirst p Hin) as [pm [Hpm [Hmo [Hre Hbefore]]]].
      exists pm. repeat split; auto.
      * apply in_or_app; auto.
      * intros pm' Hin' Hlt. apply in_app_or in Hin'.
        destruct Hin' as [Hin'|[<-|[]]]; auto.
        simpl in Hlt. specialize (Hle p Hin). unfold m in Hlt. lia.
    + destruct (Anew p Hin) as [Hpm Hre].
      eexists. split; [apply in_or_app; right; left; reflexivity|].
      simpl. repeat split; auto.
      intros pm' Hin' Hlt Hre'. apply in_app_or in Hin'.
      destruct Hin' as [Hin'|[<-|[]]].
      * specialize (Hrec pm' (p_id p) Hin' Hre').
        rewrite Apo, map_app in And.
        apply (in_map p_id) in Hin.
        revert And Hrec Hin. clear. intros And Hrec Hin.
        induction (map p_id (st_payoffOrder st)) as [|x l IH]; [contradiction|].
        simpl in And. inversion And; subst.
        destruct Hrec as [->|Hrec]; auto.
        apply H1. apply in_or_app. auto.
      * simpl in Hlt. lia.
  - intros pm k Hin Hre. apply in_app_or in Hin.
    destruct Hin as [Hin|[<-|[]]].
    + rewrite Apo, map_app. apply in_or_app. left. eapply Hrec; eauto.
    + apply Arec. exact Hre.
Qed.

Lemma payoff_inv_loop n sorted extra st :
  payoff_inv st -> payoff_inv (loop n sorted extra st).
Proof.
  apply (loop_invariant payoff_inv). intros. now apply payoff_inv_step.
Qed.

(** ** Results about [calculatePayoff] *)

(** C1. Termination: [calculatePayoff] is a total function (its loop is a
    recursion bounded by [maxMonths]), and the loop test [month < maxMonths]
    keeps the [months] it returns at most 360, for every debt list, strategy
    and extra payment.  On exit the cap is reached or no debt remains. *)
Theorem calculatePayoff_months_le_360 (ds : list DebtInput) (s : Strategy) (extraMonthly : Q) :
  let sorted := sort_debts s ds in
  let final := loop maxMonths sorted extraMonthly (init_state sorted) in
  (months (calculatePayoff ds s extraMonthly) <= 360)%nat /\
  (months (calculatePayoff ds s extraMonthly) = 360%nat \/
   remaining_of sorted (st_balances final) = []).
Proof.
  intros sorted final. unfold calculatePayoff. cbn [months]. fold sorted. fold final.
  assert (Hcap : (st_month final <= maxMonths)%nat).
  { apply loop_month_cap. simpl. lia. }
  split; [exact Hcap|].
  destruct (loop_exit maxMonths sorted extraMonthly (init_state sorted)) as [Hg|Hr].
  - simpl. lia.
  - left. fold final in Hg. apply Nat.ltb_ge in Hg. unfold maxMonths in *. lia.
  - now right.
Qed.

(** C10. Shape of the result: the schedule has [months] entries numbered
    1..months; the payoff order lists each id at most once, in
    non-decreasing month order, and the month recorded for an id is the
    first month whose entry for that id has a working balance of at most
    0.01. *)
Theorem calculatePayoff_shape (ds : list DebtInput) (s : Strategy) (extraMonthly : Q) :
  let r := calculatePayoff ds s extraMonthly in
  List.length (schedule r) = months r /\
  map month (schedule r) = seq 1 (months r) /\
  NoDup (map p_id (debtPayoffOrder r)) /\
  StronglySorted le (map payoffMonth (debtPayoffOrder r)) /\
  (forall p, In p (debtPayoffOrder r) ->
     exists pm, In pm (schedule r) /\ month pm = payoffMonth p /\
       reached pm (p_id p) /\
       forall pm', In pm' (schedule r) ->
         (month pm' < payoffMonth p)%nat -> ~ reached pm' (p_id p)).
Proof.
  intros r.
  pose proof (payoff_inv_loop maxMonths (sort_debts s ds) extraMonthly _
                (payoff_inv_init (sort_debts s ds))) as [Hm Hnd Hs _ Hf _].
  unfold r, calculatePayoff. cbn [schedule months debtPayoffOrder].
  repeat split; auto.
  rewrite <- (List.length_map month), Hm. apply List.length_seq.
Qed.

Lemma loop_first_step n sorted extra st :
  (st_month st < maxMonths)%nat ->
  remaining_of sorted (st_balances st) <> [] ->
  exists rest,
    st_schedule (loop (S n) sorted extra st) =
    st_schedule (step sorted extra st) ++ rest.
Proof.
  intros Hlt Hne. rewrite loop_S.
  destruct (Nat.ltb_spec (st_month st) maxMonths); [|lia].
  destruct (remaining_of sorted (st_balances st)); [congruence|].
  apply loop_schedule_prefix.
Qed.

Lemma loop_two_steps n sorted extra st :
  (S (st_month st) < maxMonths)%nat ->
  remaining_of sorted (st_balances st) <> [] ->
  remaining_of sorted (st_balances (step sorted extra st)) <> [] ->
  exists rest,
    st_schedule (loop (S (S n)) sorted extra st) =
    st_schedule (step sorted extra (step sorted extra st)) ++ rest.
Proof.
  intros Hlt Hne1 Hne2. rewrite loop_S.
  destruct (Nat.ltb_spec (st_month st) maxMonths); [|lia].
  destruct (remaining_of sorted (st_balances st)); [congruence|].
  apply loop_first_step; auto.
Qed.

(** C2, as stated, fails in two places.  A debt whose minimum payment is
    below its monthly interest grows: one debt of 1000 at 12% with a minimum
    of 0 and no extra payment stands at 1010 after month 1 and at 1020.10
    after month 2.  And the extra payment may overshoot by 0.01: one debt of
    100 at 0% with a minimum of 0 and an extra payment of 1000 is paid
    100.01 in month 1, so that its balance, 0, is above
    100 + 0 - 100.01. *)
Lemma conservation_claim_fails :
  let d := mkDebt "loan" "Loan" 1000 12 0 in
  let r := calculatePayoff [d] avalanche 0 in
  let d' := mkDebt "card" "Card" 100 0 0 in
  let r' := calculatePayoff [d'] avalanche 1000 in
  valid_debt d /\ valid_debt d' /\
  (exists pm pm', nth_error (schedule r) 0 = Some pm /\
                  nth_error (schedule r) 1 = Some pm' /\
                  totalBalance pm == 1010 /\ totalBalance pm' == 1020.1) /\
  ~ balance_never_grows (schedule r) /\
  (exists pm, nth_error (schedule r') 0 = Some pm /\
              totalBalance pm == 0 /\ totalInterest pm == 0 /\
              totalPayment pm == 100.01) /\
  ~ first_month_within [d'] (schedule r').
Proof.
  intros d r d' r'.
  assert (Hv : valid_debt d) by (unfold valid_debt, d; simpl; repeat split; lra).
  assert (Hv' : valid_debt d') by (unfold valid_debt, d'; simpl; repeat split; lra).
  assert (Hex : exists pm pm', nth_error (schedule r) 0 = Some pm /\
                  nth_error (schedule r) 1 = Some pm' /\
                  totalBalance pm == 1010 /\ totalBalance pm' == 1020.1).
  { unfold r, calculatePayoff. cbn [schedule].
    change (sort_debts avalanche [d]) with [d].
    change maxMonths with (S (S 358)).
    destruct (loop_two_steps 358 [d] 0 (init_state [d])) as [rest Hr];
      [vm_compute; lia | vm_compute; discriminate | vm_compute; discriminate |].
    rewrite Hr. clear Hr.
    set (two := st_schedule (step [d] 0 (step [d] 0 (init_state [d])))).
    exists (nth 0 two (mkMonth 0 [] 0 0 0)), (nth 1 two (mkMonth 0 [] 0 0 0)).
    rewrite !nth_error_app1 by (vm_compute; lia).
    repeat split; vm_compute; reflexivity. }
  assert (Hex' : exists pm, nth_error (schedule r') 0 = Some pm /\
                  totalBalance pm == 0 /\ totalInterest pm == 0 /\
                  totalPayment pm == 100.01).
  { unfold r', calculatePayoff. cbn [schedule].
    change (sort_debts avalanche [d']) with [d'].
    change maxMonths with (S 359).
    destruct (loop_first_step 359 [d'] 1000 (init_state [d'])) as [rest Hr];
      [vm_compute; lia | vm_compute; discriminate |].
    rewrite Hr. clear Hr.
    set (one := st_schedule (step [d'] 1000 (init_state [d']))).
    exists (nth 0 one (mkMonth 0 [] 0 0 0)).
    rewrite !nth_error_app1 by (vm_compute; lia).
    repeat split; vm_compute; reflexivity. }
  split; [exact Hv|]. split; [exact Hv'|]. split; [exact Hex|].
  split; [|split; [exact Hex'|]].
  - destruct Hex as (pm & pm' & H0 & H1 & Hb & Hb').
    intros Hmono. specialize (Hmono 0%nat pm pm' H0 H1). lra.
  - destruct Hex' as (pm & H0 & Hb & Hi & Hp).
    intros Hfirst. specialize (Hfirst pm H0).
    change (sumQ (map balance [d'])) with (0 + 100) in Hfirst. lra.
Qed.

(** C2, amended.  Every month satisfies
    [totalPayment = totalInterest + sum of principals].  When the debt ids
    are distinct and none of them is the key the balances object does not
    store, each [totalBalance] is at least the previous one (for month 1:
    the sum of the input balances) plus the month's interest minus the
    month's payments, and at most 0.01 more than that. *)
Theorem calculatePayoff_conservation (ds : list DebtInput) (s : Strategy) (extraMonthly : Q) :
  let r := calculatePayoff ds s extraMonthly in
  Forall month_conserves (schedule r) /\
  (NoDup (map id ds) -> ~ In Dict.proto (map id ds) ->
   balance_chain (sumQ (map balance ds)) (schedule r)).
Proof.
  intros r. unfold r, calculatePayoff. cbn [schedule]. split.
  - apply (loop_invariant (fun st => Forall month_conserves (st_schedule st))).
    + intros st H _. now apply conserve_step.
    + constructor.
  - intros Hnd Hnp.
    assert (Hs : NoDup (map id (sort_debts s ds))).
    { eapply Permutation_NoDup; [|exact Hnd].
      apply Permutation_map. symmetry. apply sort_perm. }
    apply (loop_invariant (chain_inv (sumQ (map balance ds)))).
    + intros st H _. now apply chain_inv_step.
    + now apply chain_inv_init.
Qed.

Lemma calculatePayoff_conservation_witness :
  let ds := [mkDebt "a" "Card" 500 20 25; mkDebt "b" "Car" 3000 5 60] in
  Forall month_conserves (schedule (calculatePayoff ds avalanche 100)) /\
  balance_chain (sumQ (map balance ds)) (schedule (calculatePayoff ds avalanche 100)).
Proof.
  intros ds.
  destruct (calculatePayoff_conservation ds avalanche 100) as [Hc Hb].
  split; [exact Hc|]. apply Hb.
  - simpl. repeat constructor; simpl; intuition discriminate.
  - simpl. intuition discriminate.
Defined.

(** C5, as stated, fails for [principal]: with 1000 owed at 24% and a
    minimum of 10, the first month accrues 20 of interest and pays 10, so
    the principal of that month is -10. *)
Lemma principal_can_be_negative :
  let d := mkDebt "card" "Card" 1000 24 10 in
  let r := calculatePayoff [d] snowball 0 in
  valid_debt d /\
  (exists pm e, nth_error (schedule r) 0 = Some pm /\ debts pm = [e] /\
                e_interest e == 20 /\ e_payment e == 10 /\
                e_principal e == -10) /\
  ~ principal_never_negative (schedule r).
Proof.
  intros d r.
  assert (Hv : valid_debt d) by (unfold valid_debt, d; simpl; repeat split; lra).
  assert (Hex : exists pm e, nth_error (schedule r) 0 = Some pm /\ debts pm = [e] /\
                e_interest e == 20 /\ e_payment e == 10 /\ e_principal e == -10).
  { unfold r, calculatePayoff. cbn [schedule].
    change (sort_debts snowball [d]) with [d].
    change maxMonths with (S 359).
    destruct (loop_first_step 359 [d] 0 (init_state [d])) as [rest Hr];
      [vm_compute; lia | vm_compute; discriminate |].
    rewrite Hr. clear Hr.
    set (one := st_schedule (step [d] 0 (init_state [d]))).
    set (pm := nth 0 one (mkMonth 0 [] 0 0 0)).
    exists pm, (nth 0 (debts pm) (mkEntry "" "" 0 0 0 0)).
    rewrite !nth_error_app1 by (vm_compute; lia).
    repeat split; vm_compute; reflexivity. }
  split; [exact Hv|]. split; [exact Hex|].
  destruct Hex as (pm & e & H0 & Hd & Hi & Hp & Hpr).
  intros Hnn. apply nth_error_In in H0.
  specialize (Hnn pm e H0). rewrite Hd in Hnn. specialize (Hnn (or_introl eq_refl)).
  lra.
Qed.

(** C5, amended.  For valid debts every [balance], [payment] and [interest]
    of every entry is non-negative, and so are [totalPaid], [totalInterest]
    and each month's [totalBalance], [totalPayment] and [totalInterest]
    ([months] is a natural number).  [principal] is [payment - interest],
    which is negative when the payment does not cover the interest. *)
Theorem calculatePayoff_nonneg (ds : list DebtInput) (s : Strategy) (extraMonthly : Q) :
  Forall valid_debt ds ->
  let r := calculatePayoff ds s extraMonthly in
  (0 <= months r)%nat /\ 0 <= totalPaid r /\ 0 <= r_totalInterest r /\
  Forall month_nonneg (schedule r).
Proof.
  intros Hv r.
  pose proof (sort_debts_valid s ds Hv) as Hvs.
  pose proof (loop_invariant nonneg_inv (sort_debts s ds) extraMonthly
                (fun st H _ => nonneg_inv_step _ _ st Hvs H)
                maxMonths _ (nonneg_inv_init _ Hvs)) as [_ Hp Hi Hs].
  unfold r, calculatePayoff. cbn [months totalPaid r_totalInterest schedule].
  repeat split; auto. lia.
Qed.

Lemma calculatePayoff_nonneg_witness :
  let ds := [mkDebt "card" "Card" 1000 24 10] in
  Forall valid_debt ds /\
  let r := calculatePayoff ds snowball 0 in
  (0 <= months r)%nat /\ 0 <= totalPaid r /\ 0 <= r_totalInterest r /\
  Forall month_nonneg (schedule r).
Proof.
  intros ds.
  assert (Hv : Forall valid_debt ds).
  { repeat constructor; simpl; lra. }
  split; [exact Hv|].
  exact (calculatePayoff_nonneg ds snowball 0 Hv).
Defined.

(** ** A larger extra payment never hurts *)

Lemma entries_from_false E b l :
  entries_from false E b l = first_pass b (filter (unpaid b) l).
Proof.
  induction l as [|d r IH]; simpl; auto.
  destruct (unpaid b d); simpl; now rewrite IH.
Qed.

Lemma month_entries_from sorted extra b :
  month_entries sorted extra b =
  entries_from true (extra + freedMinimums sorted b) b sorted.
Proof.
  unfold month_entries, remaining_of.
  generalize (extra + freedMinimums sorted b) as E. intros E.
  induction sorted as [|d r IH]; simpl; auto.
  destruct (unpaid b d); simpl; auto.
  now rewrite entries_from_false.
Qed.

Lemma settle_bal_plain b d v :
  Dict.get b (id d) = Some v ->
  settle_bal (first_pass_entry b d) ==
  Qmax 0 (v + v * (rate d / 100 / 12) - minimum d).
Proof.
  intros Hget. unfold settle_bal, first_pass_entry, bal_of. rewrite Hget.
  cbn [e_balance e_interest e_payment].
  set (mr := rate d / 100 / 12). split_minmax; lra.
Qed.

Lemma settle_bal_give E b d v :
  Dict.get b (id d) = Some v ->
  settle_bal (give E (first_pass_entry b d)) ==
  Qmax 0 (v + v * (rate d / 100 / 12) - minimum d - Qmax 0 E).
Proof.
  intros Hget. unfold give.
  destruct (JS.leb E 0) eqn:HE.
  - apply leb_true in HE. rewrite (settle_bal_plain _ _ _ Hget).
    split_minmax; lra.
  - apply leb_false in HE.
    unfold with_extra, settle_bal, first_pass_entry, bal_of. rewrite Hget.
    cbn [e_balance e_interest e_payment].
    set (mr := rate d / 100 / 12).
    destruct (JS.gtb _ 0) eqn:Hg; cbn [e_balance e_interest e_payment].
    + clear Hg. split_minmax; lra.
    + apply gtb_false in Hg. revert Hg. split_minmax; intros; lra.
Qed.

Lemma settle_bal_entry_mono f1 f2 E1 E2 b1 b2 d v1 v2 :
  Dict.get b1 (id d) = Some v1 -> Dict.get b2 (id d) = Some v2 ->
  v2 <= v1 -> 0 <= rate d -> E1 <= E2 -> (f1 = true -> f2 = true) ->
  settle_bal (entry_for f2 E2 b2 d) <= settle_bal (entry_for f1 E1 b1 d).
Proof.
  intros H1 H2 Hv Hr HE Hf.
  pose proof (monthlyRate_nonneg _ Hr) as Hmr.
  assert (Hm : v2 * (rate d / 100 / 12) <= v1 * (rate d / 100 / 12))
    by (apply Qmult_le_compat_r; lra).
  unfold entry_for.
  destruct f1; [rewrite (Hf eq_refl)|destruct f2];
    rewrite ?(settle_bal_give _ _ _ _ H1), ?(settle_bal_give _ _ _ _ H2),
            ?(settle_bal_plain _ _ _ H1), ?(settle_bal_plain _ _ _ H2);
    set (mr := rate d / 100 / 12) in *; split_minmax; lra.
Qed.

Lemma dominated_refl b : dominated b b.
Proof.
  intros k. unfold bal_rel. destruct (Dict.get b k); auto. left. lra.
Qed.

Lemma dominated_unpaid b1 b2 d :
  dominated b1 b2 -> unpaid b2 d = true ->
  exists v1 v2, Dict.get b1 (id d) = Some v1 /\ Dict.get b2 (id d) = Some v2 /\
                v2 <= v1 /\ 0.01 < v2 /\ unpaid b1 d = true.
Proof.
  intros Hdom Hu. destruct (unpaid_some _ _ Hu) as [v2 [H2 Hv2]].
  specialize (Hdom (id d)). rewrite H2 in Hdom. unfold bal_rel in Hdom.
  destruct (Dict.get b1 (id d)) as [v1|] eqn:H1; [|contradiction].
  exists v1, v2. repeat split; auto; try lra.
  unfold unpaid. rewrite H1. simpl. apply gtb_true. lra.
Qed.

Lemma dominated_paid b1 b2 d :
  dominated b1 b2 -> paid b1 d = true -> paid b2 d = true.
Proof.
  intros Hdom Hp. specialize (Hdom (id d)). unfold paid in *.
  destruct (Dict.get b1 (id d)) as [v1|]; [|discriminate].
  unfold bal_rel in Hdom. destruct (Dict.get b2 (id d)) as [v2|]; [|contradiction].
  simpl in *. apply leb_true in Hp. apply leb_true. lra.
Qed.

Lemma dominated_not_unpaid b1 b2 d v1 :
  dominated b1 b2 -> Dict.get b1 (id d) = Some v1 -> unpaid b2 d = false ->
  exists v2, Dict.get b2 (id d) = Some v2 /\ v2 <= 0.01.
Proof.
  intros Hdom H1 Hu. specialize (Hdom (id d)). rewrite H1 in Hdom.
  unfold bal_rel in Hdom. unfold unpaid in Hu.
  destruct (Dict.get b2 (id d)) as [v2|]; [|contradiction].
  exists v2. split; auto. simpl in Hu. now apply gtb_false.
Qed.

Lemma entry_for_id f E b d : e_id (entry_for f E b d) = id d.
Proof. unfold entry_for. destruct f; rewrite ?give_id; reflexivity. Qed.

Lemma settle_balances_dominated b1 b2 E1 E2 l :
  Forall valid_debt l -> dominated b1 b2 -> E1 <= E2 ->
  forall f1 f2 c1 c2,
    (f1 = true -> f2 = true) ->
    dominated c1 c2 ->
    (forall k, JS.gt_num (Dict.get b2 k) 0.01 = false ->
               Dict.get c2 k = Dict.get b2 k) ->
    dominated (settle_balances (entries_from f1 E1 b1 l) c1)
              (settle_balances (entries_from f2 E2 b2 l) c2).
Proof.
  intros Hv Hdom HE. induction Hv as [|d r Hd _ IH]; intros f1 f2 c1 c2 Hf Hc Hag.
  - exact Hc.
  - simpl entries_from.
    destruct (unpaid b2 d) eqn:Hu2.
    + destruct (dominated_unpaid _ _ _ Hdom Hu2) as (v1 & v2 & H1 & H2 & Hv & Hv2 & Hu1).
      pose proof (dict_get_some _ _ _ H1) as Hnp.
      rewrite Hu1. unfold settle_balances in *. simpl fold_left.
      rewrite !entry_for_id.
      apply IH; auto.
      * intros k. rewrite !dict_get_set by exact Hnp.
        destruct (String.eqb (id d) k); [|apply Hc].
        simpl. left.
        apply settle_bal_entry_mono with (v1 := v1) (v2 := v2); auto. apply Hd.
      * intros k Hk. rewrite dict_get_set by exact Hnp.
        destruct (String.eqb_spec (id d) k) as [<-|_]; auto.
        unfold unpaid in Hu2. congruence.
    + destruct (unpaid b1 d) eqn:Hu1.
      * destruct (unpaid_some _ _ Hu1) as [v1 [H1 Hv1]].
        pose proof (dict_get_some _ _ _ H1) as Hnp.
        destruct (dominated_not_unpaid _ _ _ _ Hdom H1 Hu2) as [v2 [H2 Hv2]].
        unfold settle_balances in *. simpl fold_left.
        rewrite entry_for_id.
        apply IH; auto; [discriminate|].
        intros k. rewrite dict_get_set by exact Hnp.
        destruct (String.eqb_spec (id d) k) as [<-|_]; [|apply Hc].
        rewrite (Hag (id d)) by exact Hu2. rewrite H2. simpl. right. exact Hv2.
      * apply IH; auto.
Qed.

Lemma entry_for_interest f E b d v :
  Dict.get b (id d) = Some v ->
  e_interest (entry_for f E b d) = v * (rate d / 100 / 12).
Proof.
  intros Hget. unfold entry_for. destruct f; rewrite ?give_interest;
    unfold first_pass_entry, bal_of; rewrite Hget; reflexivity.
Qed.

Lemma entries_interest_dominated b1 b2 E1 E2 l :
  Forall valid_debt l -> dominated b1 b2 ->
  forall f1 f2,
    sumQ (map e_interest (entries_from f2 E2 b2 l)) <=
    sumQ (map e_interest (entries_from f1 E1 b1 l)).
Proof.
  intros Hv Hdom. induction Hv as [|d r Hd _ IH]; intros f1 f2.
  - simpl. lra.
  - destruct Hd as (_ & Hr & _ & _).
    pose proof (monthlyRate_nonneg _ Hr) as Hmr.
    simpl entries_from. destruct (unpaid b2 d) eqn:Hu2.
    + destruct (dominated_unpaid _ _ _ Hdom Hu2) as (v1 & v2 & H1 & H2 & Hv & Hv2 & Hu1).
      rewrite Hu1. cbn [map]. rewrite !sumQ_cons.
      rewrite (entry_for_interest _ _ _ _ _ H1), (entry_for_interest _ _ _ _ _ H2).
      assert (v2 * (rate d / 100 / 12) <= v1 * (rate d / 100 / 12))
        by (apply Qmult_le_compat_r; lra).
      specialize (IH false false). lra.
    + destruct (unpaid b1 d) eqn:Hu1; [|apply IH].
      destruct (unpaid_some _ _ Hu1) as [v1 [H1 Hv1]].
      cbn [map]. rewrite sumQ_cons, (entry_for_interest _ _ _ _ _ H1).
      assert (0 <= v1 * (rate d / 100 / 12)) by (apply Qmult_le_0_compat; lra).
      specialize (IH false f2). lra.
Qed.

Lemma freedMinimums_dominated sorted b1 b2 :
  Forall valid_debt sorted -> dominated b1 b2 ->
  freedMinimums sorted b1 <= freedMinimums sorted b2.
Proof.
  intros Hv Hdom. rewrite !freedMinimums_sum.
  induction Hv as [|d r Hd _ IH]; simpl; [lra|].
  destruct Hd as (_ & _ & _ & Hm).
  destruct (paid b1 d) eqn:Hp1.
  - rewrite (dominated_paid _ _ _ Hdom Hp1). cbn [map]. rewrite !sumQ_cons. lra.
  - destruct (paid b2 d); auto. cbn [map]. rewrite sumQ_cons. lra.
Qed.

Lemma settle_balances_untouched es b k :
  ~ In k (map e_id es) -> Dict.get (settle_balances es b) k = Dict.get b k.
Proof.
  unfold settle_balances. revert b.
  induction es as [|e r IH]; intros b Hn; simpl in *; auto.
  rewrite IH by tauto. apply dict_get_set_ne. tauto.
Qed.

Lemma lockstep_step sorted e1 e2 s1 s2 :
  Forall valid_debt sorted -> e1 <= e2 -> lockstep s1 s2 ->
  lockstep (step sorted e1 s1) (step sorted e2 s2).
Proof.
  intros Hv He [Hdom Hm Hi].
  pose proof (freedMinimums_dominated _ _ _ Hv Hdom) as Hfreed.
  constructor.
  - rewrite !step_balances, !month_entries_from.
    apply settle_balances_dominated; auto; lra.
  - rewrite !step_month. now rewrite Hm.
  - rewrite !step_totalInterest, !month_entries_from.
    pose proof (entries_interest_dominated _ _
                  (e1 + freedMinimums sorted (st_balances s1))
                  (e2 + freedMinimums sorted (st_balances s2))
                  _ Hv Hdom true true).
    lra.
Qed.

Lemma loop_interest_ge n sorted extra st :
  Forall valid_debt sorted ->
  st_totalInterestPaid st <= st_totalInterestPaid (loop n sorted extra st).
Proof.
  intros Hv. revert st. induction n as [|n IH]; intros st.
  - simpl. lra.
  - rewrite loop_S.
    destruct (st_month st <? maxMonths)%nat; [|lra].
    destruct (remaining_of sorted (st_balances st)); [lra|].
    specialize (IH (step sorted extra st)).
    rewrite step_totalInterest in IH.
    pose proof (entries_interest_nonneg _
                  (month_entries_pre sorted extra (st_balances st) Hv)).
    lra.
Qed.

Lemma dominated_remaining sorted b1 b2 :
  dominated b1 b2 -> remaining_of sorted b1 = [] -> remaining_of sorted b2 = [].
Proof.
  intros Hdom. unfold remaining_of.
  induction sorted as [|d r IH]; simpl; auto.
  destruct (unpaid b2 d) eqn:Hu2.
  - destruct (dominated_unpaid _ _ _ Hdom Hu2) as (_ & _ & _ & _ & _ & _ & Hu1).
    rewrite Hu1. discriminate.
  - destruct (unpaid b1 d); [discriminate|auto].
Qed.

Lemma lockstep_loop n sorted e1 e2 s1 s2 :
  Forall valid_debt sorted -> e1 <= e2 -> lockstep s1 s2 ->
  (st_month (loop n sorted e2 s2) <= st_month (loop n sorted e1 s1))%nat /\
  st_totalInterestPaid (loop n sorted e2 s2) <=
  st_totalInterestPaid (loop n sorted e1 s1).
Proof.
  intros Hv He. revert s1 s2. induction n as [|n IH]; intros s1 s2 Hls.
  - simpl. destruct Hls as [_ Hm Hi]. split; [lia|exact Hi].
  - pose proof (loop_month_ge (S n) sorted e1 s1) as Hge.
    pose proof (loop_interest_ge (S n) sorted e1 s1 Hv) as Hige.
    rewrite (loop_S n sorted e2 s2).
    destruct (st_month s2 <? maxMonths)%nat eqn:Hg2.
    + destruct (remaining_of sorted (st_balances s2)) eqn:Hr2.
      * destruct Hls as [_ Hm Hi]. split; [lia|lra].
      * clear Hge Hige. rewrite loop_S.
        rewrite <- (ls_month _ _ Hls), Hg2.
        destruct (remaining_of sorted (st_balances s1)) eqn:Hr1.
        -- rewrite (dominated_remaining _ _ _ (ls_balances _ _ Hls) Hr1) in Hr2.
           discriminate.
        -- apply IH. now apply lockstep_step.
    + destruct Hls as [_ Hm Hi]. split; [lia|lra].
Qed.

(** C3. Monotonic improvement: for valid debts, a fixed strategy and extra
    payments [e1 <= e2], the run with [e2] pays no more interest and takes no
    more months than the run with [e1].  (Neither the non-emptiness of the
    list nor the bounds [0 <= e1] and [e2 <= 100000] are needed.) *)
Theorem calculatePayoff_extra_monotone (ds : list DebtInput) (s : Strategy) (e1 e2 : Q) :
  Forall valid_debt ds -> e1 <= e2 ->
  r_totalInterest (calculatePayoff ds s e2) <= r_totalInterest (calculatePayoff ds s e1) /\
  (months (calculatePayoff ds s e2) <= months (calculatePayoff ds s e1))%nat.
Proof.
  intros Hv He.
  pose proof (sort_debts_valid s ds Hv) as Hvs.
  unfold calculatePayoff. cbn [r_totalInterest months].
  destruct (lockstep_loop maxMonths (sort_debts s ds) e1 e2
              (init_state (sort_debts s ds)) (init_state (sort_debts s ds))
              Hvs He) as [Hm Hi]; auto.
  constructor; simpl; auto using dominated_refl. lra.
Qed.

Lemma calculatePayoff_extra_monotone_witness :
  let ds := [mkDebt "a" "Card" 500 20 25; mkDebt "b" "Car" 3000 5 60] in
  r_totalInterest (calculatePayoff ds avalanche 100) <=
    r_totalInterest (calculatePayoff ds avalanche 50) /\
  (months (calculatePayoff ds avalanche 100) <= months (calculatePayoff ds avalanche 50))%nat.
Proof.
  intros ds.
  apply (calculatePayoff_extra_monotone ds avalanche 50 100).
  - repeat constructor; simpl; lra.
  - lra.
Defined.

(** ** The two strategies at zero extra payment *)

Lemma same_lookup_unpaid b1 b2 d : same_lookup b1 b2 -> unpaid b1 d = unpaid b2 d.
Proof. intros H. unfold unpaid. now rewrite H. Qed.

Lemma same_lookup_paid b1 b2 d : same_lookup b1 b2 -> paid b1 d = paid b2 d.
Proof. intros H. unfold paid. now rewrite H. Qed.

Lemma same_lookup_entry b1 b2 d :
  same_lookup b1 b2 -> first_pass_entry b1 d = first_pass_entry b2 d.
Proof. intros H. unfold first_pass_entry, bal_of. now rewrite H. Qed.

Lemma same_lookup_set b1 b2 k v :
  same_lookup b1 b2 -> same_lookup (Dict.set b1 k v) (Dict.set b2 k v).
Proof. intros H k'. rewrite !dict_get_set_any, H. reflexivity. Qed.

Lemma same_lookup_set_swap b1 b2 k1 v1 k2 v2 :
  k1 <> k2 -> same_lookup b1 b2 ->
  same_lookup (Dict.set (Dict.set b1 k1 v1) k2 v2)
              (Dict.set (Dict.set b2 k2 v2) k1 v1).
Proof.
  intros Hne H k. rewrite !dict_get_set_any, H.
  destruct (String.eqb_spec k1 k), (String.eqb_spec k2 k);
    destruct (String.eqb k1 Dict.proto), (String.eqb k2 Dict.proto);
    cbn [andb negb]; congruence.
Qed.

Lemma give_zero e : give (0 + 0) e = e.
Proof. reflexivity. Qed.

(** With two debts of distinct ids one month does the same to every balance
    whichever of the two comes first. *)
Lemma step_swap a b extra s1 s2 :
  id a <> id b -> extra = 0 ->
  same_lookup (st_balances s1) (st_balances s2) ->
  same_lookup (st_balances (step [a; b] extra s1))
              (st_balances (step [b; a] extra s2)).
Proof.
  intros Hne -> Hsame. rewrite !step_balances.
  unfold month_entries, remaining_of, freedMinimums, settle_balances. simpl filter.
  rewrite <- ?(same_lookup_unpaid _ _ a Hsame), <- ?(same_lookup_unpaid _ _ b Hsame),
          <- ?(same_lookup_paid _ _ a Hsame), <- ?(same_lookup_paid _ _ b Hsame).
  destruct (unpaid (st_balances s1) a) eqn:Ua;
    destruct (unpaid (st_balances s1) b) eqn:Ub;
    rewrite ?(unpaid_not_paid _ _ Ua), ?(unpaid_not_paid _ _ Ub);
    cbn [first_pass map];
    rewrite <- ?(same_lookup_entry _ _ a Hsame), <- ?(same_lookup_entry _ _ b Hsame).
  - cbn [fold_left extra_to_head]. rewrite !give_zero. cbn [fold_left].
    now apply same_lookup_set_swap.
  - destruct (paid (st_balances s1) b); cbn [fold_left extra_to_head];
      now apply same_lookup_set.
  - destruct (paid (st_balances s1) a); cbn [fold_left extra_to_head];
      now apply same_lookup_set.
  - cbn [fold_left extra_to_head]. exact Hsame.
Qed.

Lemma remaining_swap a b b1 b2 :
  same_lookup b1 b2 ->
  (remaining_of [a; b] b1 = [] <-> remaining_of [b; a] b2 = []).
Proof.
  intros Hsame. unfold remaining_of. simpl.
  rewrite <- !(same_lookup_unpaid _ _ _ Hsame).
  destruct (unpaid b1 a), (unpaid b1 b); split; congruence.
Qed.

Lemma loop_swap n a b s1 s2 :
  id a <> id b ->
  same_lookup (st_balances s1) (st_balances s2) ->
  st_month s1 = st_month s2 ->
  st_month (loop n [a; b] 0 s1) = st_month (loop n [b; a] 0 s2).
Proof.
  intros Hne. revert s1 s2. induction n as [|n IH]; intros s1 s2 Hsame Hm.
  - exact Hm.
  - rewrite !loop_S, Hm.
    destruct (st_month s2 <? maxMonths)%nat; [|exact Hm].
    pose proof (remaining_swap a b _ _ Hsame) as Hrem.
    destruct (remaining_of [a; b] (st_balances s1)) eqn:R1;
      destruct (remaining_of [b; a] (st_balances s2)) eqn:R2; auto.
    + destruct Hrem as [Hrem _]. specialize (Hrem eq_refl). discriminate.
    + destruct Hrem as [_ Hrem]. specialize (Hrem eq_refl). discriminate.
    + apply IH.
      * now apply step_swap.
      * rewrite !step_month. now rewrite Hm.
Qed.

Lemma init_swap a b :
  id a <> id b ->
  same_lookup (init_balances [a; b]) (init_balances [b; a]).
Proof.
  intros Hne. unfold init_balances. cbn [fold_left].
  apply same_lookup_set_swap; auto. intros k. reflexivity.
Qed.

Lemma sort_two s a b :
  sort_debts s [a; b] = [a; b] \/ sort_debts s [a; b] = [b; a].
Proof.
  unfold sort_debts. simpl. destruct (JS.leb (strategy_cmp s a b) 0); auto.
Qed.

Lemma months_swap a b :
  id a <> id b ->
  st_month (loop maxMonths [a; b] 0 (init_state [a; b])) =
  st_month (loop maxMonths [b; a] 0 (init_state [b; a])).
Proof.
  intros Hne. apply loop_swap; auto. now apply init_swap.
Qed.

(** C4, as stated, fails.  Three debts at 0%: A owes 350 (minimum 10),
    B owes 100 (minimum 10), Z owes 50 (minimum 100).  Z is paid in month 1
    and frees 100 a month; avalanche (stable on equal rates) sends it to A
    and finishes in 6 months, snowball sends it to B and finishes in 5. *)
Lemma strategies_differ_at_zero_extra :
  let ds := [mkDebt "A" "A" 350 0 10; mkDebt "B" "B" 100 0 10;
             mkDebt "Z" "Z" 50 0 100] in
  Forall valid_debt ds /\ NoDup (map id ds) /\
  months (calculatePayoff ds avalanche 0) = 6%nat /\
  months (calculatePayoff ds snowball 0) = 5%nat /\
  months (calculatePayoff ds avalanche 0) <> months (calculatePayoff ds snowball 0).
Proof.
  intros ds.
  assert (Ha : months (calculatePayoff ds avalanche 0) = 6%nat)
    by (vm_compute; reflexivity).
  assert (Hs : months (calculatePayoff ds snowball 0) = 5%nat)
    by (vm_compute; reflexivity).
  split; [repeat constructor; simpl; lra|].
  split; [simpl; repeat constructor; simpl; intuition discriminate|].
  rewrite Ha, Hs. split; [reflexivity|]. split; [reflexivity|]. discriminate.
Qed.

(** C4, amended.  With no extra payment and at most two debts of distinct
    ids the two strategies take the same number of months.  (With three or
    more debts the minimum freed by a paid-off debt goes to the first unpaid
    debt of the strategy's order, and the months can differ.) *)
Theorem strategies_agree_two_debts (ds : list DebtInput) :
  (List.length ds <= 2)%nat -> NoDup (map id ds) ->
  months (calculatePayoff ds avalanche 0) = months (calculatePayoff ds snowball 0).
Proof.
  intros Hlen Hnd. unfold calculatePayoff. cbn [months].
  destruct ds as [|a [|b [|c r]]].
  - change (sort_debts avalanche []) with (sort_debts snowball []). reflexivity.
  - change (sort_debts avalanche [a]) with (sort_debts snowball [a]). reflexivity.
  - assert (Hne : id a <> id b).
    { simpl in Hnd. inversion Hnd as [|x l Hx _]; subst.
      intros Heq. apply Hx. left. now symmetry. }
    destruct (sort_two avalanche a b) as [-> | ->];
      destruct (sort_two snowball a b) as [-> | ->]; auto.
    + now apply months_swap.
    + symmetry. now apply months_swap.
  - simpl in Hlen. lia.
Qed.

Lemma strategies_agree_two_debts_witness :
  let ds := [mkDebt "a" "Card" 500 20 25; mkDebt "b" "Car" 3000 5 60] in
  months (calculatePayoff ds avalanche 0) = months (calculatePayoff ds snowball 0).
Proof.
  intros ds. apply strategies_agree_two_debts.
  - simpl. lia.
  - simpl. repeat constructor; simpl; intuition discriminate.
Defined.

(** ** Results about [calculateHealthScore] *)

Lemma finite_div_pos a b : 0 < b -> finite_div a b = Some (a / b).
Proof.
  intros Hb. unfold finite_div.
  destruct (Qeq_bool b 0) eqn:E; auto.
  apply Qeq_bool_iff in E. lra.
Qed.

Lemma round_clamped x : 0 <= x <= 20 -> (0 <= JS.round x <= 20)%Z.
Proof.
  intros [H0 H20]. unfold JS.round. split.
  - change 0%Z with (Qfloor (0 + (1 # 2))). apply Qfloor_resp_le. lra.
  - change 20%Z with (Qfloor (20 + (1 # 2))). apply Qfloor_resp_le. lra.
Qed.

Lemma savings_score_bounds x :
  0 <= inject_Z (JS.round (Qmin 20 (Qmax 0 x))) <= 20.
Proof.
  assert (H : 0 <= Qmin 20 (Qmax 0 x) <= 20) by (split_minmax; lra).
  apply round_clamped in H. destruct H as [H0 H20].
  split.
  - change 0 with (inject_Z 0). now rewrite <- Zle_Qle.
  - change 20 with (inject_Z 20). now rewrite <- Zle_Qle.
Qed.

(** Income 5000, expenses 4000, no debt, 12000 of emergency savings: savings
    rate 20% (score 20), DTI 0 (score 20), 3 months of cover (score 14),
    overall 78, grade C. *)
Example health_score_scenario :
  exists r,
    calculateHealthScore (mkHealthInput 5000 4000 0 10000 0 12000 0) = Some r /\
    score (c_savingsRate (components r)) == 20 /\
    score (c_debtToIncome (components r)) == 20 /\
    score (c_emergencyFund (components r)) == 14 /\
    overallScore r = 78%Z /\ grade r = "C"%string /\
    label (c_savingsRate (components r)) = "20.0% savings rate"%string /\
    recommendations r =
      ["Grow emergency fund from 3.0 to 6 months of expenses"%string].
Proof.
  eexists. split; [vm_compute; reflexivity|].
  repeat split; vm_compute; reflexivity.
Qed.

(** C6. [calculateHealthScore] always returns a result: every division is
    guarded by a positivity test on its divisor, so no [NaN] or infinity
    arises.  The savings score lies in 0..20.  With [monthlyIncome <= 0] the
    savings-rate value and score are 0 and the debt-to-income value is 100;
    with [monthlyExpenses <= 0] the emergency-fund value is 0. *)
Theorem calculateHealthScore_total (input : HealthScoreInput) :
  exists r,
    calculateHealthScore input = Some r /\
    0 <= score (c_savingsRate (components r)) <= 20 /\
    (monthlyIncome input <= 0 ->
       value (c_savingsRate (components r)) = 0 /\
       score (c_savingsRate (components r)) = 0 /\
       value (c_debtToIncome (components r)) = 100) /\
    (monthlyExpenses input <= 0 ->
       value (c_emergencyFund (components r)) = 0).
Proof.
  unfold calculateHealthScore.
  destruct (JS.gtb (monthlyIncome input) 0) eqn:Hi;
    destruct (JS.gtb (monthlyExpenses input) 0) eqn:He;
    try apply gtb_true in Hi; try apply gtb_true in He;
    try apply gtb_false in Hi; try apply gtb_false in He;
    rewrite ?(finite_div_pos _ (monthlyIncome input)) by lra;
    rewrite ?(finite_div_pos _ (monthlyIncome input * 12)) by lra;
    rewrite ?(finite_div_pos _ (monthlyExpenses input)) by lra;
    cbn [obind]; eexists; (split; [reflexivity|]);
    cbn [components c_savingsRate c_debtToIncome c_emergencyFund score value];
    (split; [apply savings_score_bounds|]);
    split; intros; try lra; auto.
Qed.

Lemma calculateHealthScore_total_witness :
  exists r,
    calculateHealthScore (mkHealthInput 0 0 100 10000 0 12000 80) = Some r /\
    value (c_savingsRate (components r)) = 0 /\
    score (c_savingsRate (components r)) = 0 /\
    value (c_debtToIncome (components r)) = 100 /\
    value (c_emergencyFund (components r)) = 0.
Proof.
  destruct (calculateHealthScore_total (mkHealthInput 0 0 100 10000 0 12000 80))
    as (r & Hr & _ & Hincome & Hexpenses).
  exists r. split; [exact Hr|].
  destruct Hincome as (H1 & H2 & H3); [simpl; lra|].
  repeat split; auto. apply Hexpenses. simpl. lra.
Defined.

(** ** Results about [forecastCashFlow] *)

Lemma income_pass_spec dom flows a ls :
  income_pass dom flows (a, ls) =
  (fold_left Qplus (map amount (filter (on_day dom) flows)) a,
   ls ++ map (fun f => ("+" ++ description f)%string) (filter (on_day dom) flows)).
Proof.
  unfold income_pass. revert a ls.
  induction flows as [|f r IH]; intros a ls; simpl.
  - now rewrite app_nil_r.
  - destruct (on_day dom f); simpl; rewrite IH; auto.
    now rewrite <- app_assoc.
Qed.

Lemma expense_pass_spec dom flows a ls :
  expense_pass dom flows (a, ls) =
  (fold_left Qplus (map (fun f => Qabs (amount f)) (filter (on_day dom) flows)) a,
   ls ++ map (fun f => ("-" ++ description f)%string) (filter (on_day dom) flows)).
Proof.
  unfold expense_pass. revert a ls.
  induction flows as [|f r IH]; intros a ls; simpl.
  - now rewrite app_nil_r.
  - destruct (on_day dom f); simpl; rewrite IH; auto.
    now rewrite <- app_assoc.
Qed.

Lemma forecast_day_spec today isoDate cur inc exp d :
  forecast_day today isoDate inc exp d (running today cur inc exp d) =
  (running today cur inc exp (S d), day_record today isoDate cur inc exp d).
Proof.
  unfold forecast_day. rewrite income_pass_spec, expense_pass_spec.
  unfold day_record, day_income, day_expense, day_labels, matching, dom_of, sumQ.
  cbn [running app]. f_equal. f_equal.
  unfold label_of, day_income, day_expense, matching, dom_of, sumQ.
  destruct (_ ++ _); reflexivity.
Qed.

Lemma forecast_loop_spec today isoDate cur inc exp n d acc :
  forecast_loop today isoDate inc exp n d (running today cur inc exp d) acc =
  acc ++ map (day_record today isoDate cur inc exp) (seq d n).
Proof.
  revert d acc. induction n as [|n IH]; intros d acc.
  - simpl. now rewrite app_nil_r.
  - cbn [forecast_loop]. rewrite forecast_day_spec, IH.
    rewrite <- app_assoc. reflexivity.
Qed.

Lemma forecastCashFlow_spec today isoDate cur inc exp days :
  forecastCashFlow today isoDate cur inc exp days =
  map (day_record today isoDate cur inc exp) (seq 0 days).
Proof.
  unfold forecastCashFlow.
  change cur with (running today cur inc exp 0) at 1.
  now rewrite forecast_loop_spec.
Qed.

Lemma round_cents_compat x y : x == y -> JS.round_cents x == JS.round_cents y.
Proof.
  intros H. unfold JS.round_cents, JS.round.
  rewrite (Qfloor_comp (x * 100 + (1 # 2)) (y * 100 + (1 # 2))); [reflexivity|].
  rewrite H. reflexivity.
Qed.

(** C7. For each day [d] of the forecast, the record is there and:
    [income] and [expenses] are the sums of the amounts (absolute values for
    expenses) of the flows whose [dayOfMonth] is that date's day of the
    month; [projectedBalance] is the running balance of the previous day plus
    that income minus those expenses, rounded to cents; [label] joins the
    matched descriptions, incomes prefixed [+] and then expenses prefixed
    [-], and is absent when nothing matched, in which case the balance is
    that of the previous day. *)
Theorem forecastCashFlow_day today isoDate cur inc exp days d :
  (d < days)%nat ->
  exists e,
    nth_error (forecastCashFlow today isoDate cur inc exp days) d = Some e /\
    income e = day_income today inc d /\
    expenses e = day_expense today exp d /\
    projectedBalance e =
      JS.round_cents (running today cur inc exp d + day_income today inc d
                      - day_expense today exp d) /\
    f_label e = label_of (day_labels today inc exp d) /\
    (matching today inc d = [] -> matching today exp d = [] ->
       f_label e = None /\
       running today cur inc exp (S d) == running today cur inc exp d /\
       projectedBalance e == JS.round_cents (running today cur inc exp d) /\
       forall k e', d = S k ->
         nth_error (forecastCashFlow today isoDate cur inc exp days) k = Some e' ->
         projectedBalance e == projectedBalance e').
Proof.
  intros Hd. exists (day_record today isoDate cur inc exp d).
  rewrite forecastCashFlow_spec.
  assert (Hnth : forall k, (k < days)%nat ->
            nth_error (map (day_record today isoDate cur inc exp) (seq 0 days)) k =
            Some (day_record today isoDate cur inc exp k)).
  { intros k Hk. rewrite nth_error_map, nth_error_seq.
    destruct (Nat.ltb_spec k days); [reflexivity|lia]. }
  split; [now apply Hnth|].
  repeat (split; [reflexivity|]).
  intros Hi He.
  assert (Hsame : running today cur inc exp (S d) == running today cur inc exp d).
  { cbn [running]. unfold day_income, day_expense. rewrite Hi, He. simpl.
    rewrite !sumQ_nil. ring. }
  split.
  { unfold day_record, day_labels. cbn [f_label]. rewrite Hi, He. reflexivity. }
  split; [exact Hsame|].
  split.
  { unfold day_record. cbn [projectedBalance]. apply round_cents_compat. exact Hsame. }
  intros k e' -> Hk. rewrite Hnth in Hk by lia. injection Hk as <-.
  unfold day_record. cbn [projectedBalance]. apply round_cents_compat.
  exact Hsame.
Qed.

Lemma forecastCashFlow_day_witness :
  exists e,
    nth_error (forecastCashFlow (Calendar.mkDate 2026 2 27) (fun _ => ""%string)
                 1000 [mkFlow 2000 1 "Pay"] [mkFlow (-500) 15 "Rent"] 31) 2 = Some e /\
    projectedBalance e == 3000 /\ f_label e = Some "+Pay"%string.
Proof.
  destruct (forecastCashFlow_day (Calendar.mkDate 2026 2 27) (fun _ => ""%string)
              1000 [mkFlow 2000 1 "Pay"] [mkFlow (-500) 15 "Rent"] 31 2)
    as (e & Hn & _ & _ & Hb & Hl & _); [lia|].
  exists e. split; [exact Hn|]. rewrite Hb, Hl. split; vm_compute; reflexivity.
Defined.

(** ** Results about the deterministic projection *)

Lemma growth_months_add n m r a st :
  growth_months (n + m) r a st = growth_months m r a (growth_months n r a st).
Proof.
  revert st. induction n as [|n IH]; intros [b c]; simpl; auto.
Qed.

Lemma growth_months_fst n r a b c :
  fst (growth_months n r a (b, c)) = compound n r a b.
Proof.
  unfold compound. revert b c. induction n as [|n IH]; intros b c.
  - reflexivity.
  - cbn [growth_months]. rewrite IH. now rewrite Nat.iter_succ_r.
Qed.

Lemma growth_months_snd n r a b c :
  snd (growth_months n r a (b, c)) == c + inject_Z (Z.of_nat n) * a.
Proof.
  revert b c. induction n as [|n IH]; intros b c.
  - simpl. ring.
  - cbn [growth_months]. rewrite IH, Nat2Z.inj_succ, <- Z.add_1_r, inject_Z_plus.
    simpl (inject_Z 1). ring.
Qed.

Lemma growth_years_spec n y r a st acc :
  growth_years n y r a st acc =
  acc ++ map (fun k => year_entry (y + k) (growth_months (12 * S k) r a st)) (seq 0 n).
Proof.
  revert y st acc. induction n as [|n IH]; intros y st acc.
  - simpl. now rewrite app_nil_r.
  - cbn [growth_years].
    destruct (growth_months 12 r a st) as [b c] eqn:E.
    rewrite IH, <- app_assoc. f_equal.
    cbn [seq map app]. f_equal.
    + rewrite Nat.add_0_r. change (12 * 1)%nat with 12%nat. rewrite E. reflexivity.
    + rewrite <- seq_shift, map_map. apply map_ext. intros k.
      replace (12 * S (S k))%nat with (12 + 12 * S k)%nat by lia.
      rewrite growth_months_add, E. f_equal. lia.
Qed.

(** C9. The entry for year [y] of the deterministic projection holds the
    balance after [12 * y] applications of
    [balance = balance * (1 + annualReturnPercent/100/12) + contribution],
    [contributions = initialBalance + 12 * y * monthlyContribution] and
    [growth = balance - contributions], each rounded to cents. *)
Theorem project_year (years : nat) (annualReturnPct monthlyAdd currentBalance : Q) (y : nat) :
  (1 <= y <= years)%nat ->
  exists e,
    nth_error (project years annualReturnPct monthlyAdd currentBalance) (y - 1) = Some e /\
    g_year e = y /\
    g_balance e ==
      JS.round_cents (compound (12 * y) (annualReturnPct / 100 / 12) monthlyAdd
                        currentBalance) /\
    contributions e ==
      JS.round_cents (currentBalance + 12 * inject_Z (Z.of_nat y) * monthlyAdd) /\
    growth e ==
      JS.round_cents
        (compound (12 * y) (annualReturnPct / 100 / 12) monthlyAdd currentBalance
         - (currentBalance + 12 * inject_Z (Z.of_nat y) * monthlyAdd)).
Proof.
  intros Hy. unfold project. rewrite growth_years_spec. cbn [app].
  destruct y as [|k]; [lia|].
  replace (S k - 1)%nat with k by lia.
  set (r := annualReturnPct / 100 / 12).
  set (st := growth_months (12 * S k) r monthlyAdd (currentBalance, currentBalance)).
  exists (year_entry (S k) st).
  assert (Hfst : fst st = compound (12 * S k) r monthlyAdd currentBalance)
    by apply growth_months_fst.
  assert (Hsnd : snd st == currentBalance + 12 * inject_Z (Z.of_nat (S k)) * monthlyAdd).
  { unfold st. rewrite growth_months_snd.
    rewrite Nat2Z.inj_mul, inject_Z_mult. simpl (inject_Z (Z.of_nat 12)). ring. }
  split.
  - rewrite nth_error_map, nth_error_seq.
    destruct (Nat.ltb_spec k years); [reflexivity|lia].
  - unfold year_entry. cbn [g_year g_balance contributions growth].
    rewrite Hfst. repeat split; try reflexivity.
    + apply round_cents_compat. exact Hsnd.
    + apply round_cents_compat. rewrite Hsnd. reflexivity.
Qed.

Lemma project_year_witness :
  exists e,
    nth_error (project 2 12 100 1000) 1 = Some e /\
    g_year e = 2%nat /\ contributions e == 3400.
Proof.
  destruct (project_year 2 12 100 1000 2) as (e & Hn & Hy & _ & Hc & _); [lia|].
  exists e. split; [exact Hn|]. split; [exact Hy|].
  rewrite Hc. vm_compute. reflexivity.
Defined.

(** ** Results about the Monte Carlo bands *)

Lemma insert_In {A} (cmp : A -> A -> Q) (x y : A) (l : list A) :
  In y (JS.insert cmp x l) -> y = x \/ In y l.
Proof.
  intros H. apply (Permutation_in _ (insert_perm cmp x l)) in H.
  destruct H; auto.
Qed.

Lemma insert_sorted (x : Q) (l : list Q) :
  StronglySorted Qle l -> StronglySorted Qle (JS.insert (fun a b => a - b) x l).
Proof.
  induction 1 as [|y ys Hs IH Hy]; simpl.
  - repeat constructor.
  - destruct (JS.leb (x - y) 0) eqn:E.
    + apply leb_true in E. constructor.
      * now constructor.
      * constructor; [lra|].
        eapply Forall_impl; [|exact Hy]. cbv beta. intros; lra.
    + apply leb_false in E. constructor; auto.
      rewrite Forall_forall in *. intros z Hz.
      apply insert_In in Hz. destruct Hz as [->|Hz]; [lra|auto].
Qed.

Lemma sort_sorted (l : list Q) :
  StronglySorted Qle (JS.sort (fun a b => a - b) l).
Proof.
  induction l as [|x xs IH]; simpl.
  - constructor.
  - now apply insert_sorted.
Qed.

Lemma sort_length {A} (cmp : A -> A -> Q) (l : list A) :
  List.length (JS.sort cmp l) = List.length l.
Proof. apply Permutation_length, sort_perm. Qed.

Lemma sorted_nth_le (l : list Q) (i j : nat) :
  StronglySorted Qle l -> (i <= j)%nat -> (j < List.length l)%nat ->
  nth i l 0 <= nth j l 0.
Proof.
  intros Hs. revert i j. induction Hs as [|x xs Hs IH Hx]; intros i j Hij Hj.
  - simpl in Hj. lia.
  - destruct i as [|i], j as [|j]; simpl in *; try lia.
    + lra.
    + rewrite Forall_forall in Hx. apply Hx, nth_In. lia.
    + apply IH; lia.
Qed.

Lemma sorted_nth_in (l : list Q) (i : nat) :
  (i < List.length l)%nat -> nth_error (map Some l) i = Some (Some (nth i l 0)).
Proof.
  intros Hi. rewrite nth_error_map, (nth_error_nth' l 0 Hi). reflexivity.
Qed.

Lemma defined_some (l : list Q) : defined (map Some l) = l.
Proof.
  unfold defined. induction l as [|x l IH]; [reflexivity|].
  cbn [map flat_map app]. now rewrite IH.
Qed.

Lemma undefineds_some (l : list Q) : undefineds (map Some l) = [].
Proof. unfold undefineds. induction l as [|x l IH]; [reflexivity|exact IH]. Qed.

Lemma sort_values_some (l : list Q) :
  sort_values (map Some l) = map Some (JS.sort (fun a b => a - b) l).
Proof.
  unfold sort_values. now rewrite defined_some, undefineds_some, app_nil_r.
Qed.

Lemma sort_values_none (n : nat) : sort_values (repeat None n) = repeat None n.
Proof.
  assert (Hd : defined (repeat None n) = []).
  { unfold defined. induction n as [|n IH]; [reflexivity|exact IH]. }
  assert (Hu : undefineds (repeat None n) = repeat None n).
  { unfold undefineds. induction n as [|n IH]; [reflexivity|].
    cbn [repeat filter]. now rewrite IH. }
  unfold sort_values. now rewrite Hd, Hu.
Qed.

(** A year every trial reached: the cells read are numbers. *)
Lemma values_reached (runs : list (list Q)) (y : nat) :
  Forall (fun r => (y < List.length r)%nat) runs ->
  map (fun r => nth_error r y) runs = map Some (map (fun r => nth y r 0) runs).
Proof.
  intros H. rewrite map_map. apply map_ext_in. intros r Hr.
  rewrite Forall_forall in H. now apply nth_error_nth'; apply H.
Qed.

(** A year no trial reached: every cell read is [undefined]. *)
Lemma values_missing (runs : list (list Q)) (y : nat) :
  Forall (fun r => (List.length r <= y)%nat) runs ->
  map (fun r => nth_error r y) runs = repeat None (List.length runs).
Proof.
  induction 1 as [|r runs Hr _ IH]; [reflexivity|].
  cbn [map List.length repeat]. rewrite IH. f_equal. now apply nth_error_None.
Qed.

Lemma band_reached (runs : list (list Q)) (y : nat) :
  List.length runs = 50%nat ->
  Forall (fun r => (y < List.length r)%nat) runs ->
  ordered (band runs y).
Proof.
  intros Hlen Hall. unfold ordered, band, getPercentile. cbn [low mid high].
  rewrite (values_reached runs y Hall), sort_values_some.
  set (values := JS.sort (fun a b => a - b) (map (fun r => nth y r 0) runs)).
  assert (Hl : List.length values = 50%nat).
  { unfold values. now rewrite sort_length, List.length_map. }
  assert (Hs : StronglySorted Qle values) by apply sort_sorted.
  rewrite List.length_map, Hl.
  change (Z.to_nat (Qfloor (inject_Z (Z.of_nat 50) * 0.1))) with 5%nat.
  change (Z.to_nat (Qfloor (inject_Z (Z.of_nat 50) * 0.5))) with 25%nat.
  change (Z.to_nat (Qfloor (inject_Z (Z.of_nat 50) * 0.9))) with 45%nat.
  rewrite !sorted_nth_in by lia.
  split; apply sorted_nth_le; auto; lia.
Qed.

Lemma band_missing (runs : list (list Q)) (y : nat) :
  List.length runs = 50%nat ->
  Forall (fun r => (List.length r <= y)%nat) runs ->
  band runs y = undefined_band.
Proof.
  intros Hlen Hall. unfold band, getPercentile, undefined_band.
  rewrite (values_missing runs y Hall), sort_values_none, repeat_length, Hlen.
  reflexivity.
Qed.

Lemma sim_years_length random add n avg std bal results draws :
  List.length (fst (sim_years random add n avg std bal results draws)) =
  (List.length results + n)%nat.
Proof.
  revert bal results draws. induction n as [|n IH]; intros bal results draws.
  - simpl. lia.
  - cbn [sim_years].
    destruct (sim_months random add 12 avg std bal draws) as [bal' draws'].
    rewrite IH, List.length_app. simpl. lia.
Qed.

(** Every run holds one balance per simulated year. *)
Lemma runSimulation_length random years cur add avg std draws :
  List.length (fst (runSimulation random years cur add avg std draws)) =
  year_iterations years.
Proof. unfold runSimulation. now rewrite sim_years_length. Qed.

(** The three lists of runs: [n] more runs each, all of one length. *)
Lemma collect_runs_length random years cur add n rs draws :
  let rs' := fst (collect_runs random years cur add n rs draws) in
  let full := Forall (fun r : list Q => List.length r = year_iterations years) in
  (List.length (conservativeRuns rs') = (List.length (conservativeRuns rs) + n)%nat /\
   List.length (moderateRuns rs') = (List.length (moderateRuns rs) + n)%nat /\
   List.length (aggressiveRuns rs') = (List.length (aggressiveRuns rs) + n)%nat) /\
  (full (conservativeRuns rs) -> full (moderateRuns rs) -> full (aggressiveRuns rs) ->
   full (conservativeRuns rs') /\ full (moderateRuns rs') /\ full (aggressiveRuns rs')).
Proof.
  revert rs draws. induction n as [|n IH]; intros rs draws.
  - simpl. split; [lia|tauto].
  - cbn [collect_runs].
    pose proof (runSimulation_length random years cur add 0.05 0.08 draws) as Lc.
    destruct (runSimulation random years cur add 0.05 0.08 draws) as [c d1].
    pose proof (runSimulation_length random years cur add 0.07 0.12 d1) as Lm.
    destruct (runSimulation random years cur add 0.07 0.12 d1) as [m d2].
    pose proof (runSimulation_length random years cur add 0.10 0.18 d2) as La.
    destruct (runSimulation random years cur add 0.10 0.18 d2) as [a d3].
    cbn [fst] in Lc, Lm, La.
    specialize (IH (mkRuns (conservativeRuns rs ++ [c]) (moderateRuns rs ++ [m])
                      (aggressiveRuns rs ++ [a])) d3).
    cbv zeta in *. cbn [conservativeRuns moderateRuns aggressiveRuns] in IH.
    rewrite !List.length_app in IH. simpl List.length in IH.
    destruct IH as [IHl IHf]. split; [lia|].
    intros Hc Hm Ha. apply IHf; apply Forall_app; split; auto.
Qed.

Lemma mc_years_spec n y rs acc :
  mc_years n y rs acc =
  acc ++ map (fun k => mkMonteCarlo (y + k + 1) (band (conservativeRuns rs) (y + k))
                         (band (moderateRuns rs) (y + k))
                         (band (aggressiveRuns rs) (y + k)))
             (seq 0 n).
Proof.
  revert y acc. induction n as [|n IH]; intros y acc.
  - simpl. now rewrite app_nil_r.
  - cbn [mc_years]. rewrite IH, <- app_assoc. f_equal.
    cbn [seq map app]. rewrite !Nat.add_0_r. f_equal.
    rewrite <- seq_shift, map_map. apply map_ext. intros k.
    replace (S y + k)%nat with (y + S k)%nat by lia. reflexivity.
Qed.

(** The series in closed form: [band_iterations years] entries read from
    three lists of 50 runs of [year_iterations years] balances each. *)
Lemma monteCarlo_entries random years cur add :
  exists rs,
    monteCarlo random years cur add =
    map (fun k => mkMonteCarlo (k + 1) (band (conservativeRuns rs) k)
                   (band (moderateRuns rs) k) (band (aggressiveRuns rs) k))
        (seq 0 (band_iterations years)) /\
    (forall k, (k < year_iterations years)%nat ->
       ordered (band (conservativeRuns rs) k) /\
       ordered (band (moderateRuns rs) k) /\
       ordered (band (aggressiveRuns rs) k)) /\
    (forall k, (year_iterations years <= k)%nat ->
       band (conservativeRuns rs) k = undefined_band /\
       band (moderateRuns rs) k = undefined_band /\
       band (aggressiveRuns rs) k = undefined_band).
Proof.
  unfold monteCarlo.
  pose proof (collect_runs_length random years cur add 50 (mkRuns [] [] []) 0) as H.
  destruct (collect_runs random years cur add 50 (mkRuns [] [] []) 0) as [rs d].
  cbv zeta in H. cbn [fst conservativeRuns moderateRuns aggressiveRuns] in H.
  destruct H as [(Lc & Lm & La) Hfull].
  destruct Hfull as (Fc & Fm & Fa); try constructor.
  exists rs. split; [|split].
  - rewrite mc_years_spec. reflexivity.
  - intros k Hk.
    repeat split; apply band_reached; auto;
      (eapply Forall_impl; [|eassumption]); cbv beta; intros r Hr; lia.
  - intros k Hk.
    repeat split; apply band_missing; auto;
      (eapply Forall_impl; [|eassumption]); cbv beta; intros r Hr; lia.
Qed.

(** C8 fails on the code when [years] is not an integer, which the handler
    lets through.  With [years = 2.5] the trials simulate 2 years and the
    series has 3 entries: the first two have [low <= mid <= high] in each
    profile, the third (year 3) has no percentile at all. *)
Theorem monteCarlo_fractional_years (random : Random) (currentBalance monthlyAdd : Q) :
  exists e1 e2 e3,
    monteCarlo random (5 # 2) currentBalance monthlyAdd = [e1; e2; e3] /\
    entry_ordered e1 /\ entry_ordered e2 /\
    mc_year e3 = 3%nat /\
    conservative e3 = undefined_band /\ moderate e3 = undefined_band /\
    aggressive e3 = undefined_band /\
    ~ entry_ordered e3.
Proof.
  destruct (monteCarlo_entries random (5 # 2) currentBalance monthlyAdd)
    as (rs & Hmc & Hord & Hund).
  change (band_iterations (5 # 2)) with 3%nat in Hmc.
  change (year_iterations (5 # 2)) with 2%nat in Hord, Hund.
  cbn [seq map Nat.add] in Hmc.
  do 3 eexists. split; [exact Hmc|].
  destruct (Hund 2%nat ltac:(lia)) as (Uc & Um & Ua).
  unfold entry_ordered. cbn [conservative moderate aggressive mc_year].
  split; [apply (Hord 0%nat); lia|]. split; [apply (Hord 1%nat); lia|].
  split; [reflexivity|]. split; [exact Uc|]. split; [exact Um|].
  split; [exact Ua|].
  rewrite Uc. intros [[] _].
Qed.

(** * Further results *)

(** ** The order of attack *)

Lemma insert_key_sorted {A} (key : A -> Q) (cmp : A -> A -> Q) (x : A) (l : list A) :
  (forall a b, cmp a b == key a - key b) ->
  StronglySorted (fun a b => key a <= key b) l ->
  StronglySorted (fun a b => key a <= key b) (JS.insert cmp x l).
Proof.
  intros Hcmp. induction 1 as [|y ys Hs IH Hy]; simpl.
  - repeat constructor.
  - destruct (JS.leb (cmp x y) 0) eqn:E.
    + apply leb_true in E. rewrite Hcmp in E. constructor.
      * now constructor.
      * constructor; [lra|].
        eapply Forall_impl; [|exact Hy]. cbv beta. intros; lra.
    + apply leb_false in E. rewrite Hcmp in E. constructor; auto.
      rewrite Forall_forall in *. intros z Hz.
      apply insert_In in Hz. destruct Hz as [->|Hz]; [lra|auto].
Qed.

Lemma sort_key_sorted {A} (key : A -> Q) (cmp : A -> A -> Q) (l : list A) :
  (forall a b, cmp a b == key a - key b) ->
  StronglySorted (fun a b => key a <= key b) (JS.sort cmp l).
Proof.
  intros Hcmp. induction l as [|x xs IH]; simpl.
  - constructor.
  - now apply insert_key_sorted.
Qed.

Lemma StronglySorted_impl {A} (R S : A -> A -> Prop) (l : list A) :
  (forall a b, R a b -> S a b) -> StronglySorted R l -> StronglySorted S l.
Proof.
  intros HRS. induction 1 as [|x xs Hs IH Hx]; constructor; auto.
  eapply Forall_impl; [|exact Hx]. auto.
Qed.

(** X1. The sorted list is a rearrangement of the debts in which every debt
    comes before all debts of lower priority: rates never increase along
    the avalanche order, balances never decrease along the snowball order. *)
Theorem sort_debts_ordered (s : Strategy) (ds : list DebtInput) :
  Permutation (sort_debts s ds) ds /\
  StronglySorted (strategy_le s) (sort_debts s ds).
Proof.
  split; [apply sort_perm|]. unfold sort_debts. destruct s.
  - apply StronglySorted_impl with (R := fun a b => - rate a <= - rate b).
    + simpl. intros; lra.
    + apply sort_key_sorted. intros a b. simpl. ring.
  - apply sort_key_sorted. intros a b. simpl. ring.
Qed.

(** ** Totals of the result *)

Lemma totals_step sorted extra st :
  st_totalPaid st == sumQ (map totalPayment (st_schedule st)) /\
  st_totalInterestPaid st == sumQ (map totalInterest (st_schedule st)) ->
  st_totalPaid (step sorted extra st) ==
    sumQ (map totalPayment (st_schedule (step sorted extra st))) /\
  st_totalInterestPaid (step sorted extra st) ==
    sumQ (map totalInterest (st_schedule (step sorted extra st))).
Proof.
  intros [Hp Hi].
  rewrite step_totalPaid, step_totalInterest, step_schedule, !map_app, !sumQ_app.
  cbn [map totalPayment totalInterest]. rewrite !sumQ_cons, !sumQ_nil, Hp, Hi.
  split; ring.
Qed.

(** X2. [totalPaid] is the sum of the months' [totalPayment], and
    [totalInterest] the sum of the months' [totalInterest]. *)
Theorem calculatePayoff_totals (ds : list DebtInput) (s : Strategy) (extraMonthly : Q) :
  let r := calculatePayoff ds s extraMonthly in
  totalPaid r == sumQ (map totalPayment (schedule r)) /\
  r_totalInterest r == sumQ (map totalInterest (schedule r)).
Proof.
  intros r. unfold r, calculatePayoff. cbn [totalPaid r_totalInterest schedule].
  apply (loop_invariant
           (fun st => st_totalPaid st == sumQ (map totalPayment (st_schedule st)) /\
                      st_totalInterestPaid st ==
                        sumQ (map totalInterest (st_schedule st)))).
  - intros st H _. now apply totals_step.
  - simpl. rewrite sumQ_nil. split; reflexivity.
Qed.

(** ** Nothing to pay *)

Lemma init_balances_from sorted k v :
  Dict.get (init_balances sorted) k = Some v ->
  exists d, In d sorted /\ id d = k /\ balance d = v.
Proof.
  unfold init_balances.
  assert (Hgen : forall l b,
            (forall k v, Dict.get b k = Some v ->
                         exists d, In d sorted /\ id d = k /\ balance d = v) ->
            (forall d, In d l -> In d sorted) ->
            forall k v,
              Dict.get (fold_left (fun b d => Dict.set b (id d) (balance d)) l b) k
                = Some v ->
              exists d, In d sorted /\ id d = k /\ balance d = v).
  { induction l as [|d r IH]; intros b Hb Hin k' v'; simpl; auto.
    apply IH.
    - intros k0 v0. rewrite dict_get_set_any.
      destruct (String.eqb (id d) k0 && negb (String.eqb (id d) Dict.proto))
        eqn:E; [|apply Hb].
      apply andb_true_iff in E. destruct E as [E _]. apply String.eqb_eq in E.
      subst k0. intros [= <-]. exists d. repeat split. apply Hin. now left.
    - intros d' Hd'. apply Hin. now right. }
  apply (Hgen sorted []); auto.
  intros k0 v0. unfold Dict.get.
  destruct (String.eqb k0 Dict.proto); discriminate.
Qed.

(** X3. When no debt has a balance above 0.01 (the empty list included) the
    loop body never runs: zero months, nothing paid, empty schedule and
    empty payoff order. *)
Theorem calculatePayoff_nothing_owed (ds : list DebtInput) (s : Strategy) (extraMonthly : Q) :
  Forall (fun d => balance d <= 0.01) ds ->
  calculatePayoff ds s extraMonthly = mkResult s 0 0 0 [] [].
Proof.
  intros Hall.
  assert (Hs : Forall (fun d => balance d <= 0.01) (sort_debts s ds)).
  { eapply Permutation_Forall; [|exact Hall]. symmetry. apply sort_perm. }
  assert (Hrem : remaining_of (sort_debts s ds) (init_balances (sort_debts s ds)) = []).
  { unfold remaining_of.
    generalize (init_balances_from (sort_debts s ds)).
    generalize (init_balances (sort_debts s ds)) as b. intros b Hb.
    rewrite Forall_forall in Hs.
    assert (Hnone : forall l, filter (unpaid b) l = []).
    { induction l as [|d r IH]; simpl; auto.
      unfold unpaid at 1. destruct (Dict.get b (id d)) as [v|] eqn:Hg; simpl; auto.
      destruct (Hb _ _ Hg) as (d' & Hin & _ & Hv).
      specialize (Hs d' Hin). rewrite Hv in Hs.
      apply gtb_false in Hs. now rewrite Hs. }
    apply Hnone. }
  unfold calculatePayoff. change maxMonths with (S 359). rewrite loop_S.
  cbn [init_state st_month st_balances]. rewrite Hrem.
  reflexivity.
Qed.

Lemma calculatePayoff_nothing_owed_witness :
  calculatePayoff [mkDebt "a" "Settled" 0 19 25; mkDebt "b" "Rounding" 0.01 5 60]
    snowball 100 = mkResult snowball 0 0 0 [] [].
Proof.
  apply calculatePayoff_nothing_owed.
  repeat constructor; simpl; lra.
Defined.

(** ** The extra payment has a single target *)

Lemma first_pass_at_minimum sorted b l :
  (forall d, In d l -> In d sorted) ->
  Forall (fun e => exists d, In d sorted /\ id d = e_id e /\ name d = e_name e /\
                             e_payment e <= minimum d)
         (map settle (first_pass b l)).
Proof.
  intros Hin. unfold first_pass. rewrite !Forall_map, Forall_forall.
  intros d Hd. exists d. unfold settle, first_pass_entry.
  cbn [e_id e_name e_payment]. repeat split; auto.
  split_minmax; lra.
Qed.

Lemma step_tail_at_minimum sorted extra st :
  Forall (tail_at_minimum sorted) (st_schedule st) ->
  Forall (tail_at_minimum sorted) (st_schedule (step sorted extra st)).
Proof.
  intros H. rewrite step_schedule. apply Forall_app. split; auto.
  constructor; auto. unfold tail_at_minimum, month_entries. cbn [debts].
  assert (Hsub : forall d, In d (remaining_of sorted (st_balances st)) -> In d sorted).
  { intros d Hd. apply filter_In in Hd. tauto. }
  destruct (remaining_of sorted (st_balances st)) as [|d r]; cbn [first_pass map extra_to_head tl].
  - constructor.
  - apply (first_pass_at_minimum sorted (st_balances st) r).
    intros d' Hd'. apply Hsub. now right.
Qed.

(** X4. The extra budget goes to one debt a month: in every month of the
    schedule, every entry after the first is paid at most the minimum
    payment of the debt it belongs to. *)
Theorem calculatePayoff_single_target (ds : list DebtInput) (s : Strategy) (extraMonthly : Q) :
  Forall (tail_at_minimum ds) (schedule (calculatePayoff ds s extraMonthly)).
Proof.
  unfold calculatePayoff. cbn [schedule].
  assert (H : Forall (tail_at_minimum (sort_debts s ds))
                (st_schedule (loop maxMonths (sort_debts s ds) extraMonthly
                                (init_state (sort_debts s ds))))).
  { apply (loop_invariant
             (fun st => Forall (tail_at_minimum (sort_debts s ds)) (st_schedule st))).
    - intros st Hst _. now apply step_tail_at_minimum.
    - constructor. }
  eapply Forall_impl; [|exact H].
  intros pm Hpm. unfold tail_at_minimum in *.
  eapply Forall_impl; [|exact Hpm].
  intros e (d & Hin & Hrest). exists d. split; auto.
  eapply Permutation_in; [apply sort_perm|exact Hin].
Qed.

(** ** Every debt paid within the cap is in the payoff order *)

Lemma payoffs_recorded_one b0 m acc e :
  e_id e <> Dict.proto ->
  payoffs_recorded b0 (ap_balances acc) (ap_payoffOrder acc) ->
  payoffs_recorded b0 (ap_balances (apply_payments m [e] acc))
                   (ap_payoffOrder (apply_payments m [e] acc)).
Proof.
  intros Hk H k. cbn [apply_payments ap_balances ap_payoffOrder].
  set (nb := Qmax 0 (e_balance e + e_interest e - e_payment e)).
  rewrite dict_get_set_eq by exact Hk. cbn [JS.le_num].
  rewrite dict_get_set by exact Hk.
  destruct (String.eqb_spec (e_id e) k) as [<-|Hne].
  - right. exists nb. split; auto. intros Hle.
    apply leb_true in Hle. rewrite Hle. cbn [andb].
    destruct (in_payoffOrder (e_id e) (ap_payoffOrder acc)) eqn:Hin; cbn [negb].
    + now apply in_payoffOrder_true.
    + rewrite map_app. apply in_or_app. right. now left.
  - destruct (H k) as [Hsame|(v & Hv & Hin)]; [now left|].
    right. exists v. split; auto. intros Hle. specialize (Hin Hle).
    destruct (JS.leb nb 0.01 && negb (in_payoffOrder (e_id e) (ap_payoffOrder acc)));
      auto.
    rewrite map_app. apply in_or_app. now left.
Qed.

Lemma payoffs_recorded_step b0 sorted extra st :
  payoffs_recorded b0 (st_balances st) (st_payoffOrder st) ->
  payoffs_recorded b0 (st_balances (step sorted extra st))
                   (st_payoffOrder (step sorted extra st)).
Proof.
  intros H. unfold step. cbn [st_balances st_payoffOrder].
  rewrite second_pass_head.
  fold (month_entries sorted extra (st_balances st)).
  pose proof (month_entries_not_proto sorted extra (st_balances st)) as Hall.
  set (acc := mkApplied (st_balances st) [] 0 0 (st_payoffOrder st)).
  assert (Hacc : payoffs_recorded b0 (ap_balances acc) (ap_payoffOrder acc))
    by exact H.
  clearbody acc. revert acc Hacc.
  induction Hall as [|e r He _ IH]; intros acc Hacc; [exact Hacc|].
  change (e :: r) with ([e] ++ r). rewrite apply_payments_app.
  now apply IH, payoffs_recorded_one.
Qed.

Lemma init_balances_lookup sorted d :
  NoDup (map id sorted) -> In d sorted -> id d <> Dict.proto ->
  Dict.get (init_balances sorted) (id d) = Some (balance d).
Proof.
  intros Hnd Hin Hk. unfold init_balances.
  assert (Hgen : forall l b,
            NoDup (map id l) ->
            (In d l \/ (~ In (id d) (map id l) /\
                        Dict.get b (id d) = Some (balance d))) ->
            Dict.get (fold_left (fun b d => Dict.set b (id d) (balance d)) l b)
                     (id d) = Some (balance d)).
  { induction l as [|x r IH]; intros b Hl Hcase; cbn [fold_left].
    - destruct Hcase as [[]|[_ H]]. exact H.
    - inversion Hl as [|k ks Hfresh Hrest]; subst. apply IH; [exact Hrest|].
      destruct Hcase as [[->|Hr]|[Hn Hb]].
      + right. split; [exact Hfresh|]. now apply dict_get_set_eq.
      + now left.
      + right. cbn [map In] in Hn. split; [tauto|].
        rewrite dict_get_set_ne; [exact Hb|]. intros E. apply Hn. now left. }
  apply Hgen; [exact Hnd|now left].
Qed.

Lemma schedule_not_proto n sorted extra st :
  Forall (fun pm => ~ In Dict.proto (map e_id (debts pm))) (st_schedule st) ->
  Forall (fun pm => ~ In Dict.proto (map e_id (debts pm)))
         (st_schedule (loop n sorted extra st)).
Proof.
  apply (loop_invariant
           (fun st => Forall (fun pm => ~ In Dict.proto (map e_id (debts pm)))
                             (st_schedule st))).
  intros st' H _. rewrite step_schedule. apply Forall_app. split; [exact H|].
  constructor; [|constructor]. cbn [debts].
  rewrite map_map. cbn [settle e_id].
  pose proof (month_entries_not_proto sorted extra (st_balances st')) as Hall.
  intros Hin. apply in_map_iff in Hin. destruct Hin as (e & He & Hin).
  rewrite Forall_forall in Hall. now apply (Hall e Hin).
Qed.

(** X5. When the run ends before the cap of 360 months, with distinct debt
    ids, every debt that started with a balance above 0.01 is listed in
    [debtPayoffOrder], unless its id is the key the balances object does not
    store: a debt of that id is never simulated and never listed. *)
Theorem calculatePayoff_all_paid (ds : list DebtInput) (s : Strategy) (extraMonthly : Q) :
  let r := calculatePayoff ds s extraMonthly in
  (NoDup (map id ds) -> (months r < 360)%nat ->
   forall d, In d ds -> 0.01 < balance d -> id d <> Dict.proto ->
     In (id d) (map p_id (debtPayoffOrder r))) /\
  ~ In Dict.proto (map p_id (debtPayoffOrder r)) /\
  Forall (fun pm => ~ In Dict.proto (map e_id (debts pm))) (schedule r).
Proof.
  intros r. subst r. split; [|split].
  - intros Hnd Hm d Hin Hbal Hk.
    unfold calculatePayoff in *. cbn [months debtPayoffOrder] in *.
    set (sorted := sort_debts s ds) in *.
    set (final := loop maxMonths sorted extraMonthly (init_state sorted)) in *.
    assert (Hperm : Permutation sorted ds) by apply sort_perm.
    assert (Hnds : NoDup (map id sorted)).
    { eapply Permutation_NoDup; [|exact Hnd]. apply Permutation_map. now symmetry. }
    assert (Hins : In d sorted).
    { eapply Permutation_in; [symmetry; exact Hperm|exact Hin]. }
    assert (Hrec : payoffs_recorded (init_balances sorted) (st_balances final)
                     (st_payoffOrder final)).
    { apply (loop_invariant
               (fun st => payoffs_recorded (init_balances sorted) (st_balances st)
                            (st_payoffOrder st))).
      - intros st H _. now apply payoffs_recorded_step.
      - intros k. now left. }
    assert (Hrem : remaining_of sorted (st_balances final) = []).
    { destruct (loop_exit maxMonths sorted extraMonthly (init_state sorted)) as [Hg|Hr].
      - simpl. lia.
      - fold final in Hg. apply Nat.ltb_ge in Hg. unfold maxMonths in Hg. lia.
      - exact Hr. }
    assert (Hu : unpaid (st_balances final) d = false).
    { destruct (unpaid (st_balances final) d) eqn:E; auto.
      assert (Hd : In d (remaining_of sorted (st_balances final))).
      { apply filter_In. split; auto. }
      rewrite Hrem in Hd. contradiction. }
    pose proof (init_balances_lookup sorted d Hnds Hins Hk) as Hinit.
    destruct (Hrec (id d)) as [Hsame|(v & Hv & Hpo)].
    + unfold unpaid in Hu. rewrite Hsame, Hinit in Hu. simpl in Hu.
      apply gtb_false in Hu. lra.
    + apply Hpo. unfold unpaid in Hu. rewrite Hv in Hu. simpl in Hu.
      now apply gtb_false.
  - pose proof (payoff_inv_loop maxMonths (sort_debts s ds) extraMonthly _
                  (payoff_inv_init (sort_debts s ds))) as [_ _ _ _ Hfirst _].
    pose proof (schedule_not_proto maxMonths (sort_debts s ds) extraMonthly
                  (init_state (sort_debts s ds)) ltac:(constructor)) as Hsched.
    unfold calculatePayoff. cbn [debtPayoffOrder].
    intros Hin. apply in_map_iff in Hin. destruct Hin as (p & Hp & Hin).
    destruct (Hfirst p Hin) as (pm & Hpm & _ & (e & He & Hid & _) & _).
    rewrite Forall_forall in Hsched. apply (Hsched pm Hpm).
    rewrite <- Hp, <- Hid. now apply in_map.
  - unfold calculatePayoff. cbn [schedule].
    apply schedule_not_proto. constructor.
Qed.

Lemma calculatePayoff_all_paid_witness :
  let ds := [mkDebt "A" "A" 350 0 10; mkDebt "B" "B" 100 0 10;
             mkDebt "Z" "Z" 50 0 100] in
  In "B"%string (map p_id (debtPayoffOrder (calculatePayoff ds snowball 0))).
Proof.
  intros ds.
  destruct (calculatePayoff_all_paid ds snowball 0) as [H _].
  apply H with (d := mkDebt "B" "B" 100 0 10).
  - simpl. repeat constructor; simpl; intuition discriminate.
  - vm_compute. lia.
  - simpl. auto.
  - simpl. lra.
  - discriminate.
Defined.

(** ** Range of the health score *)

(** Unfolds [calculateHealthScore] in each case of its two income and
    expense tests. *)
Ltac health_cases input :=
  unfold calculateHealthScore;
  destruct (JS.gtb (monthlyIncome input) 0) eqn:Hincome;
  destruct (JS.gtb (monthlyExpenses input) 0) eqn:Hexpenses;
  try apply gtb_true in Hincome; try apply gtb_true in Hexpenses;
  try apply gtb_false in Hincome; try apply gtb_false in Hexpenses;
  rewrite ?(finite_div_pos _ (monthlyIncome input)) by lra;
  rewrite ?(finite_div_pos _ (monthlyIncome input * 12)) by lra;
  rewrite ?(finite_div_pos _ (monthlyExpenses input)) by lra;
  cbn [obind].

Lemma round_half (z : Z) : Qfloor (inject_Z z + (1 # 2)) = z.
Proof.
  unfold Qfloor, Qplus, inject_Z. simpl Qnum. simpl Qden.
  change (Z.pos (1 * 2)) with 2%Z.
  rewrite Z.div_add_l by lia. change (1 * 1 / 2)%Z with 0%Z. lia.
Qed.

Lemma round_between (lo hi : Z) (x : Q) :
  inject_Z lo <= x <= inject_Z hi -> (lo <= JS.round x <= hi)%Z.
Proof.
  intros [Hlo Hhi]. unfold JS.round. split.
  - rewrite <- (Qfloor_Z lo). apply Qfloor_resp_le. lra.
  - apply Z.le_trans with (m := Qfloor (inject_Z hi + (1 # 2))).
    + apply Qfloor_resp_le. lra.
    + rewrite round_half. lia.
Qed.

Lemma dti_score_range x :
  2 <= (if JS.leb x 0 then 20 else if JS.leb x 20 then 18
        else if JS.leb x 36 then 14 else if JS.leb x 50 then 8 else 2) <= 20.
Proof. repeat destruct (JS.leb x _); lra. Qed.

Lemma emergency_score_range x :
  2 <= (if JS.geb x 6 then 20 else if JS.geb x 3 then 14
        else if JS.geb x 1 then 8 else 2) <= 20.
Proof. repeat destruct (JS.geb x _); lra. Qed.

Lemma investment_score_range x :
  4 <= Qmin 20 (if JS.geb x 100 then 20 else if JS.geb x 50 then 16
                else if JS.geb x 25 then 12 else if JS.geb x 10 then 8 else 4) <= 20.
Proof. repeat destruct (JS.geb x _); split_minmax; lra. Qed.

Lemma utilization_score_range x :
  1 <= (if JS.leb x 10 then 20 else if JS.leb x 30 then 16
        else if JS.leb x 50 then 10 else if JS.leb x 75 then 5 else 1) <= 20.
Proof. repeat destruct (JS.leb x _); lra. Qed.

Lemma savings_clamp_range x : 0 <= Qmin 20 (Qmax 0 x) <= 20.
Proof. split_minmax; lra. Qed.

Ltac score_ranges :=
  repeat match goal with
  | |- context [Qmin 20 (Qmax 0 ?x)] =>
      let H := fresh "Hs" in
      pose proof (savings_clamp_range x) as H;
      set (Qmin 20 (Qmax 0 x)) in *
  | |- context [if JS.leb ?x 0 then 20 else ?t] =>
      let H := fresh "Hd" in
      pose proof (dti_score_range x) as H;
      set (if JS.leb x 0 then 20 else t) in *
  | |- context [if JS.geb ?x 6 then 20 else ?t] =>
      let H := fresh "He" in
      pose proof (emergency_score_range x) as H;
      set (if JS.geb x 6 then 20 else t) in *
  | |- context [Qmin 20 (if JS.geb ?x 100 then 20 else ?t)] =>
      let H := fresh "Hi" in
      pose proof (investment_score_range x) as H;
      set (Qmin 20 (if JS.geb x 100 then 20 else t)) in *
  | |- context [if JS.leb ?x 10 then 20 else ?t] =>
      let H := fresh "Hu" in
      pose proof (utilization_score_range x) as H;
      set (if JS.leb x 10 then 20 else t) in *
  end.

Lemma some_result (a b : HealthScoreResult) : Some a = Some b -> a = b.
Proof. now intros [= ->]. Qed.

(** X6. The overall score is an integer between 9 and 100, and each of the
    five component scores lies within its 20 points (savings 0..20, debt to
    income 2..20, emergency fund 2..20, investments 4..20, utilization
    1..20). *)
Theorem calculateHealthScore_range (input : HealthScoreInput) (r : HealthScoreResult) :
  calculateHealthScore input = Some r ->
  (9 <= overallScore r <= 100)%Z /\
  0 <= score (c_savingsRate (components r)) <= 20 /\
  2 <= score (c_debtToIncome (components r)) <= 20 /\
  2 <= score (c_emergencyFund (components r)) <= 20 /\
  4 <= score (c_investmentRate (components r)) <= 20 /\
  1 <= score (c_creditUtilization (components r)) <= 20.
Proof.
  health_cases input; (intros Hres; apply some_result in Hres; subst r);
    cbn [overallScore components c_savingsRate c_debtToIncome c_emergencyFund
         c_investmentRate c_creditUtilization score];
    (split; [apply round_between; change (inject_Z 9) with 9;
             change (inject_Z 100) with 100; score_ranges; split_minmax; lra|]);
    (split; [apply savings_score_bounds|]);
    (split; [first [apply dti_score_range | lra]|]);
    (split; [first [apply emergency_score_range | lra]|]);
    (split; [first [apply investment_score_range | split_minmax; lra]|]);
    apply utilization_score_range.
Qed.

Lemma calculateHealthScore_range_witness :
  exists r, calculateHealthScore (mkHealthInput 5000 4000 0 10000 0 12000 0) = Some r /\
            (9 <= overallScore r <= 100)%Z.
Proof.
  destruct (calculateHealthScore (mkHealthInput 5000 4000 0 10000 0 12000 0))
    as [r|] eqn:E; [|vm_compute in E; discriminate].
  exists r. split; [reflexivity|].
  apply (calculateHealthScore_range _ _ E).
Defined.

(** ** Grade and recommendations *)

Ltac grade_is_F os :=
  repeat match goal with
  | |- context [(os >=? ?n)%Z] =>
      let E := fresh "E" in
      destruct (os >=? n)%Z eqn:E; [apply Z.geb_le in E; lia|clear E]
  end.

(** X7. Without a positive monthly income the savings, debt-to-income and
    investment components score 0, 2 and 4, so the overall score is at most
    46 and the grade is F whatever the other inputs. *)
Theorem calculateHealthScore_no_income (input : HealthScoreInput) (r : HealthScoreResult) :
  monthlyIncome input <= 0 ->
  calculateHealthScore input = Some r ->
  (overallScore r <= 46)%Z /\ grade r = "F"%string.
Proof.
  intros Hle.
  health_cases input; try lra; intros [= <-]; cbn [overallScore grade];
    match goal with
    | |- (JS.round ?x <= 46)%Z /\ _ =>
        assert (Hos : (9 <= JS.round x <= 46)%Z);
          [ apply round_between; change (inject_Z 9) with 9;
            change (inject_Z 46) with 46;
            change (Qmin 20 (Qmax 0 0)) with 0; change (Qmin 20 4) with 4;
            score_ranges; lra
          | set (os := JS.round x) in *; split; [lia|grade_is_F os; reflexivity] ]
    end.
Qed.

Lemma calculateHealthScore_no_income_witness :
  exists r, calculateHealthScore (mkHealthInput 0 1500 0 90000 50000 60000 0) = Some r /\
            grade r = "F"%string.
Proof.
  destruct (calculateHealthScore (mkHealthInput 0 1500 0 90000 50000 60000 0))
    as [r|] eqn:E; [|vm_compute in E; discriminate].
  exists r. split; [reflexivity|].
  apply (calculateHealthScore_no_income
           (mkHealthInput 0 1500 0 90000 50000 60000 0) r); [simpl; lra|exact E].
Defined.

Ltac split_tests :=
  repeat match goal with
  | |- context [Qle_bool ?a ?b] =>
      let E := fresh "T" in
      destruct (Qle_bool a b) eqn:E;
      [apply Qle_bool_iff in E | apply leb_false in E]
  end.

(** X8. There is always at least one recommendation and never more than
    four.  The list is the single message of praise exactly when the savings
    rate is at least 20, the debt-to-income ratio at most 36, the emergency
    fund covers at least 6 months and the credit utilization is at most
    30. *)
Theorem calculateHealthScore_recommendations (input : HealthScoreInput) (r : HealthScoreResult) :
  calculateHealthScore input = Some r ->
  (1 <= List.length (recommendations r) <= 4)%nat /\
  (recommendations r = [excellent_message] <->
   20 <= value (c_savingsRate (components r)) /\
   value (c_debtToIncome (components r)) <= 36 /\
   6 <= value (c_emergencyFund (components r)) /\
   value (c_creditUtilization (components r)) <= 30).
Proof.
  health_cases input; (intros Hres; apply some_result in Hres; subst r);
    cbn [recommendations components c_savingsRate c_debtToIncome c_emergencyFund
         c_creditUtilization value];
    unfold JS.ltb, JS.gtb, JS.geb, JS.leb, excellent_message;
    split_tests; cbn [push_if negb andb List.length app Nat.eqb];
    (split; [lia|]);
    (split; [ intros Heq; try discriminate Heq; repeat split; lra
            | intros (H1 & H2 & H3 & H4); try reflexivity; lra ]).
Qed.

Lemma calculateHealthScore_recommendations_witness :
  exists r, calculateHealthScore (mkHealthInput 5000 4000 0 10000 0 12000 0) = Some r /\
            (1 <= List.length (recommendations r) <= 4)%nat.
Proof.
  destruct (calculateHealthScore (mkHealthInput 5000 4000 0 10000 0 12000 0))
    as [r|] eqn:E; [|vm_compute in E; discriminate].
  exists r. split; [reflexivity|].
  apply (calculateHealthScore_recommendations _ _ E).
Defined.

(** ** The forecast as a ledger *)

Lemma forecast_length today isoDate cur inc exp days :
  List.length (forecastCashFlow today isoDate cur inc exp days) = days.
Proof.
  rewrite forecastCashFlow_spec, List.length_map. apply List.length_seq.
Qed.

Lemma running_ledger today isoDate cur inc exp d :
  running today cur inc exp d ==
  cur + sumQ (map income (map (day_record today isoDate cur inc exp) (seq 0 d)))
      - sumQ (map expenses (map (day_record today isoDate cur inc exp) (seq 0 d))).
Proof.
  induction d as [|d IH].
  - simpl. rewrite !sumQ_nil. ring.
  - rewrite seq_S, !map_app, !sumQ_app. cbn [running map Nat.add].
    rewrite !sumQ_cons, !sumQ_nil, IH. cbn [income expenses day_record]. ring.
Qed.

Lemma day_expense_nonneg today exp d : 0 <= day_expense today exp d.
Proof.
  unfold day_expense. apply sumQ_nonneg. rewrite Forall_map.
  apply Forall_forall. intros f _. apply Qabs_nonneg.
Qed.

Lemma firstn_map_seq {A} (f : nat -> A) (n m : nat) :
  (n <= m)%nat -> firstn n (map f (seq 0 m)) = map f (seq 0 n).
Proof.
  intros Hle. rewrite firstn_map. f_equal.
  replace m with (n + (m - n))%nat by lia.
  rewrite seq_app, firstn_app, List.length_seq, Nat.sub_diag. simpl.
  rewrite app_nil_r. apply firstn_all2. rewrite List.length_seq. lia.
Qed.

(** X9. The forecast has one record per day, no record has negative
    [expenses], and the records add up: the [projectedBalance] of day [d] is
    the starting balance plus the [income] of every record up to that day
    minus their [expenses], rounded to cents. *)
Theorem forecastCashFlow_ledger today isoDate cur inc exp days :
  let fc := forecastCashFlow today isoDate cur inc exp days in
  List.length fc = days /\
  Forall (fun e => 0 <= expenses e) fc /\
  forall d e, nth_error fc d = Some e ->
    projectedBalance e ==
    JS.round_cents (cur + sumQ (map income (firstn (S d) fc))
                        - sumQ (map expenses (firstn (S d) fc))).
Proof.
  intros fc. split; [apply forecast_length|]. split.
  - unfold fc. rewrite forecastCashFlow_spec, Forall_map.
    apply Forall_forall. intros d _. apply day_expense_nonneg.
  - intros d e Hnth.
    assert (Hd : (d < days)%nat).
    { rewrite <- (forecast_length today isoDate cur inc exp days).
      apply nth_error_Some. fold fc. congruence. }
    unfold fc in *. rewrite forecastCashFlow_spec in *.
    rewrite nth_error_map, nth_error_seq in Hnth.
    destruct (Nat.ltb_spec d days); [|lia]. injection Hnth as <-.
    rewrite firstn_map_seq by lia.
    cbn [projectedBalance day_record]. apply round_cents_compat.
    change (running today cur inc exp d + day_income today inc d
            - day_expense today exp d) with (running today cur inc exp (S d)).
    apply running_ledger.
Qed.

(** ** Which flows can fire *)

Lemma days_in_month_range y m : (28 <= Calendar.days_in_month y m <= 31)%Z.
Proof.
  unfold Calendar.days_in_month.
  destruct (m =? 2)%Z; [destruct (Calendar.is_leap y); lia|].
  destruct ((m =? 4) || (m =? 6) || (m =? 9) || (m =? 11))%Z; lia.
Qed.

Lemma next_day_valid d : valid_date d -> valid_date (Calendar.next_day d).
Proof.
  unfold valid_date, Calendar.next_day. intros [Hm Hd].
  destruct (Z.ltb_spec (Calendar.day d)
              (Calendar.days_in_month (Calendar.year d) (Calendar.monthOfYear d))).
  - simpl. lia.
  - destruct (Z.ltb_spec (Calendar.monthOfYear d) 12); simpl.
    + pose proof (days_in_month_range (Calendar.year d) (Calendar.monthOfYear d + 1)).
      lia.
    + pose proof (days_in_month_range (Calendar.year d + 1) 1). lia.
Qed.

Lemma add_days_valid n d : valid_date d -> valid_date (Calendar.add_days n d).
Proof.
  intros H. induction n as [|n IH]; simpl; auto using next_day_valid.
Qed.

Lemma on_day_calendar today d f :
  valid_date today -> on_day (dom_of today d) f = true -> calendar_day f = true.
Proof.
  intros Hv Hon. unfold calendar_day. apply existsb_exists.
  unfold dom_of, Calendar.getDate in Hon.
  set (date := Calendar.add_days d today) in *.
  destruct (add_days_valid d today Hv) as [_ Hday]. fold date in Hday.
  pose proof (days_in_month_range (Calendar.year date) (Calendar.monthOfYear date)) as Hr.
  exists (Z.to_nat (Calendar.day date)). split.
  - apply in_seq. lia.
  - unfold on_day in Hon. rewrite Z2Nat.id by lia. exact Hon.
Qed.

Lemma filter_implied {A : Type} (p q : A -> bool) (l : list A) :
  (forall x, q x = true -> p x = true) -> filter q (filter p l) = filter q l.
Proof.
  intros H. induction l as [|x l IH]; [reflexivity|]. cbn [filter].
  destruct (p x) eqn:Hp; cbn [filter].
  - now rewrite IH.
  - destruct (q x) eqn:Hq; [|exact IH]. apply H in Hq. congruence.
Qed.

Lemma matching_calendar today flows d :
  valid_date today ->
  matching today (filter calendar_day flows) d = matching today flows d.
Proof.
  intros Hv. unfold matching. apply filter_implied.
  intros f. now apply on_day_calendar.
Qed.

Lemma running_calendar today cur inc exp d :
  valid_date today ->
  running today cur (filter calendar_day inc) (filter calendar_day exp) d =
  running today cur inc exp d.
Proof.
  intros Hv. induction d as [|d IH]; [reflexivity|].
  cbn [running]. unfold day_income, day_expense.
  now rewrite IH, !matching_calendar.
Qed.

(** X10. For a well-formed start date, a recurring flow whose [dayOfMonth]
    is not an integer from 1 to 31 is never counted: the forecast is the one
    computed without such flows. *)
Theorem forecastCashFlow_calendar_days today isoDate cur inc exp days :
  valid_date today ->
  forecastCashFlow today isoDate cur inc exp days =
  forecastCashFlow today isoDate cur (filter calendar_day inc)
    (filter calendar_day exp) days.
Proof.
  intros Hv. rewrite !forecastCashFlow_spec. apply map_ext. intros d.
  unfold day_record, day_income, day_expense, day_labels.
  now rewrite running_calendar, !matching_calendar.
Qed.

Lemma forecastCashFlow_calendar_days_witness :
  let today := Calendar.mkDate 2026 2 27 in
  let iso := fun _ : Calendar.Date => EmptyString in
  forecastCashFlow today iso 1000
    [mkFlow 2000 1 "Pay"; mkFlow 40 (63 # 2) "Odd"] [mkFlow 500 32 "Never"] 40 =
  forecastCashFlow today iso 1000 [mkFlow 2000 1 "Pay"] [] 40.
Proof.
  intros today iso.
  apply (forecastCashFlow_calendar_days today iso 1000
           [mkFlow 2000 1 "Pay"; mkFlow 40 (63 # 2) "Odd"] [mkFlow 500 32 "Never"] 40).
  unfold valid_date. vm_compute. intuition discriminate.
Defined.

(** ** Sign of the projected growth *)

Lemma round_cents_mono x y : x <= y -> JS.round_cents x <= JS.round_cents y.
Proof.
  intros H. unfold JS.round_cents, JS.round.
  assert (Hf : (Qfloor (x * 100 + (1 # 2)) <= Qfloor (y * 100 + (1 # 2)))%Z)
    by (apply Qfloor_resp_le; lra).
  rewrite Zle_Qle in Hf.
  unfold Qdiv. apply Qmult_le_compat_r; [exact Hf|]. vm_compute. discriminate.
Qed.

Lemma round_cents_zero : JS.round_cents 0 == 0.
Proof. reflexivity. Qed.

Lemma compound_S n r a b :
  compound (S n) r a b = compound n r a b * (1 + r) + a.
Proof. reflexivity. Qed.

Lemma compound_nonneg n r a b :
  0 <= 1 + r -> 0 <= a -> 0 <= b -> 0 <= compound n r a b.
Proof.
  intros Hr Ha Hb. induction n as [|n IH]; [exact Hb|].
  rewrite compound_S.
  assert (0 <= compound n r a b * (1 + r)) by (apply Qmult_le_0_compat; auto).
  lra.
Qed.

Lemma compound_gain n r a b :
  0 <= r -> 0 <= a -> 0 <= b ->
  b + inject_Z (Z.of_nat n) * a <= compound n r a b.
Proof.
  intros Hr Ha Hb. induction n as [|n IH].
  - change (compound 0 r a b) with b. change (inject_Z (Z.of_nat 0)) with 0. lra.
  - rewrite compound_S, Nat2Z.inj_succ, <- Z.add_1_r, inject_Z_plus.
    simpl (inject_Z 1).
    pose proof (compound_nonneg n r a b ltac:(lra) Ha Hb) as Hn.
    assert (0 <= compound n r a b * r) by (apply Qmult_le_0_compat; auto).
    change (inject_Z 1) with 1. nra.
Qed.

Lemma compound_loss n r a b :
  -1 <= r -> r <= 0 -> 0 <= a -> 0 <= b ->
  compound n r a b <= b + inject_Z (Z.of_nat n) * a.
Proof.
  intros Hr1 Hr Ha Hb. induction n as [|n IH].
  - change (compound 0 r a b) with b. change (inject_Z (Z.of_nat 0)) with 0. lra.
  - rewrite compound_S, Nat2Z.inj_succ, <- Z.add_1_r, inject_Z_plus.
    simpl (inject_Z 1).
    pose proof (compound_nonneg n r a b ltac:(lra) Ha Hb) as Hn.
    assert (0 <= compound n r a b * (- r)) by (apply Qmult_le_0_compat; lra).
    change (inject_Z 1) with 1. nra.
Qed.

Lemma project_entries years pct add cur :
  project years pct add cur =
  map (fun k => year_entry (1 + k)
                  (growth_months (12 * S k) (pct / 100 / 12) add (cur, cur)))
      (seq 0 years).
Proof. unfold project. now rewrite growth_years_spec. Qed.

(** X11. The projection has one entry per year, numbered 1, 2, ... in
    order. *)
Theorem project_shape (years : nat) (annualReturnPct monthlyAdd currentBalance : Q) :
  map g_year (project years annualReturnPct monthlyAdd currentBalance) = seq 1 years.
Proof.
  rewrite project_entries, map_map. cbn [year_entry g_year].
  rewrite <- seq_shift. rewrite (map_ext _ S); auto.
Qed.

(** X12. With a non-negative starting balance and contribution, the sign of
    [growth] follows the sign of the annual return: a return of at least 0
    never shows a loss and the rounded balance is at least the rounded
    contributions; a return between -1200 and 0 never shows a gain. *)
Theorem project_growth_sign (years : nat) (annualReturnPct monthlyAdd currentBalance : Q) :
  0 <= monthlyAdd -> 0 <= currentBalance ->
  Forall (fun e =>
            (0 <= annualReturnPct -> 0 <= growth e /\ contributions e <= g_balance e) /\
            (-1200 <= annualReturnPct <= 0 ->
               growth e <= 0 /\ g_balance e <= contributions e))
         (project years annualReturnPct monthlyAdd currentBalance).
Proof.
  intros Ha Hb. rewrite project_entries, Forall_map. apply Forall_forall.
  intros k _. unfold year_entry. cbn [growth contributions g_balance].
  set (r := annualReturnPct / 100 / 12).
  set (st := growth_months (12 * S k) r monthlyAdd (currentBalance, currentBalance)).
  assert (Hfst : fst st = compound (12 * S k) r monthlyAdd currentBalance)
    by apply growth_months_fst.
  assert (Hsnd : snd st ==
                 currentBalance + inject_Z (Z.of_nat (12 * S k)) * monthlyAdd)
    by apply growth_months_snd.
  assert (Hr : r == annualReturnPct * (1 # 1200)) by apply monthlyRate_eq.
  rewrite Hfst. split.
  - intros Hpct.
    pose proof (compound_gain (12 * S k) r monthlyAdd currentBalance
                  ltac:(lra) Ha Hb) as Hg.
    split.
    + rewrite <- round_cents_zero. apply round_cents_mono. lra.
    + apply round_cents_mono. lra.
  - intros [Hlo Hhi].
    pose proof (compound_loss (12 * S k) r monthlyAdd currentBalance
                  ltac:(lra) ltac:(lra) Ha Hb) as Hl.
    split.
    + rewrite <- round_cents_zero. apply round_cents_mono. lra.
    + apply round_cents_mono. lra.
Qed.

Lemma project_growth_sign_witness :
  Forall (fun e => 0 <= growth e /\ contributions e <= g_balance e)
         (project 2 12 100 1000).
Proof.
  pose proof (project_growth_sign 2 12 100 1000 ltac:(lra) ltac:(lra)) as H.
  eapply Forall_impl; [|exact H].
  intros e [Hpos _]. apply Hpos. lra.
Defined.

(** ** Random draws used by the Monte Carlo run *)

Lemma sim_months_draws random random' add n avg std bal d :
  (forall i, (d <= i < d + n)%nat -> random i = random' i) ->
  sim_months random add n avg std bal d = sim_months random' add n avg std bal d /\
  snd (sim_months random add n avg std bal d) = (d + n)%nat.
Proof.
  revert bal d. induction n as [|n IH]; intros bal d Hagree.
  - simpl. split; auto.
  - cbn [sim_months]. rewrite (Hagree d) by lia.
    destruct (IH (bal * (1 + (avg + std * (random' d * 2 - 1)) / 12) + add) (S d))
      as [Heq Hsnd].
    + intros i Hi. apply Hagree. lia.
    + rewrite Heq in *. split; auto. rewrite Hsnd. lia.
Qed.

Lemma sim_years_draws random random' add n avg std bal results d :
  (forall i, (d <= i < d + 12 * n)%nat -> random i = random' i) ->
  sim_years random add n avg std bal results d =
    sim_years random' add n avg std bal results d /\
  snd (sim_years random add n avg std bal results d) = (d + 12 * n)%nat.
Proof.
  revert bal results d. induction n as [|n IH]; intros bal results d Hagree.
  - simpl. split; auto.
  - cbn [sim_years].
    destruct (sim_months_draws random random' add 12 avg std bal d) as [Heq Hsnd].
    { intros i Hi. apply Hagree. lia. }
    rewrite <- Heq.
    destruct (sim_months random add 12 avg std bal d) as [bal' d'].
    cbn [snd] in Hsnd. subst d'.
    destruct (IH bal' (results ++ [JS.round_cents bal']) (d + 12)%nat) as [Heq' Hsnd'].
    { intros i Hi. apply Hagree. lia. }
    split; [exact Heq'|]. rewrite Hsnd'. lia.
Qed.

Lemma runSimulation_draws random random' years cur add avg std d :
  (forall i, (d <= i < d + 12 * year_iterations years)%nat -> random i = random' i) ->
  runSimulation random years cur add avg std d =
    runSimulation random' years cur add avg std d /\
  snd (runSimulation random years cur add avg std d) =
    (d + 12 * year_iterations years)%nat.
Proof. apply sim_years_draws. Qed.

Lemma collect_runs_draws random random' years cur add n rs d :
  (forall i, (d <= i < d + 36 * year_iterations years * n)%nat ->
             random i = random' i) ->
  collect_runs random years cur add n rs d =
    collect_runs random' years cur add n rs d /\
  snd (collect_runs random years cur add n rs d) =
    (d + 36 * year_iterations years * n)%nat.
Proof.
  set (N := year_iterations years).
  revert rs d. induction n as [|n IH]; intros rs d Hagree.
  - split; [reflexivity|simpl; lia].
  - cbn [collect_runs].
    destruct (runSimulation_draws random random' years cur add 0.05 0.08 d) as [E1 S1].
    { fold N. intros i Hi. apply Hagree. nia. }
    rewrite <- E1.
    destruct (runSimulation random years cur add 0.05 0.08 d) as [c d1].
    cbn [snd] in S1. subst d1. fold N.
    destruct (runSimulation_draws random random' years cur add 0.07 0.12
                (d + 12 * N)) as [E2 S2].
    { fold N. intros i Hi. apply Hagree. nia. }
    rewrite <- E2.
    destruct (runSimulation random years cur add 0.07 0.12 (d + 12 * N)) as [m d2].
    cbn [snd] in S2. subst d2. fold N.
    destruct (runSimulation_draws random random' years cur add 0.10 0.18
                (d + 12 * N + 12 * N)) as [E3 S3].
    { fold N. intros i Hi. apply Hagree. nia. }
    rewrite <- E3.
    destruct (runSimulation random years cur add 0.10 0.18
                (d + 12 * N + 12 * N)) as [a d3].
    cbn [snd] in S3. subst d3. fold N.
    destruct (IH (mkRuns (conservativeRuns rs ++ [c]) (moderateRuns rs ++ [m])
                    (aggressiveRuns rs ++ [a]))
                (d + 12 * N + 12 * N + 12 * N)%nat) as [E4 S4].
    { intros i Hi. apply Hagree. nia. }
    split; [exact E4|]. rewrite S4. nia.
Qed.

(** X13. A Monte Carlo run makes exactly 1800 calls to [Math.random] for
    each year the trials simulate (150 trials of 12 months), the whole years
    in [years], and its bands depend on nothing else: two sources of
    randomness that agree on those draws give the same series. *)
Theorem monteCarlo_draws (random random' : Random) (years : Q) (cur add : Q) :
  snd (collect_runs random years cur add 50 (mkRuns [] [] []) 0) =
    (1800 * year_iterations years)%nat /\
  ((forall i, (i < 1800 * year_iterations years)%nat -> random i = random' i) ->
   monteCarlo random years cur add = monteCarlo random' years cur add).
Proof.
  split.
  - destruct (collect_runs_draws random random years cur add 50 (mkRuns [] [] []) 0)
      as [_ Hs]; auto. rewrite Hs. lia.
  - intros Hagree. unfold monteCarlo.
    destruct (collect_runs_draws random random' years cur add 50 (mkRuns [] [] []) 0)
      as [He _].
    + intros i Hi. apply Hagree. lia.
    + now rewrite He.
Qed.

Lemma monteCarlo_draws_witness :
  year_iterations (5 # 2) = 2%nat /\
  monteCarlo (fun i => if (i <? 3600)%nat then 1 # 4 else 0) (5 # 2) 1000 100 =
  monteCarlo (fun _ => 1 # 4) (5 # 2) 1000 100.
Proof.
  split; [reflexivity|].
  apply monteCarlo_draws. intros i Hi.
  change (year_iterations (5 # 2)) with 2%nat in Hi.
  destruct (Nat.ltb_spec i 3600); [reflexivity|lia].
Defined.

(** ** Draws fixed at one half: the bands collapse onto the projection *)

Lemma sim_months_const h add n avg std bal d :
  fst (sim_months (fun _ => h) add n avg std bal d) =
  Nat.iter n (sim_step h add avg std) bal.
Proof.
  revert bal d. induction n as [|n IH]; intros bal d.
  - reflexivity.
  - cbn [sim_months]. rewrite IH. now rewrite Nat.iter_succ_r.
Qed.

Lemma sim_years_const h add n avg std bal results d :
  fst (sim_years (fun _ => h) add n avg std bal results d) =
  results ++ map (fun k => JS.round_cents (Nat.iter (12 * S k) (sim_step h add avg std) bal))
                 (seq 0 n).
Proof.
  revert bal results d. induction n as [|n IH]; intros bal results d.
  - simpl. now rewrite app_nil_r.
  - cbn [sim_years].
    pose proof (sim_months_const h add 12 avg std bal d) as Hm.
    destruct (sim_months (fun _ => h) add 12 avg std bal d) as [bal' d'].
    cbn [fst] in Hm. subst bal'.
    rewrite IH, <- app_assoc. f_equal. cbn [seq map app]. f_equal.
    rewrite <- seq_shift, map_map. apply map_ext. intros k.
    rewrite <- Nat.iter_add. f_equal. f_equal. lia.
Qed.

Lemma collect_runs_const h years cur add n rs d :
  fst (collect_runs (fun _ => h) years cur add n rs d) =
  mkRuns
    (conservativeRuns rs ++
       repeat (fst (runSimulation (fun _ => h) years cur add 0.05 0.08 0)) n)
    (moderateRuns rs ++
       repeat (fst (runSimulation (fun _ => h) years cur add 0.07 0.12 0)) n)
    (aggressiveRuns rs ++
       repeat (fst (runSimulation (fun _ => h) years cur add 0.10 0.18 0)) n).
Proof.
  assert (Hrun : forall avg std d,
            fst (runSimulation (fun _ => h) years cur add avg std d) =
            fst (runSimulation (fun _ => h) years cur add avg std 0)).
  { intros. unfold runSimulation. now rewrite !sim_years_const. }
  revert rs d. induction n as [|n IH]; intros rs d.
  - simpl. rewrite !app_nil_r. now destruct rs.
  - cbn [collect_runs].
    pose proof (Hrun 0.05 0.08 d) as H1.
    destruct (runSimulation (fun _ => h) years cur add 0.05 0.08 d) as [c d1].
    pose proof (Hrun 0.07 0.12 d1) as H2.
    destruct (runSimulation (fun _ => h) years cur add 0.07 0.12 d1) as [m d2].
    pose proof (Hrun 0.10 0.18 d2) as H3.
    destruct (runSimulation (fun _ => h) years cur add 0.10 0.18 d2) as [a d3].
    cbn [fst] in H1, H2, H3. rewrite IH.
    cbn [conservativeRuns moderateRuns aggressiveRuns repeat].
    rewrite <- !app_assoc, H1, H2, H3. reflexivity.
Qed.

Lemma sort_repeat (v : Q) (n : nat) :
  JS.sort (fun a b => a - b) (repeat v n) = repeat v n.
Proof.
  induction n as [|n IH]; [reflexivity|].
  cbn [repeat JS.sort]. rewrite IH. destruct n; [reflexivity|].
  cbn [repeat JS.insert].
  assert (H : JS.leb (v - v) 0 = true) by (apply leb_true; lra).
  now rewrite H.
Qed.

(** Fifty copies of one run: in a year the run reached, the three
    percentiles are its balance of that year. *)
Lemma band_repeat (c : list Q) (y : nat) :
  (y < List.length c)%nat -> band (repeat c 50) y = flat_band (nth y c 0).
Proof.
  intros Hy. unfold band, getPercentile, flat_band.
  rewrite values_reached
    by (apply Forall_forall; intros r Hr; apply repeat_spec in Hr; now subst r).
  rewrite sort_values_some, map_repeat, sort_repeat, List.length_map, repeat_length.
  change (Z.to_nat (Qfloor (inject_Z (Z.of_nat 50) * 0.1))) with 5%nat.
  change (Z.to_nat (Qfloor (inject_Z (Z.of_nat 50) * 0.5))) with 25%nat.
  change (Z.to_nat (Qfloor (inject_Z (Z.of_nat 50) * 0.9))) with 45%nat.
  rewrite !sorted_nth_in by (rewrite repeat_length; lia).
  rewrite !nth_repeat_lt by lia. reflexivity.
Qed.

Lemma round_cents_eq x y : x == y -> JS.round_cents x = JS.round_cents y.
Proof.
  intros H. unfold JS.round_cents, JS.round.
  rewrite (Qfloor_comp (x * 100 + (1 # 2)) (y * 100 + (1 # 2))); [reflexivity|].
  now rewrite H.
Qed.

Lemma sim_step_compound h add avg std r n bal :
  (avg + std * (h * 2 - 1)) / 12 == r ->
  Nat.iter n (sim_step h add avg std) bal == compound n r add bal.
Proof.
  intros Hr. unfold compound. induction n as [|n IH]; [reflexivity|].
  rewrite !Nat.iter_succ.
  set (x := Nat.iter n (sim_step h add avg std) bal) in *.
  set (y := Nat.iter n (fun balance => balance * (1 + r) + add) bal) in *.
  unfold sim_step. rewrite Hr, IH. reflexivity.
Qed.

Lemma flat_trial_band years cur add avg std pct :
  (avg + std * ((1 # 2) * 2 - 1)) / 12 == pct / 100 / 12 ->
  map (fun k => band (repeat (fst (runSimulation (fun _ => 1 # 2) years cur add avg std 0)) 50) k)
      (seq 0 (year_iterations years)) =
  map (fun p => flat_band (g_balance p))
      (project (year_iterations years) pct add cur).
Proof.
  intros Hr. rewrite project_entries, map_map.
  apply map_ext_in. intros k Hk. apply in_seq in Hk.
  rewrite band_repeat by (rewrite runSimulation_length; lia).
  unfold runSimulation. rewrite sim_years_const.
  cbn [app]. unfold year_entry. cbn [g_balance].
  rewrite growth_months_fst.
  set (f := fun k0 => JS.round_cents
                        (Nat.iter (12 * S k0) (sim_step (1 # 2) add avg std) cur)).
  rewrite (nth_indep _ 0 (f 0%nat))
    by (rewrite List.length_map, List.length_seq; lia).
  rewrite map_nth, seq_nth by lia. unfold f. cbn [Nat.add].
  f_equal. apply round_cents_eq. now apply sim_step_compound.
Qed.

Lemma iterations_le (years : Q) : (year_iterations years <= band_iterations years)%nat.
Proof.
  unfold year_iterations, band_iterations.
  assert (H : (Qfloor years <= Qceiling years)%Z).
  { rewrite Zle_Qle. apply Qle_trans with years; [apply Qfloor_le|apply Qle_ceiling]. }
  lia.
Qed.

(** X14. When every draw is one half the random return is the average
    return, the 50 trials of a profile coincide and the three percentiles
    are equal: for each year the trials simulate, the conservative, moderate
    and aggressive bands are the balances of the deterministic projection
    at 5%, 7% and 10%. *)
Theorem monteCarlo_without_spread (years : Q) (cur add : Q) :
  let mc := firstn (year_iterations years)
              (monteCarlo (fun _ => 1 # 2) years cur add) in
  let flat pct := map (fun p => flat_band (g_balance p))
                      (project (year_iterations years) pct add cur) in
  map conservative mc = flat 5 /\ map moderate mc = flat 7 /\
  map aggressive mc = flat 10.
Proof.
  intros mc flat. unfold mc, flat, monteCarlo.
  pose proof (collect_runs_const (1 # 2) years cur add 50 (mkRuns [] [] []) 0) as Hc.
  destruct (collect_runs (fun _ => 1 # 2) years cur add 50 (mkRuns [] [] []) 0)
    as [rs d].
  cbn [fst conservativeRuns moderateRuns aggressiveRuns app] in Hc. subst rs.
  rewrite mc_years_spec. cbn [app].
  rewrite firstn_map_seq by apply iterations_le.
  rewrite !map_map. cbn [conservative moderate aggressive Nat.add].
  repeat split; apply flat_trial_band; vm_compute; reflexivity.
Qed.

(** ** Request handling *)

Lemma or_else_not_NaN (x : Num.t) (d : Q) : Num.or_else x (Num.Fin d) <> Num.NaN.
Proof. destruct x; unfold Num.or_else; simpl; try discriminate.
  destruct (negb (Qeq_bool q 0)); discriminate. Qed.

Lemma or_else_finite (v d : Q) :
  exists q, Num.or_else (Num.Fin v) (Num.Fin d) = Num.Fin q /\
            (q == v \/ (v == 0 /\ q = d)).
Proof.
  unfold Num.or_else. cbn [Num.truthy].
  destruct (Qeq_bool v 0) eqn:E; cbn [negb].
  - exists d. split; [reflexivity|]. right. split; [now apply Qeq_bool_eq|reflexivity].
  - exists v. split; [reflexivity|]. now left.
Qed.

(** [Math.min(Math.max(lo, y), hi)] of a number that is not [NaN]. *)
Lemma clamp_range (lo hi : Q) (y : Num.t) :
  lo <= hi -> y <> Num.NaN ->
  exists q, Num.min (Num.max (Num.Fin lo) y) (Num.Fin hi) = Num.Fin q /\
            lo <= q <= hi /\
            (y = Num.PInf -> q = hi) /\ (y = Num.NInf -> q = lo) /\
            (forall v, y = Num.Fin v -> q = Qmin (Qmax lo v) hi).
Proof.
  intros Hle Hy. destruct y as [| | |v]; [congruence| | |]; cbn [Num.max Num.min].
  - exists hi. repeat split; try lra; try discriminate; auto.
  - exists (Qmin lo hi). repeat split; try discriminate.
    + apply Q.min_glb; lra.
    + apply Q.le_min_r.
    + intros _. unfold Qmin, GenericMinMax.gmin.
      destruct (lo ?= hi) eqn:E; try reflexivity.
      apply Qgt_alt in E. lra.
  - exists (Qmin (Qmax lo v) hi). repeat split; try discriminate.
    + apply Q.min_glb; [apply Q.le_max_l|lra].
    + apply Q.le_min_r.
    + now intros ? [= <-].
Qed.

(** [Math.max(lo, Math.min(hi, y))] of a number that is not [NaN]. *)
Lemma clamp_range_inner (lo hi : Q) (y : Num.t) :
  lo <= hi -> y <> Num.NaN ->
  exists q, Num.max (Num.Fin lo) (Num.min (Num.Fin hi) y) = Num.Fin q /\
            lo <= q <= hi.
Proof.
  intros Hle Hy. destruct y as [| | |v]; [congruence| | |]; cbn [Num.max Num.min].
  - exists (Qmax lo hi). split; [reflexivity|]. split; [apply Q.le_max_l|].
    apply Q.max_lub; lra.
  - exists lo. split; [reflexivity|lra].
  - exists (Qmax lo (Qmin hi v)). split; [reflexivity|].
    split; [apply Q.le_max_l|]. apply Q.max_lub; [lra|apply Q.le_min_l].
Qed.

(** [Math.max(0, y)] of a number that is not [NaN] nor [+Infinity]. *)
Lemma floor_zero (y : Num.t) :
  y <> Num.NaN -> y <> Num.PInf ->
  exists q, Num.max (Num.Fin 0) y = Num.Fin q /\ 0 <= q.
Proof.
  intros H1 H2. destruct y as [| | |v]; try congruence; cbn [Num.max].
  - exists 0. split; [reflexivity|lra].
  - exists (Qmax 0 v). split; [reflexivity|apply Q.le_max_l].
Qed.

Lemma or_else_PInf (x : Num.t) (d : Q) :
  Num.or_else x (Num.Fin d) = Num.PInf <-> x = Num.PInf.
Proof.
  destruct x; unfold Num.or_else; cbn [Num.truthy]; split; try discriminate; auto.
  destruct (negb (Qeq_bool q 0)); discriminate.
Qed.

Lemma floor_zero_PInf (y : Num.t) :
  Num.max (Num.Fin 0) y = Num.PInf <-> y = Num.PInf.
Proof. destruct y; cbn [Num.max]; split; try discriminate; auto. Qed.

(** X15. Whatever [Number(extraMonthly)] is, [NaN] and the infinities
    included, the extra budget handed to the simulator is a finite number
    between 0 and 100000: [NaN], [-Infinity] and negative numbers become 0,
    [+Infinity] and numbers above the cap become 100000, and a number within
    the range is kept. *)
Theorem safeExtra_range (extraMonthly : Num.t) :
  exists q, safeExtra extraMonthly = Num.Fin q /\ 0 <= q <= MAX_EXTRA_MONTHLY /\
    (extraMonthly = Num.NaN \/ extraMonthly = Num.NInf -> q == 0) /\
    (extraMonthly = Num.PInf -> q == MAX_EXTRA_MONTHLY) /\
    (forall v, extraMonthly = Num.Fin v ->
       (v <= 0 -> q == 0) /\ (MAX_EXTRA_MONTHLY <= v -> q == MAX_EXTRA_MONTHLY) /\
       (0 <= v <= MAX_EXTRA_MONTHLY -> q == v)).
Proof.
  unfold safeExtra.
  assert (Hcap : 0 <= MAX_EXTRA_MONTHLY) by (unfold MAX_EXTRA_MONTHLY; lra).
  destruct (clamp_range 0 MAX_EXTRA_MONTHLY (Num.or_else extraMonthly (Num.Fin 0))
              Hcap (or_else_not_NaN _ _)) as (q & Hq & Hr & Hp & Hn & Hf).
  exists q. split; [exact Hq|]. split; [exact Hr|].
  split; [|split].
  - intros [-> | ->].
    + rewrite (Hf 0 eq_refl). split_minmax; lra.
    + rewrite (Hn eq_refl). reflexivity.
  - intros ->. rewrite (Hp eq_refl). reflexivity.
  - intros v ->.
    destruct (or_else_finite v 0) as (w & Hw & Hv).
    rewrite (Hf w Hw).
    repeat split; intros; split_minmax; destruct Hv as [Hv | [Hv ->]]; lra.
Qed.

Lemma substring_length (n : nat) (s : string) :
  (String.length (String.substring 0 n s) <= n)%nat.
Proof.
  revert s. induction n as [|n IH]; intros [|c s]; simpl; try lia.
  specialize (IH s). lia.
Qed.

Lemma floor_zero_cases (x : Num.t) :
  (Num.max (Num.Fin 0) (Num.or_else x (Num.Fin 0)) = Num.PInf /\ x = Num.PInf) \/
  exists q, Num.max (Num.Fin 0) (Num.or_else x (Num.Fin 0)) = Num.Fin q /\
            0 <= q /\ x <> Num.PInf.
Proof.
  destruct (Num.or_else x (Num.Fin 0)) eqn:E.
  - now apply or_else_not_NaN in E.
  - left. split; [reflexivity|]. now apply or_else_PInf in E.
  - right. exists 0. cbn [Num.max]. split; [reflexivity|]. split; [lra|].
    intros ->. discriminate.
  - right. exists (Qmax 0 q). cbn [Num.max]. split; [reflexivity|].
    split; [apply Q.le_max_l|]. intros ->. discriminate.
Qed.

Lemma sanitize_amounts (d : CustomDebt) :
  (to_DebtInput (sanitize d) = None <->
   cd_balance d = Num.PInf \/ cd_minimum d = Num.PInf) /\
  (forall di, to_DebtInput (sanitize d) = Some di ->
     valid_debt di /\ id di = cd_id d /\ (String.length (name di) <= 200)%nat) /\
  (exists r, sd_rate (sanitize d) = Num.Fin r /\ 0 <= r <= 100) /\
  Num.geb (sd_balance (sanitize d)) (Num.Fin 0) = true /\
  Num.geb (sd_minimum (sanitize d)) (Num.Fin 0) = true.
Proof.
  destruct d as [i n b r m].
  unfold sanitize, to_DebtInput.
  cbn [cd_id cd_name cd_balance cd_rate cd_minimum
       sd_id sd_name sd_balance sd_rate sd_minimum].
  destruct (clamp_range_inner 0 100 (Num.or_else r (Num.Fin 0))
              ltac:(lra) (or_else_not_NaN _ _)) as (qr & -> & Hr).
  cbn [Num.to_Q].
  set (B := Num.max (Num.Fin 0) (Num.or_else b (Num.Fin 0))).
  set (M := Num.max (Num.Fin 0) (Num.or_else m (Num.Fin 0))).
  pose proof (floor_zero_cases b) as HB. fold B in HB.
  pose proof (floor_zero_cases m) as HM. fold M in HM.
  clearbody B M.
  destruct HB as [[-> Hb] | (qb & -> & Hqb & Hb)];
    destruct HM as [[-> Hm] | (qm & -> & Hqm & Hm)]; cbn [Num.to_Q Num.geb].
  - repeat split; auto; try discriminate. exists qr. now split.
  - repeat split; auto; try discriminate. exists qr. now split.
    unfold JS.geb. now apply Qle_bool_iff.
  - repeat split; auto; try discriminate. exists qr. now split.
    unfold JS.geb. now apply Qle_bool_iff.
  - split; [|split; [|split; [|split]]].
    + split; [discriminate|]. intros [?|?]; congruence.
    + intros di [= <-]. cbn [id name]. split; [|split].
      * unfold valid_debt. cbn [balance rate minimum]. tauto.
      * reflexivity.
      * apply substring_length.
    + exists qr. now split.
    + unfold JS.geb. now apply Qle_bool_iff.
    + unfold JS.geb. now apply Qle_bool_iff.
Qed.

(** X16. A sanitized custom debt always has a finite rate between 0 and 100
    and a name of at most 200 characters, and its balance and minimum are
    never [NaN] nor negative.  It is a debt with finite amounts exactly when
    neither [Number(d.balance)] nor [Number(d.minimum)] is [+Infinity], which
    the handler lets through; such a debt satisfies [valid_debt]. *)
Theorem sanitize_valid (d : CustomDebt) :
  (to_DebtInput (sanitize d) = None <->
   cd_balance d = Num.PInf \/ cd_minimum d = Num.PInf) /\
  (forall di, to_DebtInput (sanitize d) = Some di ->
     valid_debt di /\ id di = cd_id d /\ (String.length (name di) <= 200)%nat) /\
  (exists r, sd_rate (sanitize d) = Num.Fin r /\ 0 <= r <= 100) /\
  Num.geb (sd_balance (sanitize d)) (Num.Fin 0) = true /\
  Num.geb (sd_minimum (sanitize d)) (Num.Fin 0) = true /\
  (String.length (sd_name (sanitize d)) <= 200)%nat.
Proof.
  destruct (sanitize_amounts d) as (H1 & H2 & H3 & H4 & H5).
  split; [exact H1|]. split; [exact H2|]. split; [exact H3|].
  split; [exact H4|]. split; [exact H5|].
  apply substring_length.
Qed.

Lemma sanitize_valid_witness :
  exists di,
    to_DebtInput (sanitize (mkCustom "a" "Card" (Num.Fin 1200) (Num.Fin 250) Num.NaN))
      = Some di /\
    valid_debt di /\ rate di == 100 /\ minimum di == 0.
Proof.
  eexists. split; [reflexivity|]. split.
  - now apply (sanitize_valid
                 (mkCustom "a" "Card" (Num.Fin 1200) (Num.Fin 250) Num.NaN)).
  - split; reflexivity.
Defined.

Lemma years_param_range (rawYears : Num.t) :
  exists y, years_param rawYears = Num.Fin y /\ 1 <= y <= 50.
Proof.
  destruct (clamp_range 1 50 (Num.or_else rawYears (Num.Fin 30))
              ltac:(lra) (or_else_not_NaN _ _)) as (q & Hq & Hr & _).
  now exists q.
Qed.

Lemma annualReturn_param_range (annualReturn : option Num.t) :
  exists p, annualReturn_param annualReturn = Num.Fin p /\ -50 <= p <= 100.
Proof.
  unfold annualReturn_param.
  set (a := match annualReturn with Some v => v | None => Num.Fin 7 end).
  assert (Ha : exists v, (if negb (Num.isFinite a) then Num.Fin 7 else a) = Num.Fin v).
  { destruct a; cbn [Num.isFinite negb]; eauto. }
  destruct Ha as [v ->]. cbn [Num.max Num.min].
  exists (Qmin (Qmax v (-50)) 100). split; [reflexivity|].
  split; [apply Q.min_glb; [apply Q.le_max_r|lra]|apply Q.le_min_r].
Qed.

Lemma capped_param_range (cap : Q) (v : Num.t) :
  0 <= cap ->
  exists q, capped_param cap (Some v) = Some (Num.Fin q) /\ 0 <= q <= cap.
Proof.
  intros Hcap. unfold capped_param.
  destruct (clamp_range 0 cap (Num.or_else v (Num.Fin 0)) Hcap (or_else_not_NaN _ _))
    as (q & -> & Hr & _).
  now exists q.
Qed.

Lemma year_iterations_range (y : Q) :
  1 <= y <= 50 -> (1 <= year_iterations y <= 50)%nat.
Proof.
  intros [Hlo Hhi]. unfold year_iterations.
  assert (H1 : (1 <= Qfloor y)%Z).
  { rewrite <- (Qfloor_Z 1). now apply Qfloor_resp_le. }
  assert (H2 : (Qfloor y <= 50)%Z).
  { rewrite <- (Qfloor_Z 50). now apply Qfloor_resp_le. }
  lia.
Qed.

Lemma round_cents_nonneg (x : Q) : 0 <= x -> 0 <= JS.round_cents x.
Proof. intros H. rewrite <- round_cents_zero. now apply round_cents_mono. Qed.

Lemma stored_total_ok (field : Investment -> Num.t) (cap : Q)
    (investments : list Investment) :
  0 <= cap -> Forall (fun i => stored_ok (field i)) investments ->
  exists q, stored_total field cap investments = Num.Fin q /\ 0 <= q.
Proof.
  intros Hcap Hall. unfold stored_total.
  assert (Hsum : forall s, 0 <= s ->
            exists t, fold_left (fun s i => Num.add s (field i)) investments
                        (Num.Fin s) = Num.Fin t /\ 0 <= t).
  { induction Hall as [|i r (v & Hv & Hpos) _ IH]; intros s Hs.
    - exists s. now split.
    - cbn [fold_left]. rewrite Hv. cbn [Num.add]. apply IH. lra. }
  destruct (Hsum 0 ltac:(lra)) as (t & -> & Ht). cbn [Num.min].
  exists (Qmin t cap). split; [reflexivity|]. now apply Q.min_glb.
Qed.

Lemma project_not_negative n p add cur :
  -50 <= p -> 0 <= add -> 0 <= cur ->
  Forall entry_not_negative (project n p add cur).
Proof.
  intros Hp Hadd Hcur. rewrite project_entries, Forall_map.
  apply Forall_forall. intros k _. unfold year_entry, entry_not_negative.
  destruct (growth_months (12 * S k) (p / 100 / 12) add (cur, cur))
    as [bal tc] eqn:E.
  cbn [g_balance contributions fst snd].
  pose proof (growth_months_fst (12 * S k) (p / 100 / 12) add cur cur) as Hf.
  pose proof (growth_months_snd (12 * S k) (p / 100 / 12) add cur cur) as Hs.
  rewrite E in Hf, Hs. cbn [fst snd] in Hf, Hs.
  split; apply round_cents_nonneg.
  - rewrite Hf. apply compound_nonneg; try lra.
    rewrite monthlyRate_eq. lra.
  - rewrite Hs.
    assert (0 <= inject_Z (Z.of_nat (12 * S k)) * add).
    { apply Qmult_le_0_compat; [|lra].
      change 0 with (inject_Z 0). rewrite <- Zle_Qle. lia. }
    lra.
Qed.

(** X17. Whenever the investment-growth handler computes a projection it
    has at least 1 and at most 50 yearly entries.  No entry shows a negative
    balance or negative contributions when each of [initialBalance] and
    [monthlyContribution] is carried by the request, or is summed from
    stored values that are finite and not negative (the sum of the stored
    values is capped from above only). *)
Theorem investment_growth_projection_bounds
    (rawYears : Num.t) (annualReturn initialBalance monthlyContribution : option Num.t)
    (investments : list Investment) :
  let p := investment_growth_projection rawYears annualReturn initialBalance
             monthlyContribution investments in
  (forall entries, p = Some entries -> (1 <= List.length entries <= 50)%nat) /\
  ((initialBalance <> None \/
    Forall (fun i => stored_ok (inv_currentValue i)) investments) ->
   (monthlyContribution <> None \/
    Forall (fun i => stored_ok (inv_monthlyContribution i)) investments) ->
   exists entries, p = Some entries /\ Forall entry_not_negative entries).
Proof.
  intros p. subst p. unfold investment_growth_projection.
  destruct (years_param_range rawYears) as (y & -> & Hy).
  destruct (annualReturn_param_range annualReturn) as (pct & -> & Hp).
  cbn [Num.to_Q]. split.
  - intros entries.
    destruct (Num.to_Q _) as [cur|]; [|discriminate].
    destruct (Num.to_Q _) as [add|]; [|discriminate].
    intros [= <-]. rewrite project_entries, List.length_map, List.length_seq.
    now apply year_iterations_range.
  - intros Hcur Hadd.
    assert (Hc : exists cur,
              match capped_param 1000000000 initialBalance with
              | Some v => v
              | None => stored_total inv_currentValue 1000000000 investments
              end = Num.Fin cur /\ 0 <= cur).
    { destruct initialBalance as [v|].
      - destruct (capped_param_range 1000000000 v ltac:(lra)) as (q & -> & Hq).
        exists q. split; [reflexivity|lra].
      - cbn [capped_param]. destruct Hcur as [Hcur|Hcur]; [congruence|].
        apply stored_total_ok; [lra|exact Hcur]. }
    assert (Ha : exists add,
              match capped_param 1000000 monthlyContribution with
              | Some v => v
              | None => stored_total inv_monthlyContribution 1000000 investments
              end = Num.Fin add /\ 0 <= add).
    { destruct monthlyContribution as [v|].
      - destruct (capped_param_range 1000000 v ltac:(lra)) as (q & -> & Hq).
        exists q. split; [reflexivity|lra].
      - cbn [capped_param]. destruct Hadd as [Hadd|Hadd]; [congruence|].
        apply stored_total_ok; [lra|exact Hadd]. }
    destruct Hc as (cur & -> & Hcur'). destruct Ha as (add & -> & Hadd').
    cbn [Num.to_Q]. eexists. split; [reflexivity|].
    apply project_not_negative; lra.
Qed.

Lemma investment_growth_projection_bounds_witness :
  exists entries,
    investment_growth_projection (Num.Fin (5 # 2)) None (Some (Num.Fin 1000)) None
      [mkInvestment (Num.Fin 5000) (Num.Fin 150)] = Some entries /\
    Forall entry_not_negative entries /\ List.length entries = 2%nat.
Proof.
  destruct (investment_growth_projection_bounds (Num.Fin (5 # 2)) None
              (Some (Num.Fin 1000)) None [mkInvestment (Num.Fin 5000) (Num.Fin 150)])
    as [_ H].
  destruct H as (entries & He & Hn).
  - left. discriminate.
  - right. repeat constructor. exists 150. split; [reflexivity|lra].
  - exists entries. split; [exact He|]. split; [exact Hn|].
    vm_compute in He. injection He as <-. reflexivity.
Defined.

(** The lower bound is not the handler's: a stored value below zero goes
    through the fallback and the year's balance is negative. *)
Example investment_growth_projection_stored_debt :
  exists e,
    investment_growth_projection (Num.Fin 1) None None (Some (Num.Fin 0))
      [mkInvestment (Num.Fin (-100)) (Num.Fin 0)] = Some [e] /\
    g_balance e < 0.
Proof.
  eexists. split; [vm_compute; reflexivity|]. vm_compute. reflexivity.
Qed.

(** *** The condensed schedule *)

Lemma condense_filter_from {A : Type} (l : list A) :
  condense l = filter_from (keep_at (List.length l)) 0 l.
Proof. reflexivity. Qed.

Lemma filter_from_cons {A : Type} (keep : nat -> bool) (s : nat) (x : A) (l : list A) :
  filter_from keep s (x :: l) =
  (if keep s then [x] else []) ++ filter_from keep (S s) l.
Proof. unfold filter_from. simpl. now destruct (keep s). Qed.

Lemma filter_from_map {A B : Type} (f : A -> B) keep s (l : list A) :
  map f (filter_from keep s l) = filter_from keep s (map f l).
Proof.
  revert s. induction l as [|x l IH]; intros s; [reflexivity|].
  cbn [map]. rewrite !filter_from_cons, map_app, IH. now destruct (keep s).
Qed.

Lemma filter_from_seq keep s m :
  filter_from keep s (seq (S s) m) = filter (fun k => keep (k - 1)%nat) (seq (S s) m).
Proof.
  revert s. induction m as [|m IH]; intros s; [reflexivity|].
  cbn [seq]. rewrite filter_from_cons, IH. cbn [filter].
  replace (S s - 1)%nat with s by lia. now destruct (keep s).
Qed.

Lemma filter_from_firstn {A : Type} keep s (l : list A) :
  (forall i, (i < 12)%nat -> keep i = true) ->
  firstn (12 - s) (filter_from keep s l) = firstn (12 - s) l.
Proof.
  intros Hk. revert s. induction l as [|x l IH]; intros s.
  - reflexivity.
  - rewrite filter_from_cons.
    destruct (Nat.lt_ge_cases s 12) as [Hlt | Hge].
    + rewrite Hk by exact Hlt. replace (12 - s)%nat with (S (12 - S s)) by lia.
      cbn [app firstn]. now rewrite IH.
    + replace (12 - s)%nat with 0%nat by lia. reflexivity.
Qed.

Lemma filter_from_last {A : Type} keep s (l : list A) (d : A) :
  l <> [] -> keep (s + List.length l - 1)%nat = true ->
  exists pre, filter_from keep s l = pre ++ [last l d].
Proof.
  revert s. induction l as [|x l IH]; intros s Hne Hk; [congruence|].
  rewrite filter_from_cons. destruct l as [|y l].
  - cbn [List.length] in Hk. replace (s + 1 - 1)%nat with s in Hk by lia.
    rewrite Hk. exists []. reflexivity.
  - destruct (IH (S s)) as [pre Hpre]; [discriminate| |].
    + cbn [List.length] in *. rewrite <- Hk. f_equal. lia.
    + rewrite Hpre. exists ((if keep s then [x] else []) ++ pre).
      now rewrite <- app_assoc.
Qed.

Lemma filter_from_length {A : Type} keep s (l : list A) :
  List.length (filter_from keep s l) =
  List.length (filter keep (seq s (List.length l))).
Proof.
  revert s. induction l as [|x l IH]; intros s; [reflexivity|].
  rewrite filter_from_cons, List.length_app, IH. cbn [List.length seq filter].
  now destruct (keep s).
Qed.

Lemma filter_or_length {A : Type} (p q : A -> bool) (l : list A) :
  (List.length (filter (fun x => p x || q x) l) <=
   List.length (filter p l) + List.length (filter q l))%nat.
Proof.
  induction l as [|x l IH]; [simpl; lia|].
  cbn [filter]. destruct (p x), (q x); cbn [orb List.length]; lia.
Qed.

Lemma filter_index_above k s m :
  (k < s)%nat -> filter (fun i => (i =? k)%nat) (seq s m) = [].
Proof.
  revert s. induction m as [|m IH]; intros s Hlt; [reflexivity|].
  cbn [seq filter]. destruct (Nat.eqb_spec s k); [lia|]. apply IH. lia.
Qed.

Lemma filter_index_once k s m :
  (List.length (filter (fun i => (i =? k)%nat) (seq s m)) <= 1)%nat.
Proof.
  revert s. induction m as [|m IH]; intros s; [simpl; lia|].
  cbn [seq filter]. destruct (Nat.eqb_spec s k) as [->|Hne]; [|apply IH].
  rewrite filter_index_above by lia. simpl. lia.
Qed.

(** How many indices below [n] are in the first twelve or a multiple of 3. *)
Lemma regular_count n :
  let B := List.length
             (filter (fun i => (i <? 12)%nat || (i mod 3 =? 0)%nat) (seq 0 n)) in
  (B <= n /\ 3 * B <= n + 24 + (2 * n) mod 3)%nat.
Proof.
  induction n as [|n [IH1 IH2]]; [simpl; lia|].
  rewrite seq_S, filter_app, List.length_app. cbn [Nat.add filter].
  set (B := List.length (filter _ (seq 0 n))) in *. clearbody B.
  pose proof (Nat.div_mod_eq n 3) as E1.
  pose proof (Nat.mod_upper_bound n 3 ltac:(lia)) as U1.
  pose proof (Nat.div_mod_eq (2 * n) 3) as E2.
  pose proof (Nat.mod_upper_bound (2 * n) 3 ltac:(lia)) as U2.
  pose proof (Nat.div_mod_eq (2 * S n) 3) as E3.
  pose proof (Nat.mod_upper_bound (2 * S n) 3 ltac:(lia)) as U3.
  destruct (Nat.ltb_spec n 12) as [Hlt | Hge]; cbn [orb List.length].
  - lia.
  - destruct (Nat.eqb_spec (n mod 3) 0) as [Hm | Hm]; cbn [List.length]; lia.
Qed.

Lemma condense_length {A : Type} (l : list A) :
  (3 * List.length (condense l) <= List.length l + 29)%nat.
Proof.
  rewrite condense_filter_from, filter_from_length.
  set (n := List.length l). unfold keep_at.
  pose proof (filter_or_length (fun i => (i <? 12)%nat || (i mod 3 =? 0)%nat)
                (fun i => (i =? n - 1)%nat) (seq 0 n)) as Hor.
  pose proof (filter_index_once (n - 1) 0 n) as H1.
  destruct (regular_count n) as [_ H2]. cbv zeta in H2.
  assert ((2 * n) mod 3 < 3)%nat by (apply Nat.mod_upper_bound; lia).
  lia.
Qed.

Lemma keep_at_shown n k :
  (1 <= k <= n)%nat -> keep_at n (k - 1) = shown_month n k.
Proof.
  intros Hk. unfold keep_at, shown_month.
  pose proof (Nat.div_mod_eq (k - 1) 3) as E1.
  pose proof (Nat.mod_upper_bound (k - 1) 3 ltac:(lia)) as U1.
  pose proof (Nat.div_mod_eq k 3) as E2.
  pose proof (Nat.mod_upper_bound k 3 ltac:(lia)) as U2.
  destruct (Nat.ltb_spec (k - 1) 12), (Nat.leb_spec k 12); try lia;
    destruct (Nat.eqb_spec ((k - 1) mod 3) 0), (Nat.eqb_spec (k mod 3) 1); try lia;
    destruct (Nat.eqb_spec (k - 1) (n - 1)), (Nat.eqb_spec k n); try lia;
    reflexivity.
Qed.

(** X18. The schedule the debt-payoff handler answers with shows months 1
    to 12, then months 13, 16, 19, ... and always the final month: its first
    twelve entries and its last entry are those of the full schedule, and it
    never has more than 129 entries. *)
Theorem condensed_schedule (ds : list DebtInput) (s : Strategy) (extraMonthly : Q) :
  let r := calculatePayoff ds s extraMonthly in
  let c := condense (schedule r) in
  map month c = filter (shown_month (months r)) (seq 1 (months r)) /\
  firstn 12 c = firstn 12 (schedule r) /\
  (forall d, last c d = last (schedule r) d) /\
  (List.length c <= 129)%nat.
Proof.
  intros r c.
  pose proof (payoff_inv_loop maxMonths (sort_debts s ds) extraMonthly _
                (payoff_inv_init (sort_debts s ds))) as [Hm _ _ _ _ _].
  pose proof (loop_month_cap maxMonths (sort_debts s ds) extraMonthly
                (init_state (sort_debts s ds)) ltac:(simpl; lia)) as Hcap.
  assert (Hlen : List.length (schedule r) = months r).
  { unfold r, calculatePayoff. cbn [schedule months].
    rewrite <- (List.length_map month), Hm. apply List.length_seq. }
  assert (Hmonths : map month (schedule r) = seq 1 (months r)) by exact Hm.
  assert (H360 : (months r <= 360)%nat) by exact Hcap.
  clearbody r. clear Hm Hcap. subst c.
  split; [|split; [|split]].
  - rewrite condense_filter_from, filter_from_map, Hmonths, Hlen, filter_from_seq.
    apply filter_ext_in. intros k Hk. apply in_seq in Hk.
    apply keep_at_shown. lia.
  - rewrite condense_filter_from.
    apply (filter_from_firstn (keep_at (List.length (schedule r))) 0).
    intros i Hi. unfold keep_at. destruct (Nat.ltb_spec i 12); [reflexivity|lia].
  - intros d. destruct (schedule r) as [|pm l] eqn:E; [reflexivity|].
    rewrite condense_filter_from.
    destruct (filter_from_last (keep_at (List.length (pm :: l))) 0 (pm :: l) d)
      as [pre ->]; [discriminate| |apply last_last].
    unfold keep_at. cbn [Nat.add]. rewrite Nat.eqb_refl. apply orb_true_r.
  - pose proof (condense_length (schedule r)). lia.
Qed.

(** ** Cash-flow forecast request *)

Lemma Qmin_cases (a b : Q) :
  (Qmin a b = a /\ a <= b) \/ (Qmin a b = b /\ b <= a).
Proof.
  unfold Qmin, GenericMinMax.gmin. destruct (a ?= b) eqn:E.
  - left. split; [reflexivity|]. apply Qeq_alt in E. lra.
  - left. split; [reflexivity|]. apply Qlt_alt in E. lra.
  - right. split; [reflexivity|]. apply Qgt_alt in E. lra.
Qed.

Lemma fold_min_finite (l : list Q) (a : Q) :
  exists m, fold_left (fun m v => Num.min m (Num.Fin v)) l (Num.Fin a) = Num.Fin m /\
            (m = a \/ In m l) /\ m <= a /\ Forall (fun v => m <= v) l.
Proof.
  revert a. induction l as [|v l IH]; intros a.
  - exists a. repeat split; auto. lra.
  - cbn [fold_left Num.min].
    destruct (IH (Qmin a v)) as (m & Hm & Hin & Hle & Hall).
    exists m. split; [exact Hm|].
    destruct (Qmin_cases a v) as [[E Hav] | [E Hav]]; rewrite E in *.
    + split; [|split].
      * destruct Hin as [->|Hin]; [now left|right; now right].
      * exact Hle.
      * constructor; [lra|exact Hall].
    + split; [|split].
      * destruct Hin as [->|Hin]; right; [now left|now right].
      * lra.
      * constructor; [exact Hle|exact Hall].
Qed.

Lemma math_min_attained (l : list Q) :
  l <> [] ->
  exists m, math_min l = Num.Fin m /\ In m l /\ Forall (fun v => m <= v) l.
Proof.
  destruct l as [|v l]; [congruence|]. intros _.
  unfold math_min. cbn [fold_left Num.min].
  destruct (fold_min_finite l v) as (m & Hm & Hin & Hle & Hall).
  exists m. split; [exact Hm|]. split.
  - destruct Hin as [->|Hin]; [now left|now right].
  - constructor; assumption.
Qed.

Lemma days_param_range (parsed : Num.t) :
  exists n, day_iterations (days_param parsed) = Some n /\ (1 <= n <= 365)%nat.
Proof.
  destruct (clamp_range 1 365 (Num.or_else parsed (Num.Fin 90))
              ltac:(lra) (or_else_not_NaN _ _)) as (q & Hq & [Hlo Hhi] & _).
  unfold days_param. rewrite Hq. cbn [day_iterations].
  eexists. split; [reflexivity|].
  assert (H1 : (1 <= Qceiling q)%Z).
  { rewrite <- (Qceiling_Z 1). now apply Qceiling_resp_le. }
  assert (H2 : (Qceiling q <= 365)%Z).
  { rewrite <- (Qceiling_Z 365). now apply Qceiling_resp_le. }
  lia.
Qed.

(** X19. Whatever [parseInt] makes of the [days] query parameter, the
    forecast covers at least 1 and at most 365 days.  The reported
    [minimumProjectedBalance] is therefore a finite number: it is the
    projected balance of some day, no day is below it, and
    [lowBalanceAlert] is raised exactly when it is below 500. *)
Theorem cash_flow_forecast_alert (today : Calendar.Date)
    (isoDate : Calendar.Date -> string) (parsed : Num.t) (currentBalance : Q)
    (recurringIncome recurringExpenses : list RecurringFlow) :
  exists r m,
    cash_flow_forecast today isoDate parsed currentBalance recurringIncome
      recurringExpenses = Some r /\
    (1 <= List.length (fr_forecast r) <= 365)%nat /\
    fr_minimumProjectedBalance r = Num.Fin m /\
    In m (map projectedBalance (fr_forecast r)) /\
    Forall (fun f => m <= projectedBalance f) (fr_forecast r) /\
    (fr_lowBalanceAlert r = true <-> m < 500).
Proof.
  unfold cash_flow_forecast.
  destruct (days_param_range parsed) as (n & -> & Hn).
  set (fc := forecastCashFlow today isoDate currentBalance recurringIncome
               recurringExpenses n).
  assert (Hlen : List.length fc = n) by apply forecast_length.
  destruct (math_min_attained (map projectedBalance fc)) as (m & Hm & Hin & Hall).
  { intros E. apply (f_equal (@List.length Q)) in E.
    rewrite List.length_map, Hlen in E. simpl in E. lia. }
  eexists. exists m. split; [reflexivity|].
  cbn [fr_forecast fr_lowBalanceAlert fr_minimumProjectedBalance].
  rewrite Forall_map in Hall.
  repeat split; try lia; auto.
  - unfold lowBalanceAlert. rewrite existsb_exists. intros (f & Hf & Hlt).
    rewrite Forall_forall in Hall. specialize (Hall f Hf).
    unfold JS.ltb in Hlt. apply negb_true_iff in Hlt.
    destruct (Qle_bool 500 (projectedBalance f)) eqn:E; [discriminate|].
    assert (~ 500 <= projectedBalance f) by (rewrite <- Qle_bool_iff; congruence).
    lra.
  - intros Hlt. unfold lowBalanceAlert. rewrite existsb_exists.
    apply in_map_iff in Hin. destruct Hin as (f & <- & Hf).
    exists f. split; [exact Hf|].
    unfold JS.ltb. apply negb_true_iff.
    destruct (Qle_bool 500 (projectedBalance f)) eqn:E; [|reflexivity].
    apply Qle_bool_iff in E. lra.
Qed.

(** ** CSV import *)

Lemma trim_start_fixed (s : Str.t) : starts_ok s = true -> Str.trim_start s = s.
Proof.
  destruct s as [|c r]; [reflexivity|]. cbn [starts_ok Str.trim_start].
  now destruct (Str.is_space c).
Qed.

Lemma trim_start_starts_ok (s : Str.t) : starts_ok (Str.trim_start s) = true.
Proof.
  induction s as [|c r IH]; [reflexivity|]. cbn [Str.trim_start].
  destruct (Str.is_space c) eqn:E; [exact IH|]. cbn [starts_ok]. now rewrite E.
Qed.

Lemma trim_start_suffix (s : Str.t) : exists p, s = p ++ Str.trim_start s.
Proof.
  induction s as [|c r [p IH]]; [now exists []|]. cbn [Str.trim_start].
  destruct (Str.is_space c).
  - exists (c :: p). cbn [app]. now rewrite <- IH.
  - now exists [].
Qed.

Lemma starts_ok_prefix (a b : Str.t) : starts_ok (a ++ b) = true -> starts_ok a = true.
Proof. destruct a; [reflexivity|exact (fun H => H)]. Qed.

Lemma starts_ok_app (a b : Str.t) : a <> [] -> starts_ok (a ++ b) = starts_ok a.
Proof. destruct a; [congruence|reflexivity]. Qed.

Lemma ends_ok_app (a b : Str.t) : b <> [] -> ends_ok (a ++ b) = ends_ok b.
Proof.
  intros Hb. unfold ends_ok. rewrite rev_app_distr. apply starts_ok_app.
  intros E. apply (f_equal (@rev N)) in E. rewrite rev_involutive in E.
  now apply Hb.
Qed.

Lemma trim_bounds (s : Str.t) :
  starts_ok (Str.trim s) = true /\ ends_ok (Str.trim s) = true.
Proof.
  unfold Str.trim, Str.trim_end, ends_ok. rewrite rev_involutive.
  split; [|apply trim_start_starts_ok].
  destruct (trim_start_suffix (rev (Str.trim_start s))) as [p Hp].
  apply (f_equal (@rev N)) in Hp. rewrite rev_involutive, rev_app_distr in Hp.
  apply starts_ok_prefix with (b := rev p). rewrite <- Hp.
  apply trim_start_starts_ok.
Qed.

Lemma trim_fixed (s : Str.t) :
  starts_ok s = true -> ends_ok s = true -> Str.trim s = s.
Proof.
  intros Hs He. unfold Str.trim, Str.trim_end.
  rewrite (trim_start_fixed s Hs), (trim_start_fixed (rev s) He).
  apply rev_involutive.
Qed.

Lemma trim_idempotent (s : Str.t) : Str.trim (Str.trim s) = Str.trim s.
Proof. destruct (trim_bounds s). now apply trim_fixed. Qed.

Lemma trim_start_In (c : N) (s : Str.t) : In c (Str.trim_start s) -> In c s.
Proof.
  destruct (trim_start_suffix s) as [p Hp]. intros H. rewrite Hp.
  apply in_or_app. now right.
Qed.

Lemma trim_In (c : N) (s : Str.t) : In c (Str.trim s) -> In c s.
Proof.
  unfold Str.trim, Str.trim_end. intros H.
  apply in_rev in H. apply trim_start_In in H. apply in_rev in H.
  now apply trim_start_In.
Qed.

Lemma split_nonempty (sep : N) (s : Str.t) : Str.split sep s <> [].
Proof.
  induction s as [|c r IH]; [discriminate|]. cbn [Str.split].
  destruct (c =? sep)%N; [discriminate|].
  destruct (Str.split sep r); discriminate.
Qed.

Lemma split_pieces (sep : N) (s : Str.t) :
  Forall (fun p => forall c, In c p -> In c s /\ c <> sep) (Str.split sep s).
Proof.
  induction s as [|c r IH]; cbn [Str.split].
  - constructor; [|constructor]. intros c [].
  - destruct (N.eqb_spec c sep) as [->|Hne].
    + constructor; [intros c []|].
      eapply Forall_impl; [|exact IH]. intros p Hp x Hx.
      destruct (Hp x Hx). split; [now right|assumption].
    + destruct (Str.split sep r) as [|piece pieces].
      * constructor; [|constructor]. intros x [<-|[]]. split; [now left|assumption].
      * inversion IH as [|? ? H1 H2]; subst. constructor.
        -- intros x [<-|Hx]; [split; [now left|assumption]|].
           destruct (H1 x Hx). split; [now right|assumption].
        -- eapply Forall_impl; [|exact H2]. intros p Hp x Hx.
           destruct (Hp x Hx). split; [now right|assumption].
Qed.

Lemma parse_char_good (P : N -> Prop) (st : LineState) (char : N) :
  line_good P st -> (char <> Str.quote -> P char) ->
  line_good P (parse_char st char).
Proof.
  intros [Hcur Hres] Hchar. unfold parse_char.
  destruct (N.eqb_spec char Str.quote) as [Hq | Hq]; [now split|].
  destruct ((char =? Str.comma)%N && negb (ls_inQuotes st)); split;
    cbn [ls_current ls_result].
  - intros c [].
  - apply Forall_app. split; [exact Hres|]. constructor; [|constructor].
    split; [apply trim_idempotent|]. intros c Hc. apply trim_In in Hc. auto.
  - intros c Hc. apply in_app_or in Hc. destruct Hc as [Hc|[<-|[]]]; auto.
  - exact Hres.
Qed.

Lemma parse_line_good (P : N -> Prop) (line : Str.t) (st : LineState) :
  line_good P st -> (forall c, In c line -> c <> Str.quote -> P c) ->
  line_good P (fold_left parse_char line st).
Proof.
  revert st. induction line as [|char line IH]; intros st Hst HP; [exact Hst|].
  cbn [fold_left]. apply IH.
  - apply parse_char_good; [exact Hst|]. intros Hq. apply HP; [now left|exact Hq].
  - intros c Hc. apply HP. now right.
Qed.

Lemma parse_line_fields (line : Str.t) :
  parse_line line <> [] /\
  Forall (fun f => Str.trim f = f /\
                   forall c, In c f -> In c line /\ c <> Str.quote)
         (parse_line line).
Proof.
  unfold parse_line. split; [now destruct (ls_result _)|].
  destruct (parse_line_good (fun c => In c line /\ c <> Str.quote) line
              (mkLine [] [] false)) as [H1 H2].
  - split; [intros c []|constructor].
  - now split.
  - apply Forall_app. split; [exact H2|].
    constructor; [|constructor]. split; [apply trim_idempotent|].
    intros c Hc. apply trim_In in Hc. now apply H1.
Qed.

(** X20. [parseCSV] always yields at least one row and every row has at
    least one field.  Every field is trimmed and holds neither a quote nor a
    line feed. *)
Theorem parseCSV_shape (content : Str.t) :
  parseCSV content <> [] /\
  Forall (fun row => row <> [] /\ Forall plain_field row) (parseCSV content).
Proof.
  unfold parseCSV. split.
  - intros E. apply map_eq_nil in E. now apply split_nonempty in E.
  - rewrite Forall_map.
    eapply Forall_impl; [|apply (split_pieces Str.newline (Str.trim content))].
    intros line Hline. destruct (parse_line_fields line) as [Hne Hf].
    split; [exact Hne|].
    eapply Forall_impl; [|exact Hf]. intros f [Ht Hc].
    split; [exact Ht|]. split; intros Hin; destruct (Hc _ Hin) as [Hl Hq].
    + now apply Hq.
    + now destruct (Hline _ Hl).
Qed.

(** *** Reading back what the writer wrote *)

Lemma has_comma (f : Str.t) :
  existsb (N.eqb Str.comma) f = true <-> In Str.comma f.
Proof.
  rewrite existsb_exists. split.
  - intros (c & Hc & E). apply N.eqb_eq in E. now subst.
  - intros H. exists Str.comma. split; [exact H|apply N.eqb_refl].
Qed.

(** A run of characters that neither toggle the quotes nor end a field. *)
Lemma parse_run (f : Str.t) (res : list Str.t) (cur : Str.t) (q : bool) :
  ~ In Str.quote f -> (q = true \/ ~ In Str.comma f) ->
  fold_left parse_char f (mkLine res cur q) = mkLine res (cur ++ f) q.
Proof.
  revert cur. induction f as [|c f IH]; intros cur Hq Hc.
  - cbn [fold_left]. now rewrite app_nil_r.
  - cbn [fold_left]. unfold parse_char at 2. cbn [ls_result ls_current ls_inQuotes].
    destruct (N.eqb_spec c Str.quote) as [->|_]; [exfalso; apply Hq; now left|].
    assert (E : (c =? Str.comma)%N && negb q = false).
    { destruct Hc as [->|Hc]; [apply andb_false_r|].
      destruct (N.eqb_spec c Str.comma) as [->|_]; [|reflexivity].
      exfalso. apply Hc. now left. }
    rewrite E, IH.
    + now rewrite <- app_assoc.
    + intros H. apply Hq. now right.
    + destruct Hc as [?|Hc]; [now left|right]. intros H. apply Hc. now right.
Qed.

Lemma parse_field (f : Str.t) (res : list Str.t) :
  ~ In Str.quote f ->
  fold_left parse_char (write_field f) (mkLine res [] false) = mkLine res f false.
Proof.
  intros Hq. unfold write_field.
  destruct (existsb (N.eqb Str.comma) f) eqn:E.
  - cbn [fold_left]. rewrite fold_left_app.
    change (parse_char (mkLine res [] false) Str.quote) with (mkLine res [] true).
    rewrite parse_run by auto. reflexivity.
  - apply parse_run; [exact Hq|]. right. intros H. apply has_comma in H. congruence.
Qed.

Lemma write_row_cons (f g : Str.t) (row : list Str.t) :
  write_row (f :: g :: row) = write_field f ++ Str.comma :: write_row (g :: row).
Proof. reflexivity. Qed.

Lemma parse_row (row : list Str.t) (f : Str.t) (res : list Str.t) :
  Forall plain_field (f :: row) ->
  fold_left parse_char (write_row (f :: row)) (mkLine res [] false) =
  mkLine (res ++ removelast (f :: row)) (last (f :: row) []) false.
Proof.
  revert f res. induction row as [|g row IH]; intros f res Hall.
  - inversion Hall as [|? ? [_ [Hq _]] _]; subst.
    change (write_row [f]) with (write_field f).
    rewrite parse_field by exact Hq. cbn [removelast last]. now rewrite app_nil_r.
  - inversion Hall as [|? ? [Ht [Hq _]] Hrest]; subst.
    rewrite write_row_cons, fold_left_app, parse_field by exact Hq.
    cbn [fold_left].
    change (parse_char (mkLine res f false) Str.comma)
      with (mkLine (res ++ [Str.trim f]) [] false).
    rewrite Ht, IH by exact Hrest.
    change (removelast (f :: g :: row)) with (f :: removelast (g :: row)).
    change (last (f :: g :: row) []) with (last (g :: row) []).
    now rewrite <- app_assoc.
Qed.

Lemma parse_line_write_row (row : list Str.t) :
  row <> [] -> Forall plain_field row -> parse_line (write_row row) = row.
Proof.
  destruct row as [|f row]; [congruence|]. intros _ Hall.
  unfold parse_line. rewrite parse_row by exact Hall.
  cbn [ls_result ls_current app].
  assert (Hl : plain_field (last (f :: row) [])).
  { rewrite Forall_forall in Hall. apply Hall.
    destruct (@exists_last _ (f :: row)) as (l' & a & E); [discriminate|].
    rewrite E, last_last. apply in_or_app. right. now left. }
  destruct Hl as [-> _]. symmetry. apply app_removelast_last. discriminate.
Qed.

Lemma split_whole (sep : N) (p : Str.t) : ~ In sep p -> Str.split sep p = [p].
Proof.
  induction p as [|c p IH]; intros H; [reflexivity|]. cbn [Str.split].
  destruct (N.eqb_spec c sep) as [->|_]; [exfalso; apply H; now left|].
  rewrite IH; [reflexivity|]. intros Hin. apply H. now right.
Qed.

Lemma split_piece (sep : N) (p r : Str.t) :
  ~ In sep p -> Str.split sep (p ++ sep :: r) = p :: Str.split sep r.
Proof.
  induction p as [|c p IH]; intros H.
  - cbn [app Str.split]. now rewrite N.eqb_refl.
  - cbn [app Str.split].
    destruct (N.eqb_spec c sep) as [->|_]; [exfalso; apply H; now left|].
    rewrite IH; [reflexivity|]. intros Hin. apply H. now right.
Qed.

Lemma split_join_with (sep : N) (lines : list Str.t) :
  lines <> [] -> Forall (fun l => ~ In sep l) lines ->
  Str.split sep (join_with sep lines) = lines.
Proof.
  induction lines as [|l lines IH]; [congruence|]. intros _ Hall.
  inversion Hall as [|? ? Hl Hrest]; subst.
  destruct lines as [|l' lines].
  - cbn [join_with]. now apply split_whole.
  - change (join_with sep (l :: l' :: lines))
      with (l ++ sep :: join_with sep (l' :: lines)).
    rewrite split_piece by exact Hl. f_equal. apply IH; [discriminate|exact Hrest].
Qed.

Lemma join_with_In (sep c : N) (pieces : list Str.t) :
  In c (join_with sep pieces) -> c = sep \/ exists p, In p pieces /\ In c p.
Proof.
  induction pieces as [|p pieces IH]; [intros []|].
  destruct pieces as [|p' pieces].
  - cbn [join_with]. intros H. right. exists p. split; [now left|exact H].
  - change (join_with sep (p :: p' :: pieces))
      with (p ++ sep :: join_with sep (p' :: pieces)).
    intros H. apply in_app_or in H. destruct H as [H|[<-|H]].
    + right. exists p. split; [now left|exact H].
    + now left.
    + destruct (IH H) as [?|(x & Hx & Hc)]; [now left|].
      right. exists x. split; [now right|exact Hc].
Qed.

Lemma write_field_In (c : N) (f : Str.t) :
  In c (write_field f) -> c = Str.quote \/ In c f.
Proof.
  unfold write_field. destruct (existsb (N.eqb Str.comma) f); [|now right].
  intros [<-|H]; [now left|]. apply in_app_or in H.
  destruct H as [?|[<-|[]]]; [now right|now left].
Qed.

Lemma write_row_single_line (row : list Str.t) :
  Forall plain_field row -> ~ In Str.newline (write_row row).
Proof.
  intros Hall Hin. apply join_with_In in Hin.
  destruct Hin as [E|(p & Hp & Hc)]; [discriminate|].
  apply in_map_iff in Hp. destruct Hp as (f & <- & Hf).
  apply write_field_In in Hc. destruct Hc as [E|Hc]; [discriminate|].
  rewrite Forall_forall in Hall. destruct (Hall f Hf) as (_ & _ & Hn). now apply Hn.
Qed.

Lemma write_field_bounds (f : Str.t) :
  Str.trim f = f ->
  starts_ok (write_field f) = true /\ ends_ok (write_field f) = true.
Proof.
  intros Ht. destruct (trim_bounds f) as [Hs He]. rewrite Ht in Hs, He.
  unfold write_field. destruct (existsb (N.eqb Str.comma) f); [|now split].
  split; [reflexivity|].
  change (Str.quote :: f ++ [Str.quote]) with ((Str.quote :: f) ++ [Str.quote]).
  now rewrite ends_ok_app.
Qed.

Lemma write_field_empty (f : Str.t) : write_field f = [] -> f = [].
Proof.
  unfold write_field. destruct (existsb (N.eqb Str.comma) f); [discriminate|auto].
Qed.

(** After a comma, whatever fields follow, the row does not end with white
    space. *)
Lemma write_row_after_comma (rest : list Str.t) :
  Forall plain_field rest -> ends_ok (Str.comma :: write_row rest) = true.
Proof.
  induction rest as [|f rest IH]; intros Hall; [reflexivity|].
  inversion Hall as [|? ? [Ht _] Hrest]; subst.
  destruct rest as [|g rest].
  - change (write_row [f]) with (write_field f).
    destruct (write_field f) as [|c w] eqn:E; [reflexivity|].
    change (Str.comma :: c :: w) with ([Str.comma] ++ c :: w).
    rewrite ends_ok_app by discriminate. rewrite <- E.
    now apply write_field_bounds.
  - rewrite write_row_cons.
    change (Str.comma :: write_field f ++ Str.comma :: write_row (g :: rest))
      with ((Str.comma :: write_field f) ++ Str.comma :: write_row (g :: rest)).
    rewrite ends_ok_app by discriminate. now apply IH.
Qed.

Lemma write_row_bounds (row : list Str.t) :
  plain_row row ->
  write_row row <> [] /\ starts_ok (write_row row) = true /\
  ends_ok (write_row row) = true.
Proof.
  intros (Hne & Hblank & Hall). destruct row as [|f row]; [congruence|].
  inversion Hall as [|? ? [Ht _] Hrest]; subst.
  destruct (write_field_bounds f Ht) as [Hs He].
  destruct row as [|g row].
  - change (write_row [f]) with (write_field f). split; [|now split].
    intros E. apply write_field_empty in E. subst f. now apply Hblank.
  - rewrite write_row_cons. split; [|split].
    + now destruct (write_field f).
    + destruct (write_field f); [reflexivity|exact Hs].
    + rewrite ends_ok_app by discriminate. now apply write_row_after_comma.
Qed.

Lemma join_with_bounds (sep : N) (pieces : list Str.t) :
  pieces <> [] ->
  Forall (fun p => p <> [] /\ starts_ok p = true /\ ends_ok p = true) pieces ->
  join_with sep pieces <> [] /\ starts_ok (join_with sep pieces) = true /\
  ends_ok (join_with sep pieces) = true.
Proof.
  induction pieces as [|p pieces IH]; [congruence|]. intros _ Hall.
  inversion Hall as [|? ? (Hp & Hs & He) Hrest]; subst.
  destruct pieces as [|p' pieces]; [now cbn [join_with]|].
  destruct IH as (Hj & _ & Hje); [discriminate|exact Hrest|].
  change (join_with sep (p :: p' :: pieces))
    with (p ++ sep :: join_with sep (p' :: pieces)).
  split; [|split].
  - now destruct p.
  - now rewrite starts_ok_app.
  - rewrite ends_ok_app by discriminate.
    change (sep :: join_with sep (p' :: pieces))
      with ([sep] ++ join_with sep (p' :: pieces)).
    now rewrite ends_ok_app.
Qed.

(** X21. Reading back a written table gives the table: when the table has
    at least one row, every field is trimmed and free of quotes and line
    feeds, and no row is empty or a blank line, [parseCSV] of the written
    text is the list of rows, the fields with commas (written between
    quotes) included. *)
Theorem parseCSV_write_csv (rows : list (list Str.t)) :
  rows <> [] -> Forall plain_row rows ->
  parseCSV (write_csv rows) = rows.
Proof.
  intros Hne Hall. unfold parseCSV, write_csv.
  destruct (join_with_bounds Str.newline (map write_row rows)) as (_ & Hs & He).
  { intros E. apply map_eq_nil in E. congruence. }
  { rewrite Forall_map. eapply Forall_impl; [|exact Hall].
    intros row. apply write_row_bounds. }
  rewrite trim_fixed by assumption.
  rewrite split_join_with.
  - rewrite map_map. rewrite <- (map_id rows) at 2.
    apply map_ext_in. intros row Hrow.
    rewrite Forall_forall in Hall. destruct (Hall row Hrow) as (Hr & _ & Hf).
    now apply parse_line_write_row.
  - intros E. apply map_eq_nil in E. congruence.
  - rewrite Forall_map. eapply Forall_impl; [|exact Hall].
    intros row (_ & _ & Hf). now apply write_row_single_line.
Qed.

Lemma parseCSV_write_csv_witness :
  let rows := [[Str.of_string "date"; Str.of_string "payee"; Str.of_string "amount"];
               [Str.of_string "2024-01-05"; Str.of_string "Rent, flat 2"; []]] in
  write_csv rows =
    Str.of_string "date,payee,amount" ++ Str.newline ::
    Str.of_string "2024-01-05," ++ Str.quote :: Str.of_string "Rent, flat 2" ++
    Str.quote :: [Str.comma] /\
  parseCSV (write_csv rows) = rows.
Proof.
  intros rows. split; [reflexivity|].
  apply parseCSV_write_csv; [discriminate|].
  repeat constructor; try discriminate;
    intros H; vm_compute in H; intuition discriminate.
Defined.

(** *** From rows to transactions *)

Lemma str_eqb_eq (a b : Str.t) : Str.eqb a b = true <-> a = b.
Proof.
  revert b. induction a as [|x a IH]; intros [|y b]; cbn [Str.eqb];
    try (split; [discriminate|congruence]); [tauto|].
  rewrite andb_true_iff, N.eqb_eq, IH. split; [intros [-> ->]|intros [= -> ->]]; auto.
Qed.

Lemma indexOf_from_spec (headers : list Str.t) (x : Str.t) (i : Z) :
  (0 <= i)%Z ->
  (indexOf_from headers x i = (-1)%Z /\ ~ In x headers) \/
  exists k, indexOf_from headers x i = (i + Z.of_nat k)%Z /\
            nth_error headers k = Some x.
Proof.
  revert i. induction headers as [|h r IH]; intros i Hi; cbn [indexOf_from].
  - left. split; [reflexivity|intros []].
  - destruct (Str.eqb h x) eqn:E.
    + apply str_eqb_eq in E. subst h. right. exists 0%nat. split; [lia|reflexivity].
    + destruct (IH (i + 1)%Z ltac:(lia)) as [[H1 H2] | (k & H1 & H2)].
      * left. split; [exact H1|]. intros [->|Hin]; [|now apply H2].
        assert (Str.eqb x x = true) by now apply str_eqb_eq. congruence.
      * right. exists (S k). split; [lia|exact H2].
Qed.

Lemma indexOf_spec (headers : list Str.t) (x : Str.t) :
  (indexOf headers x = (-1)%Z /\ ~ In x headers) \/
  exists k, indexOf headers x = Z.of_nat k /\ nth_error headers k = Some x.
Proof.
  destruct (indexOf_from_spec headers x 0 ltac:(lia)) as [H | (k & H1 & H2)];
    [now left|right]. exists k. split; [exact H1|exact H2].
Qed.

Lemma at_index_nat (row : list Str.t) (k : nat) :
  at_index row (Z.of_nat k) = nth_error row k.
Proof.
  unfold at_index. destruct (Z.ltb_spec (Z.of_nat k) 0); [lia|].
  now rewrite Nat2Z.id.
Qed.

Lemma map_throwing_inr {A B : Type} (f : A -> Thrown + B) (rows : list A) (ts : list B) :
  map_throwing f rows = inr ts -> Forall2 (fun row t => f row = inr t) rows ts.
Proof.
  revert ts. induction rows as [|row rest IH]; intros ts; cbn [map_throwing].
  - intros [= <-]. constructor.
  - destruct (f row) as [e|t] eqn:E; [discriminate|].
    destruct (map_throwing f rest) as [e|ts']; [discriminate|].
    intros [= <-]. constructor; [exact E|now apply IH].
Qed.

Lemma map_throwing_inl {A B : Type} (f : A -> Thrown + B) (rows : list A) (e : Thrown) :
  map_throwing f rows = inl e -> Exists (fun row => f row = inl e) rows.
Proof.
  induction rows as [|row rest IH]; cbn [map_throwing]; [discriminate|].
  destruct (f row) as [e'|t] eqn:E.
  - intros [= <-]. now left.
  - destruct (map_throwing f rest) as [e'|ts']; [|discriminate].
    intros [= <-]. right. now apply IH.
Qed.

Lemma map_row_thrown parseFloat dateIdx descIdx amountIdx catIdx row e :
  map_row parseFloat dateIdx descIdx amountIdx catIdx row = inl e ->
  e = TypeError /\ at_index row amountIdx = None.
Proof.
  unfold map_row. destruct (at_index row amountIdx); [discriminate|].
  now intros [= <-].
Qed.

(** The three required columns are among the headers. *)
Lemma required_columns (headers : list Str.t) (mapping : CSVMapping) :
  let dateIdx := indexOf headers (dateColumn mapping) in
  let descIdx := indexOf headers (descriptionColumn mapping) in
  let amountIdx := indexOf headers (amountColumn mapping) in
  ((dateIdx =? -1)%Z || (descIdx =? -1)%Z || (amountIdx =? -1)%Z = true /\
   ~ (In (dateColumn mapping) headers /\ In (descriptionColumn mapping) headers /\
      In (amountColumn mapping) headers)) \/
  ((dateIdx =? -1)%Z || (descIdx =? -1)%Z || (amountIdx =? -1)%Z = false /\
   In (dateColumn mapping) headers /\ In (descriptionColumn mapping) headers /\
   exists k, amountIdx = Z.of_nat k /\ nth_error headers k = Some (amountColumn mapping)).
Proof.
  intros dateIdx descIdx amountIdx. subst dateIdx descIdx amountIdx.
  destruct (indexOf_spec headers (dateColumn mapping)) as [[-> H1]|(k1 & -> & H1)];
    [left; split; [reflexivity|tauto]|].
  destruct (indexOf_spec headers (descriptionColumn mapping)) as [[-> H2]|(k2 & -> & H2)];
    [left; split; [now rewrite orb_true_r|tauto]|].
  destruct (indexOf_spec headers (amountColumn mapping)) as [[-> H3]|(k3 & -> & H3)];
    [left; split; [now rewrite orb_true_r|tauto]|].
  right. split; [|split; [|split]].
  - destruct (Z.eqb_spec (Z.of_nat k1) (-1)), (Z.eqb_spec (Z.of_nat k2) (-1)),
      (Z.eqb_spec (Z.of_nat k3) (-1)); try lia; reflexivity.
  - eapply nth_error_In; eassumption.
  - eapply nth_error_In; eassumption.
  - now exists k3.
Qed.

(** X22. [mapCSVToTransactions] throws its own error exactly when one of
    the date, description and amount columns is not among the headers,
    whatever the rows are.  Otherwise the only failure is a [TypeError] on a
    row that has fewer cells than there are headers: a table whose rows are
    all at least as long as the header row is always converted. *)
Theorem mapCSVToTransactions_throws (parseFloat : Str.t -> Num.t)
    (rows : list (list Str.t)) (headers : list Str.t) (mapping : CSVMapping) :
  let r := mapCSVToTransactions parseFloat rows headers mapping in
  let present := In (dateColumn mapping) headers /\
                 In (descriptionColumn mapping) headers /\
                 In (amountColumn mapping) headers in
  (r = inl RequiredColumnsNotFound <-> ~ present) /\
  (r = inl TypeError ->
     Exists (fun row => (List.length row < List.length headers)%nat) rows) /\
  (present ->
   Forall (fun row => (List.length headers <= List.length row)%nat) rows ->
   exists ts, r = inr ts).
Proof.
  intros r present. subst r present. unfold mapCSVToTransactions.
  destruct (required_columns headers mapping) as [[-> Hno] | (-> & Hd & He & k & Hk & Hnth)].
  - split; [tauto|]. split; [discriminate|tauto].
  - set (f := map_row parseFloat _ _ _ _).
    assert (Ha : In (amountColumn mapping) headers) by (eapply nth_error_In; eassumption).
    assert (Hklt : (k < List.length headers)%nat).
    { apply nth_error_Some. congruence. }
    assert (Hthrown : forall e, map_throwing f rows = inl e ->
              e = TypeError /\
              Exists (fun row => (List.length row < List.length headers)%nat) rows).
    { intros e He'. apply map_throwing_inl in He'.
      assert (Hex : Exists (fun row => e = TypeError /\
                              (List.length row < List.length headers)%nat) rows).
      { eapply Exists_impl; [|exact He']. intros row Hrow.
        apply map_row_thrown in Hrow. destruct Hrow as [-> Hnone].
        split; [reflexivity|].
        rewrite Hk, at_index_nat in Hnone. apply nth_error_None in Hnone. lia. }
      split.
      - apply Exists_exists in Hex. now destruct Hex as (? & _ & ? & _).
      - eapply Exists_impl; [|exact Hex]. now intros row [_ H]. }
    split; [|split].
    + split; [|tauto]. destruct (map_throwing f rows) as [e|ts] eqn:E; [|discriminate].
      intros [= ->]. now destruct (Hthrown _ eq_refl).
    + destruct (map_throwing f rows) as [e|ts] eqn:E; [|discriminate].
      intros _. now destruct (Hthrown _ eq_refl).
    + intros _ Hrect. destruct (map_throwing f rows) as [e|ts] eqn:E; [|eauto].
      destruct (Hthrown _ eq_refl) as [_ Hex].
      apply Exists_exists in Hex. destruct Hex as (row & Hin & Hlt).
      rewrite Forall_forall in Hrect. specialize (Hrect row Hin). lia.
Qed.

Lemma mapCSVToTransactions_throws_witness :
  exists ts,
    mapCSVToTransactions (fun _ => Num.Fin 12)
      [[Str.of_string "2024-01-05"; Str.of_string "Salary"; Str.of_string "$1,200.00"]]
      [Str.of_string "Date"; Str.of_string "Description"; Str.of_string "Amount"]
      (mkMapping (Str.of_string "Date") (Str.of_string "Description") (Str.of_string "Amount") None None)
    = inr ts.
Proof.
  apply (mapCSVToTransactions_throws (fun _ => Num.Fin 12)
           [[Str.of_string "2024-01-05"; Str.of_string "Salary"; Str.of_string "$1,200.00"]]
           [Str.of_string "Date"; Str.of_string "Description"; Str.of_string "Amount"]
           (mkMapping (Str.of_string "Date") (Str.of_string "Description") (Str.of_string "Amount") None None)).
  - cbn [dateColumn descriptionColumn amountColumn]. simpl. tauto.
  - repeat constructor.
Defined.

Lemma geb_ltb_zero (x : Num.t) :
  x <> Num.NaN -> Num.geb x (Num.Fin 0) = negb (Num.ltb x (Num.Fin 0)).
Proof.
  destruct x; try congruence; try reflexivity. intros _.
  cbn [Num.geb Num.ltb]. unfold JS.geb, JS.ltb. now rewrite negb_involutive.
Qed.

(** X23. Every transaction [mapCSVToTransactions] returns has an amount
    that is not [NaN] and a description that is not empty; it is an income
    exactly when its amount is at least 0 and an expense exactly when its
    amount is below 0, never a transfer.  It stems from a row whose amount
    cell, with dollar signs and commas removed, parses to that amount, and
    there are no more transactions than rows. *)
Theorem mapCSVToTransactions_output (parseFloat : Str.t -> Num.t)
    (rows : list (list Str.t)) (headers : list Str.t) (mapping : CSVMapping)
    (ts : list ProviderTransaction) :
  mapCSVToTransactions parseFloat rows headers mapping = inr ts ->
  (List.length ts <= List.length rows)%nat /\
  Forall (fun t =>
            pt_amount t <> Num.NaN /\
            (exists d, pt_description t = Some d /\ d <> []) /\
            (pt_type t = ty_income <-> Num.geb (pt_amount t) (Num.Fin 0) = true) /\
            (pt_type t = ty_expense <-> Num.ltb (pt_amount t) (Num.Fin 0) = true) /\
            exists row cell,
              In row rows /\
              at_index row (indexOf headers (amountColumn mapping)) = Some cell /\
              pt_amount t = parseFloat (strip_currency cell) /\
              pt_description t =
                at_index row (indexOf headers (descriptionColumn mapping)))
         ts.
Proof.
  unfold mapCSVToTransactions.
  destruct (_ || _ || _); [discriminate|].
  set (f := map_row parseFloat _ _ _ _).
  destruct (map_throwing f rows) as [e|all] eqn:E; [discriminate|].
  intros [= <-]. apply map_throwing_inr in E. split.
  - rewrite (Forall2_length E). apply filter_length_le.
  - apply Forall_forall. intros t Ht. apply filter_In in Ht.
    destruct Ht as [Hin Hkeep]. apply andb_true_iff in Hkeep.
    destruct Hkeep as [Hnan Hdesc].
    assert (Hamount : pt_amount t <> Num.NaN).
    { intros E'. rewrite E' in Hnan. discriminate. }
    assert (Hrow : exists row, In row rows /\ f row = inr t).
    { clear -E Hin. induction E as [|row t' rows' ts' H E' IH]; [destruct Hin|].
      destruct Hin as [->|Hin].
      - exists row. split; [now left|exact H].
      - destruct (IH Hin) as (r & Hr & Hf). exists r. split; [now right|exact Hf]. }
    destruct Hrow as (row & Hrow & Hf). subst f. unfold map_row in Hf.
    destruct (at_index row (indexOf headers (amountColumn mapping)))
      as [cell|] eqn:Hcell; [|discriminate].
    injection Hf as <-. cbn [pt_amount pt_description pt_type] in *.
    set (amount := parseFloat (strip_currency cell)) in *.
    split; [exact Hamount|]. split; [|split; [|split]].
    + destruct (at_index row (indexOf headers (descriptionColumn mapping)))
        as [[|c d]|]; try discriminate. exists (c :: d). split; [reflexivity|discriminate].
    + destruct (Num.geb amount (Num.Fin 0)); split; congruence.
    + rewrite (geb_ltb_zero amount Hamount).
      destruct (Num.ltb amount (Num.Fin 0)); cbn [negb]; split; congruence.
    + exists row, cell. auto.
Qed.

Lemma mapCSVToTransactions_output_witness :
  let parse := fun s : Str.t =>
    if Str.eqb s (Str.of_string "-45.10") then Num.Fin (-45.10) else Num.NaN in
  exists t,
    mapCSVToTransactions parse
      [[Str.of_string "2024-01-05"; Str.of_string "Groceries"; Str.of_string "-$45.10"];
       [Str.of_string "2024-01-06"; Str.of_string "Unknown"; Str.of_string "n/a"]]
      [Str.of_string "Date"; Str.of_string "Description"; Str.of_string "Amount"]
      (mkMapping (Str.of_string "Date") (Str.of_string "Description") (Str.of_string "Amount") None None)
    = inr [t] /\
    pt_type t = ty_expense /\ pt_amount t <> Num.NaN.
Proof.
  intros parse. eexists. split; [reflexivity|]. split; [reflexivity|].
  pose proof (mapCSVToTransactions_output parse
           [[Str.of_string "2024-01-05"; Str.of_string "Groceries"; Str.of_string "-$45.10"];
            [Str.of_string "2024-01-06"; Str.of_string "Unknown"; Str.of_string "n/a"]]
           [Str.of_string "Date"; Str.of_string "Description"; Str.of_string "Amount"]
           (mkMapping (Str.of_string "Date") (Str.of_string "Description") (Str.of_string "Amount") None None)
           _ eq_refl) as [_ H].
  inversion H as [|? ? [H1 _] _]. exact H1.
Defined.

(** ** Recurring flows *)

Lemma rmap_has_In (m : RecurringMap.t) (k : string) :
  RecurringMap.has m k = true <-> In k (map fst m).
Proof.
  induction m as [|[k' g] r IH]; cbn [RecurringMap.has map fst In].
  - split; [discriminate|tauto].
  - rewrite orb_true_iff, String.eqb_eq, IH. tauto.
Qed.

Lemma rmap_set_new (m : RecurringMap.t) (k : string) (g : RecurringGroup) :
  RecurringMap.has m k = false -> RecurringMap.set m k g = m ++ [(k, g)].
Proof.
  induction m as [|[k' g'] r IH]; cbn [RecurringMap.has RecurringMap.set app];
    [reflexivity|].
  intros H. apply orb_false_iff in H. destruct H as [-> H]. now rewrite IH.
Qed.

Lemma rmap_update_keys (m : RecurringMap.t) (k : string) f :
  map fst (RecurringMap.update m k f) = map fst m.
Proof.
  induction m as [|[k' g] r IH]; cbn [RecurringMap.update map fst]; [reflexivity|].
  destruct (String.eqb k' k); cbn [map fst]; [reflexivity|now rewrite IH].
Qed.

Lemma rmap_update_absent (m l : RecurringMap.t) (k : string) f :
  RecurringMap.has m k = false ->
  RecurringMap.update (m ++ l) k f = m ++ RecurringMap.update l k f.
Proof.
  induction m as [|[k' g] r IH]; cbn [RecurringMap.has RecurringMap.update app];
    [reflexivity|].
  intros H. apply orb_false_iff in H. destruct H as [-> H]. now rewrite IH.
Qed.

Lemma rmap_update_ok (Q : string * RecurringGroup -> Prop) (m : RecurringMap.t)
    (k : string) f :
  (forall e, Q e -> Q (fst e, f (snd e))) ->
  Forall Q m -> Forall Q (RecurringMap.update m k f).
Proof.
  intros Hf. induction 1 as [|[k' g] r He Hr IH]; cbn [RecurringMap.update];
    [constructor|].
  destruct (String.eqb k' k); constructor; auto. exact (Hf _ He).
Qed.

Lemma group_step_spec (P : Z -> Prop) (m : RecurringMap.t) (t : RecentTransaction) :
  P (rt_day t) -> NoDup (map fst m) -> Forall (group_ok P) m ->
  NoDup (map fst (group_step m t)) /\
  Forall (group_ok P) (group_step m t) /\
  forall s, In s (map fst (group_step m t)) <->
            In s (map fst m) \/ s = rt_description t.
Proof.
  intros Hd Hnd Hok. unfold group_step.
  set (push := fun entry => mkGroup _ _ _ _).
  assert (Hpush : forall e, group_ok P e -> group_ok P (fst e, push (snd e))).
  { intros [k g] (H1 & H2 & H3 & H4). unfold group_ok, push. cbn [fst snd] in *.
    cbn [rg_rawDesc rg_days rg_amounts]. repeat split.
    - exact H1.
    - now destruct (rg_days g).
    - rewrite !List.length_app, H3. reflexivity.
    - apply Forall_app. split; [exact H4|]. now constructor. }
  destruct (RecurringMap.has m (rt_description t)) eqn:E; cbn [negb].
  - rewrite rmap_update_keys. split; [exact Hnd|]. split.
    + now apply rmap_update_ok.
    + intros s. split; [tauto|]. intros [H| ->]; [exact H|].
      now apply rmap_has_In.
  - rewrite rmap_set_new, rmap_update_absent by exact E.
    cbn [RecurringMap.update]. rewrite String.eqb_refl.
    rewrite map_app. cbn [map fst]. split; [|split].
    + apply NoDup_app; [exact Hnd|repeat constructor; intros []|].
      intros s Hs [<-|[]]. apply rmap_has_In in Hs. congruence.
    + apply Forall_app. split; [exact Hok|]. constructor; [|constructor].
      unfold group_ok, push. cbn [fst snd rg_rawDesc rg_days rg_amounts app].
      repeat split; [discriminate|]. now constructor.
    + intros s. rewrite in_app_iff. cbn [In]. intuition congruence.
Qed.

Lemma grouping_spec (P : Z -> Prop) (txs : list RecentTransaction) (m : RecurringMap.t) :
  Forall (fun t => P (rt_day t)) txs -> NoDup (map fst m) -> Forall (group_ok P) m ->
  let m' := fold_left group_step txs m in
  NoDup (map fst m') /\ Forall (group_ok P) m' /\
  forall s, In s (map fst m') <->
            In s (map fst m) \/ In s (map rt_description txs).
Proof.
  revert m. induction txs as [|t txs IH]; intros m Hall Hnd Hok; cbn [fold_left].
  - split; [exact Hnd|]. split; [exact Hok|]. intros s. cbn [map In]. tauto.
  - inversion Hall as [|? ? Ht Hrest]; subst.
    destruct (group_step_spec P m t Ht Hnd Hok) as (H1 & H2 & H3).
    destruct (IH (group_step m t) Hrest H1 H2) as (H4 & H5 & H6).
    split; [exact H4|]. split; [exact H5|].
    intros s. rewrite H6, H3. cbn [map In]. intuition congruence.
Qed.

Lemma fold_Zadd_bounds (ds : list Z) (acc : Z) :
  Forall (fun d => (1 <= d <= 31)%Z) ds ->
  (acc + Z.of_nat (List.length ds) <= fold_left Z.add ds acc
     <= acc + 31 * Z.of_nat (List.length ds))%Z.
Proof.
  intros H. revert acc. induction H as [|d ds Hd _ IH]; intros acc.
  - cbn [fold_left List.length]. lia.
  - cbn [fold_left]. specialize (IH (acc + d)%Z).
    change (List.length (d :: ds)) with (S (List.length ds)). lia.
Qed.

Lemma average_day (ds : list Z) :
  ds <> [] -> Forall (fun d => (1 <= d <= 31)%Z) ds ->
  (1 <= JS.round (inject_Z (fold_left Z.add ds 0%Z) /
                  inject_Z (Z.of_nat (List.length ds))) <= 31)%Z.
Proof.
  intros Hne Hall. pose proof (fold_Zadd_bounds ds 0 Hall) as [Hlo Hhi].
  set (s := fold_left Z.add ds 0%Z) in *.
  set (n := Z.of_nat (List.length ds)) in *.
  assert (Hn : (0 < n)%Z) by (destruct ds; [congruence|subst n; simpl; lia]).
  assert (Hq : 0 < inject_Z n) by (change 0 with (inject_Z 0); now rewrite <- Zlt_Qlt).
  apply round_between. split.
  - apply Qle_shift_div_l; [exact Hq|].
    rewrite <- inject_Z_mult, <- Zle_Qle. lia.
  - apply Qle_shift_div_r; [exact Hq|].
    rewrite <- inject_Z_mult, <- Zle_Qle. lia.
Qed.

Lemma group_divisors (P : Z -> Prop) (e : string * RecurringGroup) :
  group_ok P e ->
  0 < inject_Z (Z.of_nat (List.length (rg_amounts (snd e)))) /\
  0 < inject_Z (Z.of_nat (List.length (rg_days (snd e)))).
Proof.
  intros (_ & Hne & Hlen & _). rewrite Hlen.
  assert (0 < inject_Z (Z.of_nat (List.length (rg_days (snd e))))).
  { change 0 with (inject_Z 0). rewrite <- Zlt_Qlt.
    destruct (rg_days (snd e)); [congruence|simpl; lia]. }
  now split.
Qed.

Lemma recurring_loop_spec (P : Z -> Prop) (m : RecurringMap.t)
    (inc exp : list RecurringFlow) :
  Forall (group_ok P) m ->
  exists inc' exp',
    recurring_loop (map snd m) inc exp = Some (inc', exp') /\
    Permutation (map description (inc' ++ exp'))
                (map description (inc ++ exp) ++ map fst m) /\
    ((forall d, P d -> (1 <= d <= 31)%Z) ->
     forall R : RecurringFlow -> Prop,
       (forall a z s, (1 <= z <= 31)%Z -> R (mkFlow a (inject_Z z) s)) ->
       Forall R (inc ++ exp) -> Forall R (inc' ++ exp')).
Proof.
  intros Hok. revert inc exp. induction Hok as [|[k g] m Hg _ IH]; intros inc exp.
  - exists inc, exp. split; [reflexivity|]. split; [|auto].
    cbn [map]. now rewrite app_nil_r.
  - cbn [map snd recurring_loop].
    destruct (group_divisors P _ Hg) as [Ha Hd]. cbn [snd] in Ha, Hd.
    rewrite (finite_div_pos _ _ Ha), (finite_div_pos _ _ Hd). cbn [obind].
    destruct Hg as (Hraw & Hne & _ & Hdays). cbn [fst snd] in Hraw, Hne, Hdays.
    set (f := mkFlow _ _ (rg_rawDesc g)).
    assert (HR : (forall d, P d -> (1 <= d <= 31)%Z) ->
                 forall R : RecurringFlow -> Prop,
                   (forall a z s, (1 <= z <= 31)%Z -> R (mkFlow a (inject_Z z) s)) ->
                   R f).
    { intros HP R HR. apply HR. apply average_day; [exact Hne|].
      eapply Forall_impl; [|exact Hdays]. exact HP. }
    assert (Hdesc : description f = k) by exact Hraw.
    clearbody f.
    destruct (String.eqb (rg_type g) "income").
    + destruct (IH (inc ++ [f]) exp) as (inc' & exp' & -> & Hperm & Hrange).
      exists inc', exp'. split; [reflexivity|]. split.
      * rewrite Hperm. rewrite !map_app. cbn [map]. rewrite Hdesc.
        rewrite <- !app_assoc. apply Permutation_app_head. cbn [app fst].
        apply Permutation_middle.
      * intros HP R HRc Hall. apply (Hrange HP R HRc).
        apply Forall_app in Hall. destruct Hall as [Hi He].
        apply Forall_app. split; [|exact He].
        apply Forall_app. split; [exact Hi|]. constructor; [|constructor].
        now apply HR.
    + destruct (IH inc (exp ++ [f])) as (inc' & exp' & -> & Hperm & Hrange).
      exists inc', exp'. split; [reflexivity|]. split.
      * rewrite Hperm. rewrite !map_app. cbn [map]. rewrite Hdesc.
        rewrite <- !app_assoc. cbn [app fst]. reflexivity.
      * intros HP R HRc Hall. apply (Hrange HP R HRc).
        apply Forall_app in Hall. destruct Hall as [Hi He].
        apply Forall_app. split; [exact Hi|].
        apply Forall_app. split; [exact He|]. constructor; [|constructor].
        now apply HR.
Qed.

(** X24. Grouping the recurring transactions never divides by zero.  The
    flows it yields, income and expenses together, have pairwise distinct
    descriptions, which are exactly the descriptions of the transactions;
    and when every transaction falls on a day of the month between 1 and 31,
    every flow's [dayOfMonth] is an integer between 1 and 31. *)
Theorem recurring_flows_grouped (recentTransactions : list RecentTransaction) :
  exists recurringIncome recurringExpenses,
    recurring_flows recentTransactions = Some (recurringIncome, recurringExpenses) /\
    NoDup (map description (recurringIncome ++ recurringExpenses)) /\
    (forall s, In s (map description (recurringIncome ++ recurringExpenses)) <->
               In s (map rt_description recentTransactions)) /\
    (Forall (fun t => (1 <= rt_day t <= 31)%Z) recentTransactions ->
     Forall (fun f => exists z, dayOfMonth f = inject_Z z /\ (1 <= z <= 31)%Z)
            (recurringIncome ++ recurringExpenses)).
Proof.
  unfold recurring_flows.
  destruct (grouping_spec (fun _ => True) recentTransactions [])
    as (Hnd & Hok & Hkeys);
    [apply Forall_forall; auto|constructor|constructor|].
  destruct (recurring_loop_spec (fun _ => True) _ [] [] Hok)
    as (inc & exp & Hrun & Hperm & _).
  exists inc, exp. split; [exact Hrun|]. cbn [app map] in Hperm.
  split; [|split].
  - eapply Permutation_NoDup; [symmetry; exact Hperm|exact Hnd].
  - intros s. split.
    + intros H. apply (Permutation_in _ Hperm), Hkeys in H. now destruct H as [[]|H].
    + intros H. apply (Permutation_in _ (Permutation_sym Hperm)), Hkeys. now right.
  - intros Hdays.
    destruct (grouping_spec (fun d => (1 <= d <= 31)%Z) recentTransactions [])
      as (_ & Hok' & _); [exact Hdays|constructor|constructor|].
    destruct (recurring_loop_spec _ _ [] [] Hok') as (inc' & exp' & Hrun' & _ & Hrange).
    rewrite Hrun in Hrun'. injection Hrun' as <- <-.
    apply Hrange; [auto| |constructor].
    intros a z s Hz. exists z. now split.
Qed.

Lemma recurring_flows_grouped_witness :
  exists inc exp,
    recurring_flows
      [mkRecent "Rent" (-900) 1 "expense"; mkRecent "Salary" 2500 28 "income";
       mkRecent "Rent" (-900) 4 "expense"]
    = Some (inc, exp) /\
    Forall (fun f => exists z, dayOfMonth f = inject_Z z /\ (1 <= z <= 31)%Z)
           (inc ++ exp).
Proof.
  destruct (recurring_flows_grouped
              [mkRecent "Rent" (-900) 1 "expense"; mkRecent "Salary" 2500 28 "income";
               mkRecent "Rent" (-900) 4 "expense"])
    as (inc & exp & Hrun & _ & _ & Hdays).
  exists inc, exp. split; [exact Hrun|].
  apply Hdays. repeat constructor; cbn [rt_day]; lia.
Defined.

(** ** The Monte Carlo series for any [years] *)

Lemma integer_iterations (years : Q) (n : Z) :
  years == inject_Z n -> band_iterations years = year_iterations years.
Proof.
  intros H. unfold band_iterations, year_iterations.
  now rewrite (Qceiling_comp _ _ H), (Qfloor_comp _ _ H), Qceiling_Z, Qfloor_Z.
Qed.

(** X25. Whatever [years] is, the Monte Carlo series has one entry for each
    [y = 0, 1, ...] below [years], numbered from 1.  The entries of the years
    the trials simulate, the whole years in [years], have three percentiles
    with [low <= mid <= high] in each profile; when [years] is an integer
    these are all the entries.  Otherwise one more entry follows, whose
    percentiles are all [undefined]. *)
Theorem monteCarlo_bands (random : Random) (years : Q) (currentBalance monthlyAdd : Q) :
  let mc := monteCarlo random years currentBalance monthlyAdd in
  map mc_year mc = seq 1 (band_iterations years) /\
  Forall entry_ordered (firstn (year_iterations years) mc) /\
  Forall (fun e => conservative e = undefined_band /\
                   moderate e = undefined_band /\
                   aggressive e = undefined_band)
         (skipn (year_iterations years) mc) /\
  (forall n : Z, years == inject_Z n -> Forall entry_ordered mc).
Proof.
  intros mc.
  destruct (monteCarlo_entries random years currentBalance monthlyAdd)
    as (rs & Hmc & Hord & Hund).
  assert (Hfirst : Forall entry_ordered (firstn (year_iterations years) mc)).
  { unfold mc. rewrite Hmc, firstn_map_seq by apply iterations_le.
    rewrite Forall_map. apply Forall_forall. intros k Hk. apply in_seq in Hk.
    unfold entry_ordered. cbn [conservative moderate aggressive].
    apply Hord. lia. }
  split; [|split; [exact Hfirst|split]].
  - unfold mc. rewrite Hmc, map_map. cbn [mc_year].
    rewrite <- seq_shift. apply map_ext. intros k. lia.
  - unfold mc. rewrite Hmc, skipn_map, skipn_seq.
    rewrite Forall_map. apply Forall_forall. intros k Hk. apply in_seq in Hk.
    cbn [conservative moderate aggressive]. apply Hund. lia.
  - intros n Hn. rewrite <- (integer_iterations years n Hn) in Hfirst.
    rewrite firstn_all2 in Hfirst; [exact Hfirst|].
    unfold mc. rewrite Hmc, List.length_map, List.length_seq. lia.
Qed.

Lemma monteCarlo_bands_witness :
  Forall entry_ordered (monteCarlo (fun _ => 1 # 3) 2 1000 100).
Proof.
  apply (monteCarlo_bands (fun _ => 1 # 3) 2 1000 100) with (n := 2%Z).
  reflexivity.
Defined.
